(** * Protobuf wire-format emitter: llvm/Support/Protobuf.h

    A shallow embedding of the emitter of [llvm/include/llvm/Support/Protobuf.h]
    and the properties its specification states about it.

    Conventions of the embedding.
    - A C++ integer is a mathematical integer ([Z]) together with the type it
      has in the source; every conversion and every fixed-width operation
      writes its wrap-around out ([Cpp.static_cast]).  [int] has 32 bits,
      [long long] and [std::size_t] have 64, and an [int] sum that leaves
      the range of [int] wraps around in two's complement (the standard
      leaves it undefined).
    - The output iterator the emitter writes through is the list of bytes
      written so far; [*Output++ = b] appends [b].
    - [assert] is enabled (a build without [NDEBUG]): a failing assertion
      aborts the call, which then has no result ([None]).
    - [static_assert]s and other instantiation-time checks of a template are
      boolean functions of the template's type arguments, named after the
      function with the suffix [_static].
    - A function template whose instantiation can be ill-formed is a function
      of its type arguments into [option]: [None] where there is no
      instantiation, so that nothing runs. *)

From Stdlib Require Import ZArith List Bool Lia.
From Stdlib Require Ascii String.
Import ListNotations.
Local Open Scope Z_scope.

(** ** C++ integer types, limits and conversions *)

Module Cpp.

(** The fixed-width integer types of <cstdint>.  [long long] is 64 bits wide
    and is read as [Int64]; [int] is 32 bits wide and is read as [Int32]. *)
Inductive IntType : Type :=
| Int8 | UInt8 | Int16 | UInt16 | Int32 | UInt32 | Int64 | UInt64.

Definition is_signed (T : IntType) : bool :=
  match T with
  | Int8 | Int16 | Int32 | Int64 => true
  | UInt8 | UInt16 | UInt32 | UInt64 => false
  end.

Definition width (T : IntType) : Z :=
  match T with
  | Int8 | UInt8 => 8
  | Int16 | UInt16 => 16
  | Int32 | UInt32 => 32
  | Int64 | UInt64 => 64
  end.

(** [std::numeric_limits<T>::min()], [::max()] and [::digits]. *)
Definition numeric_limits_min (T : IntType) : Z :=
  if is_signed T then - 2 ^ (width T - 1) else 0.

Definition numeric_limits_max (T : IntType) : Z :=
  if is_signed T then 2 ^ (width T - 1) - 1 else 2 ^ width T - 1.

Definition numeric_limits_digits (T : IntType) : Z :=
  if is_signed T then width T - 1 else width T.

(** The values a type represents. *)
Definition representable (T : IntType) (v : Z) : Prop :=
  numeric_limits_min T <= v <= numeric_limits_max T.

(** [static_cast<T>(v)], also the implicit integral conversion to [T]: the
    value modulo 2^width, read in two's complement for a signed [T]. *)
Definition static_cast (T : IntType) (v : Z) : Z :=
  if is_signed T
  then (v + 2 ^ (width T - 1)) mod 2 ^ width T - 2 ^ (width T - 1)
  else v mod 2 ^ width T.

(** Integral promotion: every type narrower than [int] becomes [int]. *)
Definition promote (T : IntType) : IntType :=
  match T with
  | Int8 | UInt8 | Int16 | UInt16 => Int32
  | _ => T
  end.

(** The usual arithmetic conversions on two promoted operand types: the
    common type both operands are converted to before a binary operator. *)
Definition common_type (A B : IntType) : IntType :=
  let A := promote A in
  let B := promote B in
  if Bool.eqb (is_signed A) (is_signed B)
  then (if width A <? width B then B else A)
  else
    let S := if is_signed A then A else B in
    let U := if is_signed A then B else A in
    if width S <=? width U then U else S.

(** [a <= b] for an operand [a] of type [A] and an operand [b] of type [B]. *)
Definition le (A : IntType) (a : Z) (B : IntType) (b : Z) : bool :=
  let T := common_type A B in
  static_cast T a <=? static_cast T b.

(** Types as template arguments: an integral type, an enumeration with its
    underlying type, a container with its [value_type], an lvalue reference
    [T &], anything else. *)
Inductive Type_ : Type :=
| Integral (T : IntType)
| Enumeration (Underlying : IntType)
| Container (value_type : Type_)
| LValueReference (T : Type_)
| Other.

(** [std::remove_reference_t<T>]. *)
Definition remove_reference (T : Type_) : Type_ :=
  match T with
  | LValueReference T' => T'
  | _ => T
  end.

(** What a forwarding reference [ValueType &&] deduces for [ValueType]: the
    type of an rvalue argument, the lvalue reference to the type of an lvalue
    argument. *)
Inductive ValueCategory : Type := LValue | RValue.

Definition forwarding_reference (Argument : ValueCategory) (T : Type_)
  : Type_ :=
  match Argument with
  | RValue => T
  | LValue => LValueReference T
  end.

(** A template argument is a type or an expression. *)
Inductive TemplateArgument : Type :=
| TypeArgument (T : Type_)
| ExpressionArgument.

(** [std::forward<T>(x)].  [T] is a type parameter: with an expression as
    its template argument [std::forward] names no function.  On values it is
    the identity. *)
Definition forward {A : Type} (T : TemplateArgument) : option (A -> A) :=
  match T with
  | TypeArgument _ => Some (fun x => x)
  | ExpressionArgument => None
  end.

End Cpp.

(** ** Free functions and constants of namespace llvm::protobuf *)

(** [detail::FitsInImpl] / [FitsIn<SourceType, DestinationType>]. *)
Definition FitsIn (SourceType DestinationType : Cpp.IntType) : bool :=
  (Cpp.static_cast Cpp.Int64 (Cpp.numeric_limits_min DestinationType)
   <=? Cpp.static_cast Cpp.Int64 (Cpp.numeric_limits_min SourceType))
  && Cpp.le SourceType (Cpp.numeric_limits_max SourceType)
            DestinationType (Cpp.numeric_limits_max DestinationType).

(** "You must give each field in your message definition a number between 1
    and 536,870,911." *)
Definition MinField : Z := 1.
Definition MaxField : Z := 536870911.

(** Protocol Buffers wire types, with the codes [to_underlying] gives. *)
Inductive WireType : Type :=
| VarInt | I64 | LengthDelimited | StartGroup | EndGroup | I32.

Definition to_underlying (WType : WireType) : Z :=
  match WType with
  | VarInt => 0
  | I64 => 1
  | LengthDelimited => 2
  | StartGroup => 3
  | EndGroup => 4
  | I32 => 5
  end.

(** [convertToZigZag(std::int64_t Value)], result of type [std::uint64_t]. *)
Definition convertToZigZag (Value : Z) : Z :=
  let UnsignedValue := Cpp.static_cast Cpp.UInt64 Value in
  if Value >=? 0
  then Cpp.static_cast Cpp.UInt64 (Z.shiftl UnsignedValue 1)
  else Cpp.static_cast Cpp.UInt64
         (Z.lnot (Cpp.static_cast Cpp.UInt64 (Z.shiftl UnsignedValue 1))).

(** [calculateVarIntLength(std::uint64_t Value)]. *)
Definition calculateVarIntLength (Value : Z) : Z :=
  if Z.shiftr Value 7 =? 0 then 1
  else if Z.shiftr Value 14 =? 0 then 2
  else if Z.shiftr Value 21 =? 0 then 3
  else if Z.shiftr Value 28 =? 0 then 4
  else if Z.shiftr Value 35 =? 0 then 5
  else if Z.shiftr Value 42 =? 0 then 6
  else if Z.shiftr Value 49 =? 0 then 7
  else if Z.shiftr Value 56 =? 0 then 8
  else if Z.shiftr Value 63 =? 0 then 9
  else 10.

(** [calculateVarIntPackedLength]: [std::accumulate] from the [int] 0; every
    partial sum is an [int] (two's complement wrap-around written out), and
    every element is converted to the [std::uint64_t] parameter of
    [calculateVarIntLength]. *)
Definition calculateVarIntPackedLength (Values : list Z) : Z :=
  fold_left
    (fun Length Value =>
       Cpp.static_cast Cpp.Int32
         (Length + calculateVarIntLength (Cpp.static_cast Cpp.UInt64 Value)))
    Values 0.

(** [calculateSignedVarIntPackedLength]: the same fold over the ZigZag image
    of every element (converted to the [std::int64_t] parameter of
    [convertToZigZag]). *)
Definition calculateSignedVarIntPackedLength (Values : list Z) : Z :=
  fold_left
    (fun Length Value =>
       Cpp.static_cast Cpp.Int32
         (Length
          + calculateVarIntLength
              (convertToZigZag (Cpp.static_cast Cpp.Int64 Value))))
    Values 0.

(** [toIntegral]: an integral value as it is, an enumerator as its underlying
    value.  On values it is the identity; on types it gives the type of the
    result, and [None] where the [static_assert] of its last branch fires. *)
Definition toIntegral (Value : Z) : Z := Value.

Definition toIntegral_type (T : Cpp.Type_) : option Cpp.IntType :=
  match T with
  | Cpp.Integral Ty => Some Ty
  | Cpp.Enumeration Underlying => Some Underlying
  | _ => None
  end.

(** ** The output stream and the emitting computations *)

(** An emitting computation takes the bytes written so far and gives its
    result with the bytes written after it, or [None] when an assertion
    fails.  Bytes are integers in 0..255. *)
Definition Emit (A : Type) : Type := list Z -> option (A * list Z).

Definition ret {A : Type} (a : A) : Emit A :=
  fun Output => Some (a, Output).

Definition bind {A B : Type} (m : Emit A) (k : A -> Emit B) : Emit B :=
  fun Output =>
    match m Output with
    | Some (a, Output') => k a Output'
    | None => None
    end.

Notation "x <- m ;; k" := (bind m (fun x => k))
  (at level 61, m at next level, right associativity).
Notation "m ;; k" := (bind m (fun _ => k))
  (at level 61, right associativity).

(** [assert(c)]. *)
Definition assert (c : bool) : Emit unit :=
  fun Output => if c then Some (tt, Output) else None.

(** [*Output++ = Byte]. *)
Definition put (Byte : Z) : Emit unit :=
  fun Output => Some (tt, Output ++ [Byte]).

(** [for (auto Item : Range) Body]. *)
Fixpoint for_each {A : Type} (Range : list A) (Body : A -> Emit unit)
  : Emit unit :=
  match Range with
  | [] => ret tt
  | Item :: Rest => Body Item ;; for_each Rest Body
  end.

(** The bytes a computation writes to an empty stream. *)
Definition bytes_of (m : Emit unit) : list Z :=
  match m [] with
  | Some (_, Output) => Output
  | None => []
  end.

(** ** Object representations *)

(** The emitter reads fixed-width payloads through
    [reinterpret_cast<const std::byte *>(&Value)]: the bytes of the object
    in the order the host stores them. *)
Inductive Endianness : Type := LittleEndian | BigEndian.

Fixpoint little_endian_bytes (Size : nat) (Value : Z) : list Z :=
  match Size with
  | O => []
  | S Size' => Z.land Value 255 :: little_endian_bytes Size' (Z.shiftr Value 8)
  end.

Definition object_representation (Host : Endianness) (Size : nat) (Value : Z)
  : list Z :=
  match Host with
  | LittleEndian => little_endian_bytes Size Value
  | BigEndian => rev (little_endian_bytes Size Value)
  end.

(** A [float] and a [double] are their 32 and 64 bits (IEEE-754 layout);
    [bit_cast] keeps the bits. *)
Record float : Type := Float { float_bits : Z }.
Record double : Type := Double { double_bits : Z }.

Definition bit_cast_uint32 (Value : float) : Z :=
  Cpp.static_cast Cpp.UInt32 (float_bits Value).

Definition bit_cast_uint64 (Value : double) : Z :=
  Cpp.static_cast Cpp.UInt64 (double_bits Value).

(** The characters of a [StringRef] read as bytes. *)
Definition StringRef_bytes (Value : String.string) : list Z :=
  map (fun c => Z.of_N (Ascii.N_of_ascii c)) (String.list_ascii_of_string Value).

(** ** class Emitter *)

Module Emitter.

(** The [if constexpr] of [emitTag]: the group wire types have no
    instantiation. *)
Definition emitTag_static (WType : WireType) : bool :=
  match WType with
  | VarInt | I64 | LengthDelimited | I32 => true
  | StartGroup | EndGroup => false
  end.

(** The loop of [emitVarIntRaw].  [BytesEmitted] and [Value] are the loop's
    variables and the result is the final [BytesEmitted].  The guard
    [BytesEmitted <= 9] bounds the iterations by ten, which is the [Fuel] the
    function is called with; [emitVarIntRaw_loop_fuel] shows that no run
    reaches the end of the fuel with the guard still true. *)
Fixpoint emitVarIntRaw_loop (Fuel : nat) (BytesEmitted Value : Z) : Emit Z :=
  match Fuel with
  | O => ret BytesEmitted
  | S Fuel' =>
      if BytesEmitted <=? 9 then
        let Payload := Z.land Value 127 in
        let Value := Z.shiftr Value 7 in
        let Payload := if negb (Value =? 0) then Z.lor Payload 128 else Payload in
        assert ((BytesEmitted <? 9) || (Z.land Payload 128 =? 0)) ;;
        put Payload ;;
        let BytesEmitted := BytesEmitted + 1 in
        if Value =? 0 then ret BytesEmitted
        else emitVarIntRaw_loop Fuel' BytesEmitted Value
      else ret BytesEmitted
  end.

(** [emitVarIntRaw(std::uint64_t Value)]. *)
Definition emitVarIntRaw (Value : Z) : Emit unit :=
  BytesEmitted <- emitVarIntRaw_loop 10 0 Value ;;
  assert (BytesEmitted >? 0).

(** [emitRawBytes(ArrayRef<std::byte> Bytes)]. *)
Definition emitRawBytes (Bytes : list Z) : Emit unit :=
  for_each Bytes (fun Byte => put Byte).

(** [emitTag<WType>(std::int64_t Field)]: [Tag] is a [std::uint32_t], and so
    are the shift and the sum that compute it. *)
Definition emitTag (WType : WireType) (Field : Z) : Emit unit :=
  assert (Cpp.le Cpp.Int32 MinField Cpp.Int64 Field
          && Cpp.le Cpp.Int64 Field Cpp.Int32 MaxField) ;;
  let Tag :=
    Cpp.static_cast Cpp.UInt32
      (Cpp.static_cast Cpp.UInt32
         (Z.shiftl (Cpp.static_cast Cpp.UInt32 Field) 3)
       + to_underlying WType) in
  emitVarIntRaw Tag.

(** [emitVarInt(Field, std::uint64_t Value)]. *)
Definition emitVarInt (Field Value : Z) : Emit unit :=
  emitTag VarInt (toIntegral Field) ;;
  emitVarIntRaw Value.

(** [emitSignedVarInt(Field, std::int64_t Value)]. *)
Definition emitSignedVarInt (Field Value : Z) : Emit unit :=
  emitTag VarInt (toIntegral Field) ;;
  emitVarIntRaw (convertToZigZag Value).

(** [emitLen(Field, ArrayRef<std::byte> Value)]. *)
Definition emitLen (Field : Z) (Value : list Z) : Emit unit :=
  emitTag LengthDelimited (toIntegral Field) ;;
  emitVarIntRaw (Cpp.static_cast Cpp.UInt64 (Z.of_nat (length Value))) ;;
  emitRawBytes Value.

(** [emitLen(Field, StringRef Value)]. *)
Definition emitLen_StringRef (Field : Z) (Value : String.string) : Emit unit :=
  emitLen (toIntegral Field) (StringRef_bytes Value).

Section Host.

(** The byte order of the machine the emitter runs on. *)
Variable Host : Endianness.

(** [emitI32(Field, std::uint32_t Value)]. *)
Definition emitI32 (Field Value : Z) : Emit unit :=
  emitTag I32 (toIntegral Field) ;;
  emitRawBytes (object_representation Host 4 Value).

(** [emitI64(Field, std::uint64_t Value)]. *)
Definition emitI64 (Field Value : Z) : Emit unit :=
  emitTag I64 (toIntegral Field) ;;
  emitRawBytes (object_representation Host 8 Value).

(** [emitI32(Field, float Value)]. *)
Definition emitI32_float (Field : Z) (Value : float) : Emit unit :=
  emitI32 (toIntegral Field) (bit_cast_uint32 Value).

(** [emitI64(Field, double Value)]. *)
Definition emitI64_double (Field : Z) (Value : double) : Emit unit :=
  emitI64 (toIntegral Field) (bit_cast_uint64 Value).

(** [emitI32Packed(Field, ArrayRef<ItemType> Value)], integral [ItemType].
    The length is computed in [std::size_t], 64 bits wide. *)
Definition emitI32Packed (Field : Z) (Value : list Z) : Emit unit :=
  emitTag LengthDelimited (toIntegral Field) ;;
  emitVarIntRaw (Cpp.static_cast Cpp.UInt64 (Z.of_nat (length Value) * 4)) ;;
  for_each Value (fun Item =>
    let ItemU32 := Cpp.static_cast Cpp.UInt32 Item in
    emitRawBytes (object_representation Host 4 ItemU32)).

(** [emitI32Packed(Field, ArrayRef<float> Value)]. *)
Definition emitI32Packed_float (Field : Z) (Value : list float) : Emit unit :=
  emitTag LengthDelimited (toIntegral Field) ;;
  emitVarIntRaw (Cpp.static_cast Cpp.UInt64 (Z.of_nat (length Value) * 4)) ;;
  for_each Value (fun Item =>
    let ItemU32 := bit_cast_uint32 Item in
    emitRawBytes (object_representation Host 4 ItemU32)).

(** [emitI64Packed(Field, ArrayRef<ValueType> Value)], integral [ValueType]. *)
Definition emitI64Packed (Field : Z) (Value : list Z) : Emit unit :=
  emitTag LengthDelimited (toIntegral Field) ;;
  emitVarIntRaw (Cpp.static_cast Cpp.UInt64 (Z.of_nat (length Value) * 8)) ;;
  for_each Value (fun Item =>
    let ItemU64 := Cpp.static_cast Cpp.UInt64 Item in
    emitRawBytes (object_representation Host 8 ItemU64)).

(** [emitI64Packed(Field, ArrayRef<double> Value)]. *)
Definition emitI64Packed_double (Field : Z) (Value : list double) : Emit unit :=
  emitTag LengthDelimited (toIntegral Field) ;;
  emitVarIntRaw (Cpp.static_cast Cpp.UInt64 (Z.of_nat (length Value) * 8)) ;;
  for_each Value (fun Item =>
    let ItemU64 := bit_cast_uint64 Item in
    emitRawBytes (object_representation Host 8 ItemU64)).

End Host.

(** [emitVarIntPacked(Field, ArrayRef<ItemType> Value)]. *)
Definition emitVarIntPacked (Field : Z) (Value : list Z) : Emit unit :=
  emitTag LengthDelimited (toIntegral Field) ;;
  emitVarIntRaw
    (Cpp.static_cast Cpp.UInt64 (calculateVarIntPackedLength Value)) ;;
  for_each Value (fun Item => emitVarIntRaw (Cpp.static_cast Cpp.UInt64 Item)).

(** [emitVarIntPacked(Field, ArrayRef<bool> Value)]. *)
Definition emitVarIntPacked_bool (Field : Z) (Value : list bool) : Emit unit :=
  emitTag LengthDelimited (toIntegral Field) ;;
  emitVarIntRaw
    (Cpp.static_cast Cpp.UInt64
       (calculateVarIntPackedLength (map Z.b2z Value))) ;;
  for_each Value (fun Item =>
    emitVarIntRaw (Cpp.static_cast Cpp.UInt64 (Z.b2z Item))).

(** [emitSignedVarIntPacked(Field, ArrayRef<ValueType> Value)]. *)
Definition emitSignedVarIntPacked (Field : Z) (Value : list Z) : Emit unit :=
  emitTag LengthDelimited (toIntegral Field) ;;
  emitVarIntRaw
    (Cpp.static_cast Cpp.UInt64 (calculateSignedVarIntPackedLength Value)) ;;
  for_each Value (fun Item =>
    emitVarIntRaw (convertToZigZag (Cpp.static_cast Cpp.Int64 Item))).

(** The [static_assert]s of [emitEnum] on its [ValueType].  The parameter is
    a forwarding reference: an rvalue argument of type [T] deduces [T], an
    lvalue argument deduces the reference type [T &], which is neither
    integral nor an enumeration ([Cpp.forwarding_reference]). *)
Definition emitEnum_static (ValueType : Cpp.Type_) : bool :=
  match ValueType with
  | Cpp.Integral Ty => Cpp.numeric_limits_digits Ty <=? 32
  | Cpp.Enumeration Underlying => FitsIn Underlying Cpp.Int32
  | _ => false
  end.

(** [emitEnum(Field, Value)].  [IntValueType] is the type [auto] gives
    [IntValue], that is [toIntegral_type ValueType]; both comparisons of the
    assertion are between an [int] limit and an operand of that type. *)
Definition emitEnum (IntValueType : Cpp.IntType) (Field Value : Z)
  : Emit unit :=
  let IntValue := toIntegral Value in
  assert (Cpp.le Cpp.Int32 (Cpp.numeric_limits_min Cpp.Int32)
                 IntValueType IntValue
          && Cpp.le IntValueType IntValue
                    Cpp.Int32 (Cpp.numeric_limits_max Cpp.Int32)) ;;
  emitVarInt (toIntegral Field) (Cpp.static_cast Cpp.UInt64 IntValue).

(** [emitEnum] instantiated at [ValueType]: the function above once the
    [static_assert]s pass, with [auto IntValue] of the type [toIntegral]
    gives for the argument. *)
Definition emitEnum_at (ValueType : Cpp.Type_)
  : option (Z -> Z -> Emit unit) :=
  if emitEnum_static ValueType then
    match toIntegral_type (Cpp.remove_reference ValueType) with
    | Some IntValueType => Some (emitEnum IntValueType)
    | None => None
    end
  else None.

(** [emitEnumRepeated(Field, Value)] instantiated at [ValueType].  The
    [static_assert] names [ValueType::value_type], which a reference type
    lacks.  The loop variable [auto Item] is an lvalue, so the call
    [emitEnum(Field, Item)] instantiates [emitEnum] at a reference type. *)
Definition emitEnumRepeated (ValueType : Cpp.Type_)
  : option (Z -> list Z -> Emit unit) :=
  match ValueType with
  | Cpp.Container ItemType =>
      match emitEnum_at (Cpp.forwarding_reference Cpp.LValue ItemType) with
      | Some emitEnum_Item =>
          Some (fun Field Value =>
                  for_each Value (fun Item => emitEnum_Item Field Item))
      | None => None
      end
  | _ => None
  end.

(** [emitEnumPacked(Field, Value)] instantiated at [ValueType], a container
    or a reference to one.  The loop body calls [toIntegral(Value)] on the
    container, not on [Item].  The name is unqualified: lookup finds
    [llvm::protobuf::toIntegral], whose [static_assert] fires on a container
    type, and, by argument-dependent lookup, a function [toIntegral]
    declared in the namespace of the container's type; overload resolution
    prefers such a function, when it is not a template, to the template.
    [toIntegral_ADL] is that function, when there is one and it returns an
    integer: the type it returns and, as a function of the elements, the
    value it returns on the container.  Without it ([std::array],
    [std::vector], [ArrayRef]) the template has no instantiation. *)
Definition emitEnumPacked (ValueType : Cpp.Type_)
  (toIntegral_ADL : option (Cpp.IntType * (list Z -> Z)))
  : option (Z -> list Z -> Emit unit) :=
  match Cpp.remove_reference ValueType with
  | Cpp.Container ItemType =>
      if emitEnum_static ItemType then
        match toIntegral_ADL with
        | Some (IntValueType, toIntegral_Value) =>
            Some (fun Field Value =>
              emitTag LengthDelimited (toIntegral Field) ;;
              emitVarIntRaw
                (Cpp.static_cast Cpp.UInt64 (Z.of_nat (length Value))) ;;
              for_each Value (fun Item =>
                let IntValue := toIntegral_Value Value in
                assert (Cpp.le Cpp.Int32 (Cpp.numeric_limits_min Cpp.Int32)
                               IntValueType IntValue
                        && Cpp.le IntValueType IntValue
                                  Cpp.Int32 (Cpp.numeric_limits_max Cpp.Int32)) ;;
                emitVarIntRaw (Cpp.static_cast Cpp.UInt64 Item)))
        | None => None
        end
      else None
  | _ => None
  end.

End Emitter.

(** ** class Builder *)

(** Every function forwards to the emitter.  An argument passed to a
    parameter of another integer type is converted on the way ([int32_t] to
    the [std::uint64_t] of [emitVarInt], and so on); the element type of a
    container decides nothing but the [static_assert]s on [FitsIn]. *)
Module Builder.

(** [emitInt32Repeated] and [emitInt32Packed] on a container of [ItemType];
    the other integer categories have the same check against their own
    type. *)
Definition emitInt32Repeated_static (ItemType : Cpp.IntType) : bool :=
  FitsIn ItemType Cpp.Int32.

Definition emitBool (Field : Z) (Value : bool) : Emit unit :=
  Emitter.emitVarInt Field (Cpp.static_cast Cpp.UInt64 (Z.b2z Value)).

Definition emitBoolRepeated (Field : Z) (Value : list bool) : Emit unit :=
  for_each Value (fun Item => emitBool Field Item).

Definition emitBoolPacked (Field : Z) (Value : list bool) : Emit unit :=
  Emitter.emitVarIntPacked_bool Field Value.

Definition emitInt32 (Field Value : Z) : Emit unit :=
  Emitter.emitVarInt Field (Cpp.static_cast Cpp.UInt64 Value).

Definition emitInt32Repeated (Field : Z) (Value : list Z) : Emit unit :=
  for_each Value (fun Item =>
    Emitter.emitVarInt Field (Cpp.static_cast Cpp.UInt64 Item)).

Definition emitInt32Packed (Field : Z) (Value : list Z) : Emit unit :=
  Emitter.emitVarIntPacked Field Value.

Definition emitInt64 (Field Value : Z) : Emit unit :=
  Emitter.emitVarInt Field (Cpp.static_cast Cpp.UInt64 Value).

Definition emitInt64Repeated (Field : Z) (Value : list Z) : Emit unit :=
  for_each Value (fun Item =>
    Emitter.emitVarInt Field (Cpp.static_cast Cpp.UInt64 Item)).

Definition emitInt64Packed (Field : Z) (Value : list Z) : Emit unit :=
  Emitter.emitVarIntPacked Field Value.

Definition emitUInt32 (Field Value : Z) : Emit unit :=
  Emitter.emitVarInt Field (Cpp.static_cast Cpp.UInt64 Value).

Definition emitUInt32Repeated (Field : Z) (Value : list Z) : Emit unit :=
  for_each Value (fun Item =>
    Emitter.emitVarInt Field (Cpp.static_cast Cpp.UInt64 Item)).

Definition emitUInt32Packed (Field : Z) (Value : list Z) : Emit unit :=
  Emitter.emitVarIntPacked Field Value.

Definition emitUInt64 (Field Value : Z) : Emit unit :=
  Emitter.emitVarInt Field Value.

Definition emitUInt64Repeated (Field : Z) (Value : list Z) : Emit unit :=
  for_each Value (fun Item =>
    Emitter.emitVarInt Field (Cpp.static_cast Cpp.UInt64 Item)).

Definition emitUInt64Packed (Field : Z) (Value : list Z) : Emit unit :=
  Emitter.emitVarIntPacked Field Value.

Definition emitSInt32 (Field Value : Z) : Emit unit :=
  Emitter.emitSignedVarInt Field (Cpp.static_cast Cpp.Int64 Value).

Definition emitSInt32Repeated (Field : Z) (Value : list Z) : Emit unit :=
  for_each Value (fun Item =>
    Emitter.emitSignedVarInt Field (Cpp.static_cast Cpp.Int64 Item)).

Definition emitSInt32Packed (Field : Z) (Value : list Z) : Emit unit :=
  Emitter.emitSignedVarIntPacked Field Value.

Definition emitSInt64 (Field Value : Z) : Emit unit :=
  Emitter.emitSignedVarInt Field Value.

Definition emitSInt64Repeated (Field : Z) (Value : list Z) : Emit unit :=
  for_each Value (fun Item =>
    Emitter.emitSignedVarInt Field (Cpp.static_cast Cpp.Int64 Item)).

Definition emitSInt64Packed (Field : Z) (Value : list Z) : Emit unit :=
  Emitter.emitSignedVarIntPacked Field Value.

Definition emitString (Field : Z) (Value : String.string) : Emit unit :=
  Emitter.emitLen_StringRef Field Value.

Definition emitStringRepeated (Field : Z) (Value : list String.string)
  : Emit unit :=
  for_each Value (fun Item => emitString Field Item).

(** [emitBytes] on a contiguous container of bytes. *)
Definition emitBytes (Field : Z) (Value : list Z) : Emit unit :=
  Emitter.emitLen Field Value.

(** [emitBytes(Field, StringRef Value)]. *)
Definition emitBytes_StringRef (Field : Z) (Value : String.string)
  : Emit unit :=
  Emitter.emitLen_StringRef Field Value.

Definition emitBytesRepeated (Field : Z) (Value : list (list Z)) : Emit unit :=
  for_each Value (fun Item => emitBytes Field Item).

(** [emitBytesRepeated] on a container of string-like items, which select
    the [StringRef] overload of [emitBytes]. *)
Definition emitBytesRepeated_StringRef (Field : Z) (Value : list String.string)
  : Emit unit :=
  for_each Value (fun Item => emitBytes_StringRef Field Item).

Definition emitSubmessage (Field : Z) (Value : list Z) : Emit unit :=
  emitBytes Field Value.

Definition emitSubmessageRepeated (Field : Z) (Value : list (list Z))
  : Emit unit :=
  emitBytesRepeated Field Value.

(** [emitEnum], [emitEnumRepeated] and [emitEnumPacked] forward their
    argument with [std::forward<Value>(Value)]: the template argument is the
    parameter [Value], an expression, where the type [ValueType] belongs. *)
Definition emitEnum (ValueType : Cpp.Type_) : option (Z -> Z -> Emit unit) :=
  match Cpp.forward Cpp.ExpressionArgument, Emitter.emitEnum_at ValueType with
  | Some forward_Value, Some Emitter_emitEnum =>
      Some (fun Field Value => Emitter_emitEnum Field (forward_Value Value))
  | _, _ => None
  end.

Definition emitEnumRepeated (ValueType : Cpp.Type_)
  : option (Z -> list Z -> Emit unit) :=
  match Cpp.forward Cpp.ExpressionArgument,
        Emitter.emitEnumRepeated ValueType with
  | Some forward_Value, Some Emitter_emitEnumRepeated =>
      Some (fun Field Value =>
              Emitter_emitEnumRepeated Field (forward_Value Value))
  | _, _ => None
  end.

Definition emitEnumPacked (ValueType : Cpp.Type_)
  (toIntegral_ADL : option (Cpp.IntType * (list Z -> Z)))
  : option (Z -> list Z -> Emit unit) :=
  match Cpp.forward Cpp.ExpressionArgument,
        Emitter.emitEnumPacked ValueType toIntegral_ADL with
  | Some forward_Value, Some Emitter_emitEnumPacked =>
      Some (fun Field Value =>
              Emitter_emitEnumPacked Field (forward_Value Value))
  | _, _ => None
  end.

Section Host.

Variable Host : Endianness.

Definition emitDouble (Field : Z) (Value : double) : Emit unit :=
  Emitter.emitI64_double Host Field Value.

Definition emitDoubleRepeated (Field : Z) (Value : list double) : Emit unit :=
  for_each Value (fun Item => Emitter.emitI64_double Host Field Item).

Definition emitDoublePacked (Field : Z) (Value : list double) : Emit unit :=
  Emitter.emitI64Packed_double Host Field Value.

Definition emitFloat (Field : Z) (Value : float) : Emit unit :=
  Emitter.emitI32_float Host Field Value.

Definition emitFloatRepeated (Field : Z) (Value : list float) : Emit unit :=
  for_each Value (fun Item => Emitter.emitI32_float Host Field Item).

Definition emitFloatPacked (Field : Z) (Value : list float) : Emit unit :=
  Emitter.emitI32Packed_float Host Field Value.

Definition emitFixed32 (Field Value : Z) : Emit unit :=
  Emitter.emitI32 Host Field Value.

Definition emitFixed32Repeated (Field : Z) (Value : list Z) : Emit unit :=
  for_each Value (fun Item =>
    Emitter.emitI32 Host Field (Cpp.static_cast Cpp.UInt32 Item)).

Definition emitFixed32Packed (Field : Z) (Value : list Z) : Emit unit :=
  Emitter.emitI32Packed Host Field Value.

Definition emitFixed64 (Field Value : Z) : Emit unit :=
  Emitter.emitI64 Host Field Value.

Definition emitFixed64Repeated (Field : Z) (Value : list Z) : Emit unit :=
  for_each Value (fun Item =>
    Emitter.emitI64 Host Field (Cpp.static_cast Cpp.UInt64 Item)).

Definition emitFixed64Packed (Field : Z) (Value : list Z) : Emit unit :=
  Emitter.emitI64Packed Host Field Value.

Definition emitSFixed32 (Field Value : Z) : Emit unit :=
  Emitter.emitI32 Host Field (Cpp.static_cast Cpp.UInt32 Value).

Definition emitSFixed32Repeated (Field : Z) (Value : list Z) : Emit unit :=
  for_each Value (fun Item =>
    Emitter.emitI32 Host Field (Cpp.static_cast Cpp.UInt32 Item)).

Definition emitSFixed32Packed (Field : Z) (Value : list Z) : Emit unit :=
  Emitter.emitI32Packed Host Field Value.

Definition emitSFixed64 (Field Value : Z) : Emit unit :=
  Emitter.emitI64 Host Field (Cpp.static_cast Cpp.UInt64 Value).

Definition emitSFixed64Repeated (Field : Z) (Value : list Z) : Emit unit :=
  for_each Value (fun Item =>
    Emitter.emitI64 Host Field (Cpp.static_cast Cpp.UInt64 Item)).

Definition emitSFixed64Packed (Field : Z) (Value : list Z) : Emit unit :=
  Emitter.emitI64Packed Host Field Value.

End Host.

End Builder.

(** ** The scalar categories of the specification *)

(** One name for every row of the specification's table of scalar
    categories whose builder functions can be called, to state a property of
    every [emit_C], [emit_C_repeated] and [emit_C_packed] at once.  The row
    [enum] is not among them: [Builder::emitEnum], [emitEnumRepeated] and
    [emitEnumPacked] have no instantiation, and an enumerator is emitted by
    [Emitter::emitEnum]. *)
Inductive Category : Type :=
| CDouble | CFloat
| CInt32 | CInt64 | CUInt32 | CUInt64 | CSInt32 | CSInt64
| CFixed32 | CFixed64 | CSFixed32 | CSFixed64
| CBool | CString | CBytes | CSubmessage.

(** What one element of a category is in the embedding. *)
Definition ItemOf (C : Category) : Type :=
  match C with
  | CDouble => double
  | CFloat => float
  | CBool => bool
  | CString => String.string
  | CBytes | CSubmessage => list Z
  | _ => Z
  end.

(** An integer element is a value of the parameter type of its [emit_C]. *)
Definition item_ok (C : Category) : ItemOf C -> Prop :=
  match C return ItemOf C -> Prop with
  | CInt32 | CSInt32 | CSFixed32 => Cpp.representable Cpp.Int32
  | CInt64 | CSInt64 | CSFixed64 => Cpp.representable Cpp.Int64
  | CUInt32 | CFixed32 => Cpp.representable Cpp.UInt32
  | CUInt64 | CFixed64 => Cpp.representable Cpp.UInt64
  | _ => fun _ => True
  end.

(** The wire type the specification's table gives a category. *)
Definition spec_wire_type (C : Category) : WireType :=
  match C with
  | CInt32 | CInt64 | CUInt32 | CUInt64 | CBool => VarInt
  | CSInt32 | CSInt64 => VarInt
  | CFixed32 | CSFixed32 | CFloat => I32
  | CFixed64 | CSFixed64 | CDouble => I64
  | CString | CBytes | CSubmessage => LengthDelimited
  end.

Section Dispatch.

Variable Host : Endianness.

(** [emit_C(field, value)]. *)
Definition emit_C (C : Category) : Z -> ItemOf C -> Emit unit :=
  match C return Z -> ItemOf C -> Emit unit with
  | CDouble => Builder.emitDouble Host
  | CFloat => Builder.emitFloat Host
  | CInt32 => Builder.emitInt32
  | CInt64 => Builder.emitInt64
  | CUInt32 => Builder.emitUInt32
  | CUInt64 => Builder.emitUInt64
  | CSInt32 => Builder.emitSInt32
  | CSInt64 => Builder.emitSInt64
  | CFixed32 => Builder.emitFixed32 Host
  | CFixed64 => Builder.emitFixed64 Host
  | CSFixed32 => Builder.emitSFixed32 Host
  | CSFixed64 => Builder.emitSFixed64 Host
  | CBool => Builder.emitBool
  | CString => Builder.emitString
  | CBytes => Builder.emitBytes
  | CSubmessage => Builder.emitSubmessage
  end.

(** [emit_C_repeated(field, iterable)]. *)
Definition emit_C_repeated (C : Category)
  : Z -> list (ItemOf C) -> Emit unit :=
  match C return Z -> list (ItemOf C) -> Emit unit with
  | CDouble => Builder.emitDoubleRepeated Host
  | CFloat => Builder.emitFloatRepeated Host
  | CInt32 => Builder.emitInt32Repeated
  | CInt64 => Builder.emitInt64Repeated
  | CUInt32 => Builder.emitUInt32Repeated
  | CUInt64 => Builder.emitUInt64Repeated
  | CSInt32 => Builder.emitSInt32Repeated
  | CSInt64 => Builder.emitSInt64Repeated
  | CFixed32 => Builder.emitFixed32Repeated Host
  | CFixed64 => Builder.emitFixed64Repeated Host
  | CSFixed32 => Builder.emitSFixed32Repeated Host
  | CSFixed64 => Builder.emitSFixed64Repeated Host
  | CBool => Builder.emitBoolRepeated
  | CString => Builder.emitStringRepeated
  | CBytes => Builder.emitBytesRepeated
  | CSubmessage => Builder.emitSubmessageRepeated
  end.

(** [emit_C_packed(field, iterable)], for the categories that have one. *)
Definition emit_C_packed (C : Category)
  : option (Z -> list (ItemOf C) -> Emit unit) :=
  match C return option (Z -> list (ItemOf C) -> Emit unit) with
  | CDouble => Some (Builder.emitDoublePacked Host)
  | CFloat => Some (Builder.emitFloatPacked Host)
  | CInt32 => Some Builder.emitInt32Packed
  | CInt64 => Some Builder.emitInt64Packed
  | CUInt32 => Some Builder.emitUInt32Packed
  | CUInt64 => Some Builder.emitUInt64Packed
  | CSInt32 => Some Builder.emitSInt32Packed
  | CSInt64 => Some Builder.emitSInt64Packed
  | CFixed32 => Some (Builder.emitFixed32Packed Host)
  | CFixed64 => Some (Builder.emitFixed64Packed Host)
  | CSFixed32 => Some (Builder.emitSFixed32Packed Host)
  | CSFixed64 => Some (Builder.emitSFixed64Packed Host)
  | CBool => Some Builder.emitBoolPacked
  | CString | CBytes | CSubmessage => None
  end.

(** One call of the builder on a field. *)
Inductive Call : Type :=
| Singular (C : Category) (Value : ItemOf C)
| Repeated (C : Category) (Value : list (ItemOf C))
| Packed (C : Category) (Value : list (ItemOf C)).

Definition run_call (c : Call) (Field : Z) : option (Emit unit) :=
  match c with
  | Singular C Value => Some (emit_C C Field Value)
  | Repeated C Value => Some (emit_C_repeated C Field Value)
  | Packed C Value =>
      match emit_C_packed C with
      | Some emit => Some (emit Field Value)
      | None => None
      end
  end.

End Dispatch.

(** ** Reference notions of the specification *)

(** The tag of a record: [(field_number << 3) | wire_type]. *)
Definition spec_tag (Field : Z) (WType : WireType) : Z :=
  Z.lor (Z.shiftl Field 3) (to_underlying WType).

(** Reading one varint off the front of a byte sequence, as the wire format
    defines it: little-endian base 128, the high bit of a byte set on every
    byte but the last.  Gives the value and the bytes that follow. *)
Fixpoint spec_decode_varint (Bytes : list Z) : option (Z * list Z) :=
  match Bytes with
  | [] => None
  | Byte :: Rest =>
      if Z.land Byte 128 =? 0 then Some (Z.land Byte 127, Rest)
      else
        match spec_decode_varint Rest with
        | Some (High, Rest') => Some (Z.land Byte 127 + 128 * High, Rest')
        | None => None
        end
  end.

(** ZigZag by the formula of the wire format, [(n << 1) ^ (n >> 63)] with an
    arithmetic right shift, as a 64-bit pattern. *)
Definition spec_zigzag (n : Z) : Z :=
  Cpp.static_cast Cpp.UInt64 (Z.lxor (Z.shiftl n 1) (Z.shiftr n 63)).

(** The inverse transform a decoder applies: [(z >> 1) ^ -(z & 1)]. *)
Definition spec_unzigzag (z : Z) : Z :=
  Z.lxor (Z.shiftr z 1) (- Z.land z 1).

(** Sign extension of a [Width]-bit pattern to 64 bits: when the sign bit of
    the pattern is set, the bits from [Width] up to 63 are set too. *)
Definition spec_sign_extend (Width : Z) (Pattern : Z) : Z :=
  if Z.testbit Pattern (Width - 1)
  then Pattern + (2 ^ 64 - 2 ^ Width)
  else Pattern.

(** ** Reasoning about emitting computations *)

(** [m] succeeds from every stream and writes exactly [Bytes]. *)
Definition appends (m : Emit unit) (Bytes : list Z) : Prop :=
  forall Output, m Output = Some (tt, Output ++ Bytes).

(** The base-128 digits of [Value], least significant first, every digit but
    the last with the continuation bit: what the loop of [emitVarIntRaw]
    writes in at most [Fuel] rounds. *)
Fixpoint base128 (Fuel : nat) (Value : Z) : list Z :=
  match Fuel with
  | O => []
  | S Fuel' =>
      if Z.shiftr Value 7 =? 0 then [Z.land Value 127]
      else Z.lor (Z.land Value 127) 128 :: base128 Fuel' (Z.shiftr Value 7)
  end.

(** The bytes of a tag and of a bare varint, as the emitter writes them. *)
Definition tag_bytes (WType : WireType) (Field : Z) : list Z :=
  bytes_of (Emitter.emitTag WType Field).

Definition varint_bytes (Value : Z) : list Z :=
  bytes_of (Emitter.emitVarIntRaw Value).

(** A field number of the data model. *)
Definition valid_field (Field : Z) : Prop := MinField <= Field <= MaxField.

(** The payload of one element of a packed field, for each of the four
    packed emitters: the bytes its singular emitter writes after the tag. *)
Definition varint_payload (Item : Z) : list Z :=
  varint_bytes (Cpp.static_cast Cpp.UInt64 Item).

Definition signed_varint_payload (Item : Z) : list Z :=
  varint_bytes (convertToZigZag (Cpp.static_cast Cpp.Int64 Item)).

Definition fixed32_payload (Host : Endianness) (Item : Z) : list Z :=
  object_representation Host 4 (Cpp.static_cast Cpp.UInt32 Item).

Definition fixed64_payload (Host : Endianness) (Item : Z) : list Z :=
  object_representation Host 8 (Cpp.static_cast Cpp.UInt64 Item).

(** A packed record as the specification describes it: one LengthDelimited
    tag, the byte count of the payload as a varint, the payloads one after
    the other. *)
Definition packed_record (Field : Z) (Payloads : list (list Z)) : list Z :=
  tag_bytes LengthDelimited Field
  ++ varint_bytes (Z.of_nat (length (concat Payloads)))
  ++ concat Payloads.

(** 2^31 elements that are all 0, of any integral element type: in a packed
    varint field they take one byte each. *)
Definition two_gib_of_zeros : list Z := repeat 0 (Z.to_nat 2147483648).

(** ** The emitter without assertions *)

(** LLVM's release builds define [NDEBUG], and [assert] expands to nothing.
    [emitTag] is then the computation of [Tag] alone; [emitVarIntRaw] is the
    same function in both builds, since its assertions hold on every 64-bit
    value ([appends_emitVarIntRaw]). *)
Module NDEBUG.

(** [emitTag<WType>(std::int64_t Field)]. *)
Definition emitTag (WType : WireType) (Field : Z) : Emit unit :=
  let Tag :=
    Cpp.static_cast Cpp.UInt32
      (Cpp.static_cast Cpp.UInt32
         (Z.shiftl (Cpp.static_cast Cpp.UInt32 Field) 3)
       + to_underlying WType) in
  Emitter.emitVarIntRaw Tag.

End NDEBUG.

(** ** The rotation the comment on [convertToZigZag] names *)

(** "Circular rotate left by 1" of a 64-bit pattern: every bit moves one
    place up and bit 63 comes back as bit 0. *)
Definition rotate_left_1 (Pattern : Z) : Z :=
  Z.lor (Cpp.static_cast Cpp.UInt64 (Z.shiftl Pattern 1)) (Z.shiftr Pattern 63).

(** ** Payloads by category *)

(** The integer categories and [bool]: the categories whose elements are
    integers of one C++ type. *)
Definition integer_categories : list Category :=
  [CInt32; CInt64; CUInt32; CUInt64; CSInt32; CSInt64;
   CFixed32; CFixed64; CSFixed32; CSFixed64; CBool].

(** The payload of one element of such a category: what its singular
    emitter writes after the tag. *)
Definition item_payload (Host : Endianness) (C : Category)
  : ItemOf C -> list Z :=
  match C return ItemOf C -> list Z with
  | CInt32 | CInt64 | CUInt32 | CUInt64 => varint_payload
  | CSInt32 | CSInt64 => signed_varint_payload
  | CFixed32 | CSFixed32 => fixed32_payload Host
  | CFixed64 | CSFixed64 => fixed64_payload Host
  | CBool => fun Item => varint_payload (Z.b2z Item)
  | _ => fun _ => []
  end.


(** ** Properties *)

(** *** The golden byte sequences of the unit tests

    Every expectation of [llvm/unittests/Support/Protobuf.cpp], on a
    little-endian host; the field is [Fields::One] throughout. *)
Section UnitTests.

Import String.
Local Open Scope string_scope.

Example test_Bool :
  bytes_of (Builder.emitBool 1 false)
     = [0x08; 0x00]
  /\ bytes_of (Builder.emitBool 1 true)
     = [0x08; 0x01]
  /\ bytes_of (Builder.emitBoolRepeated 1 [true; false; true])
     = [0x08; 0x01; 0x08; 0x00; 0x08; 0x01]
  /\ bytes_of (Builder.emitBoolPacked 1 [true; false; true])
     = [0x0A; 0x03; 0x01; 0x00; 0x01].
Proof. repeat split; reflexivity. Qed.

Example test_String :
  bytes_of (Builder.emitString 1 "")
     = [0x0A; 0x00]
  /\ bytes_of (Builder.emitString 1 "test")
     = [0x0A; 0x04; 0x74; 0x65; 0x73; 0x74]
  /\ bytes_of (Builder.emitString 1 "にほんご")
     = [0x0A; 0x0C; 0xE3; 0x81; 0xAB; 0xE3; 0x81; 0xBB; 0xE3; 0x82; 0x93;
        0xE3; 0x81; 0x94]
  /\ bytes_of (Builder.emitStringRepeated 1 [""; "test"])
     = [0x0A; 0x00; 0x0A; 0x04; 0x74; 0x65; 0x73; 0x74].
Proof. repeat split; reflexivity. Qed.

Example test_Bytes :
  bytes_of (Builder.emitBytes 1 [])
     = [0x0A; 0x00]
  /\ bytes_of (Builder.emitBytes 1 [0xFF])
     = [0x0A; 0x01; 0xFF]
  /\ bytes_of (Builder.emitBytes 1 [0x00; 0x01; 0x02])
     = [0x0A; 0x03; 0x00; 0x01; 0x02]
  /\ bytes_of (Builder.emitBytesRepeated 1 [[0; 1]; [2; 3]])
     = [0x0A; 0x02; 0x00; 0x01; 0x0A; 0x02; 0x02; 0x03]
  /\ bytes_of (Builder.emitBytes_StringRef 1 "test")
     = [0x0A; 0x04; 0x74; 0x65; 0x73; 0x74]
  /\ bytes_of (Builder.emitBytesRepeated_StringRef 1 [""; "test"])
     = [0x0A; 0x00; 0x0A; 0x04; 0x74; 0x65; 0x73; 0x74].
Proof. repeat split; reflexivity. Qed.

Example test_Int32 :
  bytes_of (Builder.emitInt32 1 0)
     = [0x08; 0x00]
  /\ bytes_of (Builder.emitInt32 1 1)
     = [0x08; 0x01]
  /\ bytes_of (Builder.emitInt32 1 65537)
     = [0x08; 0x81; 0x80; 0x04]
  /\ bytes_of (Builder.emitInt32 1 (Cpp.numeric_limits_max Cpp.Int32))
     = [0x08; 0xFF; 0xFF; 0xFF; 0xFF; 0x07]
  /\ bytes_of (Builder.emitInt32 1 (-1))
     = [0x08; 0xFF; 0xFF; 0xFF; 0xFF; 0xFF; 0xFF; 0xFF; 0xFF; 0xFF; 0x01]
  /\ bytes_of (Builder.emitInt32 1 (-65537))
     = [0x08; 0xFF; 0xFF; 0xFB; 0xFF; 0xFF; 0xFF; 0xFF; 0xFF; 0xFF; 0x01]
  /\ bytes_of (Builder.emitInt32 1 (Cpp.numeric_limits_min Cpp.Int32))
     = [0x08; 0x80; 0x80; 0x80; 0x80; 0xF8; 0xFF; 0xFF; 0xFF; 0xFF; 0x01]
  /\ bytes_of (Builder.emitInt32Repeated 1 [0; (-1); 65537])
     = [0x08; 0x00; 0x08; 0xFF; 0xFF; 0xFF; 0xFF; 0xFF; 0xFF; 0xFF; 0xFF;
        0xFF; 0x01; 0x08; 0x81; 0x80; 0x04]
  /\ bytes_of (Builder.emitInt32Packed 1 [0; (-1); 65537])
     = [0x0A; 0x0E; 0x00; 0xFF; 0xFF; 0xFF; 0xFF; 0xFF; 0xFF; 0xFF; 0xFF;
        0xFF; 0x01; 0x81; 0x80; 0x04].
Proof. repeat split; reflexivity. Qed.

Example test_Int64 :
  bytes_of (Builder.emitInt64 1 0)
     = [0x08; 0x00]
  /\ bytes_of (Builder.emitInt64 1 1)
     = [0x08; 0x01]
  /\ bytes_of (Builder.emitInt64 1 65537)
     = [0x08; 0x81; 0x80; 0x04]
  /\ bytes_of (Builder.emitInt64 1 2147483649)
     = [0x08; 0x81; 0x80; 0x80; 0x80; 0x08]
  /\ bytes_of (Builder.emitInt64 1 (Cpp.numeric_limits_max Cpp.Int64))
     = [0x08; 0xFF; 0xFF; 0xFF; 0xFF; 0xFF; 0xFF; 0xFF; 0xFF; 0x7F]
  /\ bytes_of (Builder.emitInt64 1 (-1))
     = [0x08; 0xFF; 0xFF; 0xFF; 0xFF; 0xFF; 0xFF; 0xFF; 0xFF; 0xFF; 0x01]
  /\ bytes_of (Builder.emitInt64 1 (-65537))
     = [0x08; 0xFF; 0xFF; 0xFB; 0xFF; 0xFF; 0xFF; 0xFF; 0xFF; 0xFF; 0x01]
  /\ bytes_of (Builder.emitInt64 1 (-2147483649))
     = [0x08; 0xFF; 0xFF; 0xFF; 0xFF; 0xF7; 0xFF; 0xFF; 0xFF; 0xFF; 0x01]
  /\ bytes_of (Builder.emitInt64 1 (Cpp.numeric_limits_min Cpp.Int64))
     = [0x08; 0x80; 0x80; 0x80; 0x80; 0x80; 0x80; 0x80; 0x80; 0x80; 0x01]
  /\ bytes_of (Builder.emitInt64Repeated 1 [1; (-65537); 2147483649])
     = [0x08; 0x01; 0x08; 0xFF; 0xFF; 0xFB; 0xFF; 0xFF; 0xFF; 0xFF; 0xFF;
        0xFF; 0x01; 0x08; 0x81; 0x80; 0x80; 0x80; 0x08]
  /\ bytes_of (Builder.emitInt64Packed 1 [1; (-65537); 2147483649])
     = [0x0A; 0x10; 0x01; 0xFF; 0xFF; 0xFB; 0xFF; 0xFF; 0xFF; 0xFF; 0xFF;
        0xFF; 0x01; 0x81; 0x80; 0x80; 0x80; 0x08].
Proof. repeat split; reflexivity. Qed.

Example test_UInt32 :
  bytes_of (Builder.emitUInt32 1 0)
     = [0x08; 0x00]
  /\ bytes_of (Builder.emitUInt32 1 1)
     = [0x08; 0x01]
  /\ bytes_of (Builder.emitUInt32 1 65537)
     = [0x08; 0x81; 0x80; 0x04]
  /\ bytes_of (Builder.emitUInt32 1 (Cpp.numeric_limits_max Cpp.UInt32))
     = [0x08; 0xFF; 0xFF; 0xFF; 0xFF; 0x0F]
  /\ bytes_of (Builder.emitUInt32Repeated 1 [0; 1; 65537])
     = [0x08; 0x00; 0x08; 0x01; 0x08; 0x81; 0x80; 0x04]
  /\ bytes_of (Builder.emitUInt32Packed 1 [0; 1; 65537])
     = [0x0A; 0x05; 0x00; 0x01; 0x81; 0x80; 0x04].
Proof. repeat split; reflexivity. Qed.

Example test_UInt64 :
  bytes_of (Builder.emitUInt64 1 0)
     = [0x08; 0x00]
  /\ bytes_of (Builder.emitUInt64 1 1)
     = [0x08; 0x01]
  /\ bytes_of (Builder.emitUInt64 1 65537)
     = [0x08; 0x81; 0x80; 0x04]
  /\ bytes_of (Builder.emitUInt64 1 2147483649)
     = [0x08; 0x81; 0x80; 0x80; 0x80; 0x08]
  /\ bytes_of (Builder.emitUInt64 1 (Cpp.numeric_limits_max Cpp.UInt64))
     = [0x08; 0xFF; 0xFF; 0xFF; 0xFF; 0xFF; 0xFF; 0xFF; 0xFF; 0xFF; 0x01]
  /\ bytes_of (Builder.emitUInt64Repeated 1 [1; 65537; 2147483649])
     = [0x08; 0x01; 0x08; 0x81; 0x80; 0x04; 0x08; 0x81; 0x80; 0x80; 0x80;
        0x08]
  /\ bytes_of (Builder.emitUInt64Packed 1 [1; 65537; 2147483649])
     = [0x0A; 0x09; 0x01; 0x81; 0x80; 0x04; 0x81; 0x80; 0x80; 0x80; 0x08].
Proof. repeat split; reflexivity. Qed.

Example test_SInt32 :
  bytes_of (Builder.emitSInt32 1 0)
     = [0x08; 0x00]
  /\ bytes_of (Builder.emitSInt32 1 1)
     = [0x08; 0x02]
  /\ bytes_of (Builder.emitSInt32 1 65537)
     = [0x08; 0x82; 0x80; 0x08]
  /\ bytes_of (Builder.emitSInt32 1 (Cpp.numeric_limits_max Cpp.Int32))
     = [0x08; 0xFE; 0xFF; 0xFF; 0xFF; 0x0F]
  /\ bytes_of (Builder.emitSInt32 1 (-1))
     = [0x08; 0x01]
  /\ bytes_of (Builder.emitSInt32 1 (-65537))
     = [0x08; 0x81; 0x80; 0x08]
  /\ bytes_of (Builder.emitSInt32 1 (Cpp.numeric_limits_min Cpp.Int32))
     = [0x08; 0xFF; 0xFF; 0xFF; 0xFF; 0x0F]
  /\ bytes_of (Builder.emitSInt32Repeated 1 [0; (-1); 65537])
     = [0x08; 0x00; 0x08; 0x01; 0x08; 0x82; 0x80; 0x08]
  /\ bytes_of (Builder.emitSInt32Packed 1 [0; (-1); 65537])
     = [0x0A; 0x05; 0x00; 0x01; 0x82; 0x80; 0x08].
Proof. repeat split; reflexivity. Qed.

Example test_SInt64 :
  bytes_of (Builder.emitSInt64 1 0)
     = [0x08; 0x00]
  /\ bytes_of (Builder.emitSInt64 1 1)
     = [0x08; 0x02]
  /\ bytes_of (Builder.emitSInt64 1 65537)
     = [0x08; 0x82; 0x80; 0x08]
  /\ bytes_of (Builder.emitSInt64 1 2147483649)
     = [0x08; 0x82; 0x80; 0x80; 0x80; 0x10]
  /\ bytes_of (Builder.emitSInt64 1 (Cpp.numeric_limits_max Cpp.Int64))
     = [0x08; 0xFE; 0xFF; 0xFF; 0xFF; 0xFF; 0xFF; 0xFF; 0xFF; 0xFF; 0x01]
  /\ bytes_of (Builder.emitSInt64 1 (-1))
     = [0x08; 0x01]
  /\ bytes_of (Builder.emitSInt64 1 (-65537))
     = [0x08; 0x81; 0x80; 0x08]
  /\ bytes_of (Builder.emitSInt64 1 (-2147483649))
     = [0x08; 0x81; 0x80; 0x80; 0x80; 0x10]
  /\ bytes_of (Builder.emitSInt64 1 (Cpp.numeric_limits_min Cpp.Int64))
     = [0x08; 0xFF; 0xFF; 0xFF; 0xFF; 0xFF; 0xFF; 0xFF; 0xFF; 0xFF; 0x01]
  /\ bytes_of (Builder.emitSInt64Repeated 1 [1; (-65537); 2147483649])
     = [0x08; 0x02; 0x08; 0x81; 0x80; 0x08; 0x08; 0x82; 0x80; 0x80; 0x80;
        0x10]
  /\ bytes_of (Builder.emitSInt64Packed 1 [1; (-65537); 2147483649])
     = [0x0A; 0x09; 0x02; 0x81; 0x80; 0x08; 0x82; 0x80; 0x80; 0x80; 0x10].
Proof. repeat split; reflexivity. Qed.

Example test_Fixed32 :
  bytes_of (Builder.emitFixed32 LittleEndian 1 0)
     = [0x0D; 0x00; 0x00; 0x00; 0x00]
  /\ bytes_of (Builder.emitFixed32 LittleEndian 1 1)
     = [0x0D; 0x01; 0x00; 0x00; 0x00]
  /\ bytes_of (Builder.emitFixed32 LittleEndian 1 65537)
     = [0x0D; 0x01; 0x00; 0x01; 0x00]
  /\ bytes_of (Builder.emitFixed32 LittleEndian 1
        (Cpp.numeric_limits_max Cpp.UInt32))
     = [0x0D; 0xFF; 0xFF; 0xFF; 0xFF]
  /\ bytes_of (Builder.emitFixed32Repeated LittleEndian 1 [0; 1; 65537])
     = [0x0D; 0x00; 0x00; 0x00; 0x00; 0x0D; 0x01; 0x00; 0x00; 0x00; 0x0D;
        0x01; 0x00; 0x01; 0x00]
  /\ bytes_of (Builder.emitFixed32Packed LittleEndian 1 [0; 1; 65537])
     = [0x0A; 0x0C; 0x00; 0x00; 0x00; 0x00; 0x01; 0x00; 0x00; 0x00; 0x01;
        0x00; 0x01; 0x00].
Proof. repeat split; reflexivity. Qed.

Example test_Fixed64 :
  bytes_of (Builder.emitFixed64 LittleEndian 1 0)
     = [0x09; 0x00; 0x00; 0x00; 0x00; 0x00; 0x00; 0x00; 0x00]
  /\ bytes_of (Builder.emitFixed64 LittleEndian 1 1)
     = [0x09; 0x01; 0x00; 0x00; 0x00; 0x00; 0x00; 0x00; 0x00]
  /\ bytes_of (Builder.emitFixed64 LittleEndian 1 65537)
     = [0x09; 0x01; 0x00; 0x01; 0x00; 0x00; 0x00; 0x00; 0x00]
  /\ bytes_of (Builder.emitFixed64 LittleEndian 1 2147483649)
     = [0x09; 0x01; 0x00; 0x00; 0x80; 0x00; 0x00; 0x00; 0x00]
  /\ bytes_of (Builder.emitFixed64 LittleEndian 1
        (Cpp.numeric_limits_max Cpp.UInt64))
     = [0x09; 0xFF; 0xFF; 0xFF; 0xFF; 0xFF; 0xFF; 0xFF; 0xFF]
  /\ bytes_of (Builder.emitFixed64Repeated LittleEndian 1 [1; 65537;
        2147483649])
     = [0x09; 0x01; 0x00; 0x00; 0x00; 0x00; 0x00; 0x00; 0x00; 0x09; 0x01;
        0x00; 0x01; 0x00; 0x00; 0x00; 0x00; 0x00; 0x09; 0x01; 0x00; 0x00;
        0x80; 0x00; 0x00; 0x00; 0x00]
  /\ bytes_of (Builder.emitFixed64Packed LittleEndian 1 [1; 65537;
        2147483649])
     = [0x0A; 0x18; 0x01; 0x00; 0x00; 0x00; 0x00; 0x00; 0x00; 0x00; 0x01;
        0x00; 0x01; 0x00; 0x00; 0x00; 0x00; 0x00; 0x01; 0x00; 0x00; 0x80;
        0x00; 0x00; 0x00; 0x00].
Proof. repeat split; reflexivity. Qed.

Example test_SFixed32 :
  bytes_of (Builder.emitSFixed32 LittleEndian 1 0)
     = [0x0D; 0x00; 0x00; 0x00; 0x00]
  /\ bytes_of (Builder.emitSFixed32 LittleEndian 1 1)
     = [0x0D; 0x01; 0x00; 0x00; 0x00]
  /\ bytes_of (Builder.emitSFixed32 LittleEndian 1 65537)
     = [0x0D; 0x01; 0x00; 0x01; 0x00]
  /\ bytes_of (Builder.emitSFixed32 LittleEndian 1
        (Cpp.numeric_limits_max Cpp.Int32))
     = [0x0D; 0xFF; 0xFF; 0xFF; 0x7F]
  /\ bytes_of (Builder.emitSFixed32 LittleEndian 1 (-1))
     = [0x0D; 0xFF; 0xFF; 0xFF; 0xFF]
  /\ bytes_of (Builder.emitSFixed32 LittleEndian 1 (-65537))
     = [0x0D; 0xFF; 0xFF; 0xFE; 0xFF]
  /\ bytes_of (Builder.emitSFixed32 LittleEndian 1
        (Cpp.numeric_limits_min Cpp.Int32))
     = [0x0D; 0x00; 0x00; 0x00; 0x80]
  /\ bytes_of (Builder.emitSFixed32Repeated LittleEndian 1 [0; (-1); 65537])
     = [0x0D; 0x00; 0x00; 0x00; 0x00; 0x0D; 0xFF; 0xFF; 0xFF; 0xFF; 0x0D;
        0x01; 0x00; 0x01; 0x00]
  /\ bytes_of (Builder.emitSFixed32Packed LittleEndian 1 [0; (-1); 65537])
     = [0x0A; 0x0C; 0x00; 0x00; 0x00; 0x00; 0xFF; 0xFF; 0xFF; 0xFF; 0x01;
        0x00; 0x01; 0x00].
Proof. repeat split; reflexivity. Qed.

End UnitTests.

(** C10.  For all 8/16/32/64-bit signed and unsigned integer types S and D,
    [FitsIn<S, D>] is true exactly when every value of S is a value of D;
    this is the predicate the builder's [static_assert]s evaluate on the
    element type of a container. *)
Theorem FitsIn_iff_range_included (S D : Cpp.IntType) :
  (FitsIn S D = true <->
   (forall v : Z, Cpp.representable S v -> Cpp.representable D v))
  /\ Builder.emitInt32Repeated_static S = FitsIn S Cpp.Int32.
Proof.
  split; [|reflexivity].
  unfold Cpp.representable, Cpp.numeric_limits_min, Cpp.numeric_limits_max.
  split.
  - destruct S, D;
      match goal with
      | |- ?f = true -> _ =>
          let b := eval vm_compute in f in change f with b
      end;
      cbn [Cpp.is_signed Cpp.width];
      intros H; try discriminate H; intros v Hv; lia.
  - intros H.
    pose proof (H (if Cpp.is_signed S then - 2 ^ (Cpp.width S - 1) else 0))
      as Hmin.
    pose proof (H (if Cpp.is_signed S then 2 ^ (Cpp.width S - 1) - 1
                   else 2 ^ Cpp.width S - 1)) as Hmax.
    clear H.
    destruct S, D;
      match goal with
      | |- ?f = true =>
          let b := eval vm_compute in f in change f with b
      end;
      cbn [Cpp.is_signed Cpp.width] in *;
      try reflexivity; exfalso; lia.
Qed.

(** ** Conversions and bit operations *)

Lemma static_cast_UInt64 (v : Z) :
  Cpp.static_cast Cpp.UInt64 v = v mod 2 ^ 64.
Proof. reflexivity. Qed.

Lemma static_cast_UInt32 (v : Z) :
  Cpp.static_cast Cpp.UInt32 v = v mod 2 ^ 32.
Proof. reflexivity. Qed.

Lemma static_cast_Int64 (v : Z) :
  Cpp.static_cast Cpp.Int64 v = (v + 2 ^ 63) mod 2 ^ 64 - 2 ^ 63.
Proof. reflexivity. Qed.

Lemma static_cast_Int32 (v : Z) :
  Cpp.static_cast Cpp.Int32 v = (v + 2 ^ 31) mod 2 ^ 32 - 2 ^ 31.
Proof. reflexivity. Qed.

(** A conversion keeps a value the destination type represents. *)
Lemma static_cast_representable (T : Cpp.IntType) (v : Z) :
  Cpp.representable T v -> Cpp.static_cast T v = v.
Proof.
  unfold Cpp.representable, Cpp.static_cast, Cpp.numeric_limits_min,
    Cpp.numeric_limits_max.
  destruct T; simpl; intros H; rewrite Z.mod_small; lia.
Qed.

Lemma representable_UInt64 (v : Z) :
  Cpp.representable Cpp.UInt64 v <-> 0 <= v < 2 ^ 64.
Proof.
  unfold Cpp.representable, Cpp.numeric_limits_min, Cpp.numeric_limits_max.
  cbn [Cpp.is_signed Cpp.width]. lia.
Qed.

Lemma representable_UInt32 (v : Z) :
  Cpp.representable Cpp.UInt32 v <-> 0 <= v < 2 ^ 32.
Proof.
  unfold Cpp.representable, Cpp.numeric_limits_min, Cpp.numeric_limits_max.
  cbn [Cpp.is_signed Cpp.width]. lia.
Qed.

Lemma representable_Int64 (v : Z) :
  Cpp.representable Cpp.Int64 v <-> - 2 ^ 63 <= v < 2 ^ 63.
Proof.
  unfold Cpp.representable, Cpp.numeric_limits_min, Cpp.numeric_limits_max.
  cbn [Cpp.is_signed Cpp.width]. lia.
Qed.

Lemma representable_Int32 (v : Z) :
  Cpp.representable Cpp.Int32 v <-> - 2 ^ 31 <= v < 2 ^ 31.
Proof.
  unfold Cpp.representable, Cpp.numeric_limits_min, Cpp.numeric_limits_max.
  cbn [Cpp.is_signed Cpp.width]. lia.
Qed.

Lemma static_cast_UInt64_range (v : Z) :
  0 <= Cpp.static_cast Cpp.UInt64 v < 2 ^ 64.
Proof. rewrite static_cast_UInt64. apply Z.mod_pos_bound. lia. Qed.

Lemma static_cast_UInt32_range (v : Z) :
  0 <= Cpp.static_cast Cpp.UInt32 v < 2 ^ 32.
Proof. rewrite static_cast_UInt32. apply Z.mod_pos_bound. lia. Qed.

Lemma land_127 (v : Z) : Z.land v 127 = v mod 128.
Proof. change 127 with (Z.ones 7). rewrite Z.land_ones by lia. reflexivity. Qed.

Lemma shiftr_7 (v : Z) : Z.shiftr v 7 = v / 128.
Proof. rewrite Z.shiftr_div_pow2 by lia. reflexivity. Qed.

Lemma land_127_land_128 (v : Z) : Z.land (Z.land v 127) 128 = 0.
Proof. rewrite <- Z.land_assoc. simpl. apply Z.land_0_r. Qed.

Lemma land_127_lor_128 (v : Z) :
  Z.land (Z.lor (Z.land v 127) 128) 127 = Z.land v 127.
Proof.
  rewrite Z.land_lor_distr_l, <- Z.land_assoc. simpl.
  apply Z.lor_0_r.
Qed.

Lemma land_128_lor_128 (v : Z) :
  Z.land (Z.lor (Z.land v 127) 128) 128 = 128.
Proof.
  rewrite Z.land_lor_distr_l, land_127_land_128. reflexivity.
Qed.

Lemma shiftr_7_eq_0 (v : Z) : 0 <= v -> (Z.shiftr v 7 = 0 <-> v < 128).
Proof.
  intros Hv. rewrite shiftr_7. split; intros H.
  - apply Z.div_small_iff in H; lia.
  - apply Z.div_small; lia.
Qed.

Lemma shiftr_7_bound (v : Z) (k : nat) :
  0 <= v < 2 ^ (7 * Z.of_nat (S k)) ->
  0 <= Z.shiftr v 7 < 2 ^ (7 * Z.of_nat k).
Proof.
  intros [H0 H1]. rewrite shiftr_7. split.
  - apply Z.div_pos; lia.
  - apply Z.div_lt_upper_bound; [lia|].
    replace (7 * Z.of_nat (S k)) with (7 + 7 * Z.of_nat k) in H1 by lia.
    rewrite Z.pow_add_r in H1 by lia. exact H1.
Qed.

(** ** The algebra of emitting computations *)

Lemma bind_Some {A B : Type} (m : Emit A) (k : A -> Emit B) Output a Output' :
  m Output = Some (a, Output') -> bind m k Output = k a Output'.
Proof. unfold bind. intros ->. reflexivity. Qed.

Lemma bind_None {A B : Type} (m : Emit A) (k : A -> Emit B) Output :
  m Output = None -> bind m k Output = None.
Proof. unfold bind. intros ->. reflexivity. Qed.

Lemma assert_true Output : assert true Output = Some (tt, Output).
Proof. reflexivity. Qed.

Lemma appends_ret : appends (ret tt) [].
Proof. intros Output. unfold ret. rewrite app_nil_r. reflexivity. Qed.

Lemma appends_put (Byte : Z) : appends (put Byte) [Byte].
Proof. intros Output. reflexivity. Qed.

Lemma appends_bind (m : Emit unit) (k : unit -> Emit unit) (b1 b2 : list Z) :
  appends m b1 -> appends (k tt) b2 -> appends (bind m k) (b1 ++ b2).
Proof.
  intros H1 H2 Output. rewrite (bind_Some _ _ _ _ _ (H1 Output)).
  rewrite H2, app_assoc. reflexivity.
Qed.

Lemma appends_assert (c : bool) : c = true -> appends (assert c) [].
Proof. intros -> Output. rewrite app_nil_r. reflexivity. Qed.

Lemma appends_for_each {A : Type} (Range : list A) (Body : A -> Emit unit)
  (Bytes : A -> list Z) :
  (forall Item, In Item Range -> appends (Body Item) (Bytes Item)) ->
  appends (for_each Range Body) (concat (map Bytes Range)).
Proof.
  induction Range as [|Item Rest IH]; intros H; simpl.
  - apply appends_ret.
  - apply appends_bind.
    + apply H. left. reflexivity.
    + apply IH. intros I HI. apply H. right. exact HI.
Qed.

Lemma appends_bytes_of (m : Emit unit) (Bytes : list Z) :
  appends m Bytes -> bytes_of m = Bytes.
Proof. intros H. unfold bytes_of. rewrite H. reflexivity. Qed.

Lemma appends_emitRawBytes (Bytes : list Z) :
  appends (Emitter.emitRawBytes Bytes) Bytes.
Proof.
  unfold Emitter.emitRawBytes.
  replace Bytes with (concat (map (fun b => [b]) Bytes)) at 2.
  - apply appends_for_each. intros. apply appends_put.
  - induction Bytes as [|b bs IH]; simpl; [reflexivity | now rewrite IH].
Qed.

(** ** The varint loop *)

(** With [k] rounds left before the guard closes and a value of at most [7k]
    bits, the loop writes the base-128 digits of the value, no assertion
    fails, and any fuel of at least [k] is enough. *)
Lemma emitVarIntRaw_loop_spec (k : nat) :
  forall (Fuel : nat) (BytesEmitted Value : Z) (Output : list Z),
    (1 <= k <= Fuel)%nat ->
    0 <= BytesEmitted ->
    BytesEmitted + Z.of_nat k <= 10 ->
    0 <= Value < 2 ^ (7 * Z.of_nat k) ->
    Emitter.emitVarIntRaw_loop Fuel BytesEmitted Value Output
    = Some (BytesEmitted + Z.of_nat (length (base128 k Value)),
            Output ++ base128 k Value).
Proof.
  induction k as [|k IH]; intros Fuel b v Output Hk Hb Hbk Hv; [lia|].
  destruct Fuel as [|Fuel]; [lia|].
  cbn [Emitter.emitVarIntRaw_loop base128].
  replace (b <=? 9) with true by (symmetry; apply Z.leb_le; lia).
  destruct (Z.eqb_spec (Z.shiftr v 7) 0) as [Hz|Hnz]; cbn [negb].
  - rewrite land_127_land_128. rewrite Z.eqb_refl, orb_true_r.
    unfold bind, assert, put, ret. cbn [length]. do 2 f_equal.
  - assert (Hk2 : (2 <= S k)%nat).
    { destruct k; [|lia]. exfalso. apply Hnz.
      apply shiftr_7_eq_0; [lia|]. change (2 ^ (7 * Z.of_nat 1)) with 128 in Hv.
      lia. }
    replace (b <? 9) with true by (symmetry; apply Z.ltb_lt; lia).
    cbn [orb]. unfold bind at 1 2. unfold assert at 1. unfold put at 1.
    rewrite (IH Fuel (b + 1) (Z.shiftr v 7) (Output ++ [Z.lor (Z.land v 127) 128]));
      [ | lia | lia | lia | apply shiftr_7_bound; exact Hv ].
    cbn [length]. rewrite <- app_assoc. do 2 f_equal. lia.
Qed.

(** The fuel of [emitVarIntRaw] is never what ends its loop: more fuel gives
    the same run. *)
Lemma emitVarIntRaw_loop_fuel (Extra : nat) (Value : Z) (Output : list Z) :
  0 <= Value < 2 ^ 70 ->
  Emitter.emitVarIntRaw_loop (10 + Extra) 0 Value Output
  = Emitter.emitVarIntRaw_loop 10 0 Value Output.
Proof.
  intros Hv.
  rewrite (emitVarIntRaw_loop_spec 10 (10 + Extra)) by (simpl; lia).
  rewrite (emitVarIntRaw_loop_spec 10 10) by (simpl; lia).
  reflexivity.
Qed.

Lemma base128_length_pos (k : nat) (v : Z) :
  (1 <= k)%nat -> (1 <= length (base128 k v))%nat.
Proof.
  destruct k; [lia|]. intros _. cbn [base128].
  destruct (Z.shiftr v 7 =? 0); simpl; lia.
Qed.

Lemma base128_length_le (k : nat) (v : Z) : (length (base128 k v) <= k)%nat.
Proof.
  revert v. induction k as [|k IH]; intros v; cbn [base128]; [simpl; lia|].
  destruct (Z.shiftr v 7 =? 0); cbn [length]; [lia|].
  specialize (IH (Z.shiftr v 7)). lia.
Qed.

(** [emitVarIntRaw] on a 64-bit value writes its base-128 digits. *)
Lemma appends_emitVarIntRaw (Value : Z) :
  0 <= Value < 2 ^ 64 ->
  appends (Emitter.emitVarIntRaw Value) (base128 10 Value).
Proof.
  intros Hv Output. unfold Emitter.emitVarIntRaw.
  rewrite (bind_Some _ _ _ _ _
             (emitVarIntRaw_loop_spec 10 10 0 Value Output
                ltac:(lia) ltac:(lia) ltac:(simpl; lia) ltac:(simpl; lia))).
  pose proof (base128_length_pos 10 Value ltac:(lia)) as Hpos.
  replace (0 + Z.of_nat (length (base128 10 Value)) >? 0) with true
    by (symmetry; apply Z.gtb_lt; lia).
  reflexivity.
Qed.

Lemma bytes_of_emitVarIntRaw (Value : Z) :
  0 <= Value < 2 ^ 64 ->
  bytes_of (Emitter.emitVarIntRaw Value) = base128 10 Value.
Proof. intros H. apply appends_bytes_of, appends_emitVarIntRaw, H. Qed.

(** Decoding the digits gives the value back and leaves what follows. *)
Lemma spec_decode_base128 (k : nat) :
  forall (v : Z) (Rest : list Z),
    (1 <= k)%nat -> 0 <= v < 2 ^ (7 * Z.of_nat k) ->
    spec_decode_varint (base128 k v ++ Rest) = Some (v, Rest).
Proof.
  induction k as [|k IH]; intros v Rest Hk Hv; [lia|].
  cbn [base128].
  destruct (Z.eqb_spec (Z.shiftr v 7) 0) as [Hz|Hnz].
  - cbn [app spec_decode_varint].
    rewrite land_127_land_128, Z.eqb_refl, !land_127.
    apply shiftr_7_eq_0 in Hz; [|lia].
    rewrite Z.mod_mod by lia. rewrite Z.mod_small by lia. reflexivity.
  - cbn [app spec_decode_varint].
    rewrite land_128_lor_128. cbn [Z.eqb].
    assert (Hk2 : (1 <= k)%nat).
    { destruct k; [|lia]. exfalso. apply Hnz.
      apply shiftr_7_eq_0; [lia|]. change (2 ^ (7 * Z.of_nat 1)) with 128 in Hv.
      lia. }
    rewrite IH by (try lia; apply shiftr_7_bound; exact Hv).
    rewrite land_127_lor_128, land_127, shiftr_7.
    do 2 f_equal. pose proof (Z.div_mod v 128). lia.
Qed.

(** Every digit is a byte. *)
Lemma base128_bytes (k : nat) (v : Z) :
  Forall (fun Byte => 0 <= Byte < 256) (base128 k v).
Proof.
  revert v. induction k as [|k IH]; intros v; cbn [base128]; [constructor|].
  pose proof (Z.mod_pos_bound v 128 ltac:(lia)) as Hm.
  destruct (Z.shiftr v 7 =? 0).
  - constructor; [|constructor]. rewrite land_127. lia.
  - constructor; [|apply IH].
    pose proof (Z.add_lor_land (Z.land v 127) 128) as H.
    rewrite land_127_land_128 in H. rewrite land_127 in *. lia.
Qed.

(** ** [calculateVarIntLength] counts base-128 digits *)

Lemma calculateVarIntLength_bounds (n : Z) :
  0 <= n ->
  1 <= calculateVarIntLength n <= 10
  /\ (calculateVarIntLength n < 10 -> n < 2 ^ (7 * calculateVarIntLength n))
  /\ (1 < calculateVarIntLength n -> 2 ^ (7 * (calculateVarIntLength n - 1)) <= n).
Proof.
  intros Hn. unfold calculateVarIntLength.
  rewrite !Z.shiftr_div_pow2 by lia.
  repeat match goal with
         | |- context [?a / ?b =? 0] =>
             let H := fresh "H" in
             destruct (Z.eqb_spec (a / b) 0) as [H|H];
             [ apply Z.div_small_iff in H; [|lia]
             | assert (b <= a)
                 by (destruct (Z_lt_le_dec a b) as [Hlt|Hle];
                     [ exfalso; apply H; apply Z.div_small; lia | exact Hle ]);
               clear H ]
         end;
    cbn; lia.
Qed.

(** A value below [2^(7m)] has at most [m] digits. *)
Lemma calculateVarIntLength_le (n m : Z) :
  0 <= n -> 1 <= m -> n < 2 ^ (7 * m) -> calculateVarIntLength n <= m.
Proof.
  intros Hn Hm Hlt.
  destruct (calculateVarIntLength_bounds n Hn) as (Hr & _ & Hlow).
  destruct (Z_le_gt_dec (calculateVarIntLength n) m) as [|Hgt]; [assumption|].
  exfalso.
  assert (H1 : 2 ^ (7 * m) <= 2 ^ (7 * (calculateVarIntLength n - 1)))
    by (apply Z.pow_le_mono_r; lia).
  specialize (Hlow ltac:(lia)). lia.
Qed.

(** A value of at least [2^(7m)] has more than [m] digits. *)
Lemma calculateVarIntLength_gt (n m : Z) :
  0 <= m < 10 -> 2 ^ (7 * m) <= n -> m < calculateVarIntLength n.
Proof.
  intros Hm Hge.
  assert (Hn : 0 <= n) by (pose proof (Z.pow_pos_nonneg 2 (7 * m)); lia).
  destruct (calculateVarIntLength_bounds n Hn) as (Hr & Hup & _).
  destruct (Z_lt_le_dec m (calculateVarIntLength n)) as [|Hle]; [assumption|].
  exfalso.
  assert (H1 : 2 ^ (7 * calculateVarIntLength n) <= 2 ^ (7 * m))
    by (apply Z.pow_le_mono_r; lia).
  specialize (Hup ltac:(lia)). lia.
Qed.

(** The loop writes [calculateVarIntLength] bytes. *)
Lemma base128_length (k : nat) :
  forall v : Z,
    (1 <= k <= 10)%nat -> 0 <= v < 2 ^ (7 * Z.of_nat k) ->
    Z.of_nat (length (base128 k v)) = calculateVarIntLength v.
Proof.
  induction k as [|k IH]; intros v Hk Hv; [lia|].
  cbn [base128].
  destruct (Z.eqb_spec (Z.shiftr v 7) 0) as [Hz|Hnz].
  - apply shiftr_7_eq_0 in Hz; [|lia]. cbn [length].
    pose proof (calculateVarIntLength_le v 1 ltac:(lia) ltac:(lia) ltac:(simpl; lia)).
    pose proof (calculateVarIntLength_bounds v ltac:(lia)). lia.
  - assert (Hge : 128 <= v).
    { destruct (Z_lt_le_dec v 128) as [Hlt|]; [|assumption].
      exfalso. apply Hnz. apply shiftr_7_eq_0; lia. }
    assert (Hk2 : (1 <= k)%nat).
    { destruct k; [|lia]. change (2 ^ (7 * Z.of_nat 1)) with 128 in Hv. lia. }
    pose proof (shiftr_7_bound v k Hv) as Hv'.
    cbn [length]. rewrite Nat2Z.inj_succ, (IH _ ltac:(lia) Hv').
    set (w := Z.shiftr v 7) in *.
    destruct (calculateVarIntLength_bounds w ltac:(lia)) as (Hr & Hup & Hlow).
    assert (Hvw : 128 * w <= v < 128 * w + 128).
    { unfold w. rewrite shiftr_7.
      pose proof (Z.div_mod v 128 ltac:(lia)).
      pose proof (Z.mod_pos_bound v 128 ltac:(lia)). lia. }
    assert (Hw1 : 1 <= w) by lia.
    set (c := calculateVarIntLength w) in *.
    assert (Hc9 : c <= 9).
    { apply (calculateVarIntLength_le w 9); [lia|lia|].
      eapply Z.lt_le_trans; [apply Hv'|]. apply Z.pow_le_mono_r; lia. }
    (* lower bound: 2^(7c) <= v *)
    assert (Hlo : 2 ^ (7 * c) <= v).
    { replace (7 * c) with (7 + 7 * (c - 1)) by lia.
      rewrite Z.pow_add_r by lia. change (2 ^ 7) with 128.
      destruct (Z.eq_dec c 1) as [->|Hc1]; [simpl; lia|].
      specialize (Hlow ltac:(lia)). lia. }
    (* upper bound: v < 2^(7(c+1)) *)
    assert (Hhi : v < 2 ^ (7 * (c + 1))).
    { replace (7 * (c + 1)) with (7 + 7 * c) by lia.
      rewrite Z.pow_add_r by lia. change (2 ^ 7) with 128.
      specialize (Hup ltac:(lia)). lia. }
    pose proof (calculateVarIntLength_gt v c ltac:(lia) Hlo).
    pose proof (calculateVarIntLength_le v (c + 1) ltac:(lia) ltac:(lia) Hhi).
    lia.
Qed.

(** What decodes as a complete varint of [n] bytes is below [2^(7n)]. *)
Lemma spec_decode_varint_bound (Bytes : list Z) :
  forall (v : Z) (Rest : list Z),
    spec_decode_varint Bytes = Some (v, Rest) ->
    0 <= v < 2 ^ (7 * (Z.of_nat (length Bytes) - Z.of_nat (length Rest)))
    /\ (length Rest < length Bytes)%nat.
Proof.
  induction Bytes as [|Byte Bytes IH]; intros v Rest H; [discriminate|].
  cbn [spec_decode_varint] in H.
  pose proof (Z.mod_pos_bound Byte 128 ltac:(lia)) as Hm.
  destruct (Z.land Byte 128 =? 0).
  - injection H as <- <-. rewrite land_127. cbn [length].
    split; [|lia].
    replace (Z.of_nat (S (length Bytes)) - Z.of_nat (length Bytes)) with 1 by lia.
    simpl. lia.
  - destruct (spec_decode_varint Bytes) as [[High Rest']|] eqn:E; [|discriminate].
    assert (Hv : v = Z.land Byte 127 + 128 * High) by congruence.
    assert (HR : Rest = Rest') by congruence.
    clear H. subst v Rest. rewrite land_127.
    destruct (IH _ _ eq_refl) as [Hb Hl]. cbn [length]. split; [|lia].
    set (d := Z.of_nat (length Bytes) - Z.of_nat (length Rest')) in *.
    replace (Z.of_nat (S (length Bytes)) - Z.of_nat (length Rest'))
      with (1 + d) by lia.
    replace (7 * (1 + d)) with (7 + 7 * d) by lia.
    rewrite Z.pow_add_r by lia. change (2 ^ 7) with 128. lia.
Qed.

(** ** C1: the raw varint *)

(** C1.  For every unsigned 64-bit value [n], [emitVarIntRaw(n)] succeeds and
    appends bytes that (a) decode, as a little-endian base-128 varint, to
    [n], whatever follows them; (b) are [calculateVarIntLength(n)] many;
    (c) are no more than any byte sequence that decodes to [n], and at most
    ten; (d) are the single byte 0x00 when [n] is 0. *)
Theorem emitVarIntRaw_roundtrip_shortest (n : Z) :
  Cpp.representable Cpp.UInt64 n ->
  (forall Output,
      Emitter.emitVarIntRaw n Output
      = Some (tt, Output ++ bytes_of (Emitter.emitVarIntRaw n)))
  /\ Forall (fun Byte => 0 <= Byte < 256) (bytes_of (Emitter.emitVarIntRaw n))
  /\ (forall Rest,
         spec_decode_varint (bytes_of (Emitter.emitVarIntRaw n) ++ Rest)
         = Some (n, Rest))
  /\ Z.of_nat (length (bytes_of (Emitter.emitVarIntRaw n)))
     = calculateVarIntLength n
  /\ (forall Bytes',
         spec_decode_varint Bytes' = Some (n, []) ->
         (length (bytes_of (Emitter.emitVarIntRaw n)) <= length Bytes')%nat)
  /\ (length (bytes_of (Emitter.emitVarIntRaw n)) <= 10)%nat
  /\ (n = 0 -> bytes_of (Emitter.emitVarIntRaw n) = [0]).
Proof.
  intros Hn.
  assert (Hr : 0 <= n < 2 ^ 64) by (apply representable_UInt64, Hn).
  assert (H70 : 0 <= n < 2 ^ (7 * Z.of_nat 10)) by (simpl; lia).
  rewrite (bytes_of_emitVarIntRaw n Hr).
  assert (Hlen : Z.of_nat (length (base128 10 n)) = calculateVarIntLength n)
    by (apply base128_length; [lia | exact H70]).
  repeat split.
  - intros Output. apply appends_emitVarIntRaw, Hr.
  - apply base128_bytes.
  - intros Rest. apply spec_decode_base128; [lia | exact H70].
  - exact Hlen.
  - intros Bytes' Hd.
    destruct (spec_decode_varint_bound _ _ _ Hd) as [Hb Hl].
    cbn [length] in Hb, Hl. rewrite Z.sub_0_r in Hb.
    pose proof (calculateVarIntLength_le n (Z.of_nat (length Bytes'))
                  ltac:(lia) ltac:(lia) ltac:(lia)).
    lia.
  - apply base128_length_le.
  - intros ->. reflexivity.
Qed.

Lemma emitVarIntRaw_roundtrip_shortest_witness :
  Cpp.representable Cpp.UInt64 300
  /\ Emitter.emitVarIntRaw 300 [8] = Some (tt, [8; 172; 2])
  /\ spec_decode_varint [172; 2; 7] = Some (300, [7])
  /\ calculateVarIntLength 300 = 2.
Proof.
  assert (H : Cpp.representable Cpp.UInt64 300)
    by (apply representable_UInt64; lia).
  destruct (emitVarIntRaw_roundtrip_shortest 300 H)
    as (Hrun & _ & Hdec & Hlen & _).
  split; [exact H|].
  split; [exact (Hrun [8])|].
  split; [exact (Hdec [7])|].
  symmetry. exact Hlen.
Defined.

(** ** C4: ZigZag *)

Lemma mod_unique_eq (x M q y : Z) :
  0 <= y < M -> x = M * q + y -> x mod M = y.
Proof. intros Hy Hx. symmetry. apply (Z.mod_unique x M q y); [left; exact Hy | exact Hx]. Qed.

Lemma lnot_eq (a : Z) : Z.lnot a = - a - 1.
Proof. unfold Z.lnot. lia. Qed.

Lemma land_1 (z : Z) : Z.land z 1 = z mod 2.
Proof. change 1 with (Z.ones 1) at 1. rewrite Z.land_ones by lia. reflexivity. Qed.

(** The two branches of [convertToZigZag], without the wrap-around. *)
Lemma convertToZigZag_closed (n : Z) :
  Cpp.representable Cpp.Int64 n ->
  convertToZigZag n = if n >=? 0 then 2 * n else - 2 * n - 1.
Proof.
  intros Hn. apply representable_Int64 in Hn.
  unfold convertToZigZag. rewrite !static_cast_UInt64.
  rewrite !Z.shiftl_mul_pow2 by lia. change (2 ^ 1) with 2.
  destruct (Z.geb_spec n 0) as [Hge|Hlt].
  - rewrite (Z.mod_small n) by lia. rewrite Z.mod_small by lia. lia.
  - rewrite (mod_unique_eq n (2 ^ 64) (-1) (n + 2 ^ 64)) by lia.
    rewrite (mod_unique_eq ((n + 2 ^ 64) * 2) (2 ^ 64) 1 (2 * n + 2 ^ 64)) by lia.
    rewrite lnot_eq.
    apply (mod_unique_eq _ (2 ^ 64) (-1)); lia.
Qed.

Lemma spec_zigzag_closed (n : Z) :
  Cpp.representable Cpp.Int64 n ->
  spec_zigzag n = if n >=? 0 then 2 * n else - 2 * n - 1.
Proof.
  intros Hn. apply representable_Int64 in Hn.
  unfold spec_zigzag. rewrite static_cast_UInt64.
  rewrite Z.shiftl_mul_pow2, Z.shiftr_div_pow2 by lia. change (2 ^ 1) with 2.
  destruct (Z.geb_spec n 0) as [Hge|Hlt].
  - rewrite (Z.div_small n) by lia. rewrite Z.lxor_0_r.
    rewrite Z.mod_small by lia. lia.
  - replace (n / 2 ^ 63) with (-1)
      by (apply (Z.div_unique n (2 ^ 63) (-1) (n + 2 ^ 63)); lia).
    rewrite Z.lxor_m1_r, lnot_eq. rewrite Z.mod_small by lia. lia.
Qed.

Lemma spec_unzigzag_closed (z : Z) :
  spec_unzigzag z = if z mod 2 =? 0 then z / 2 else - (z / 2) - 1.
Proof.
  unfold spec_unzigzag. rewrite land_1, Z.shiftr_div_pow2 by lia.
  change (2 ^ 1) with 2.
  pose proof (Z.mod_pos_bound z 2 ltac:(lia)) as Hm.
  destruct (Z.eqb_spec (z mod 2) 0) as [H0|H1].
  - rewrite H0. apply Z.lxor_0_r.
  - replace (z mod 2) with 1 by lia. change (- (1)) with (-1).
    rewrite Z.lxor_m1_r, lnot_eq. reflexivity.
Qed.

(** C4.  [convertToZigZag] is the function [(n << 1) ^ (n >> 63)] on signed
    64-bit integers; it takes 0, -1, 1, -2, INT64_MIN and INT64_MAX to 0, 1,
    2, 3, UINT64_MAX and UINT64_MAX - 1; and it is a bijection from the
    signed onto the unsigned 64-bit integers, with [spec_unzigzag] as its
    inverse on both sides. *)
Theorem convertToZigZag_bijection :
  (convertToZigZag 0 = 0
   /\ convertToZigZag (-1) = 1
   /\ convertToZigZag 1 = 2
   /\ convertToZigZag (-2) = 3
   /\ convertToZigZag (Cpp.numeric_limits_min Cpp.Int64)
      = Cpp.numeric_limits_max Cpp.UInt64
   /\ convertToZigZag (Cpp.numeric_limits_max Cpp.Int64)
      = Cpp.numeric_limits_max Cpp.UInt64 - 1)
  /\ (forall n, Cpp.representable Cpp.Int64 n ->
        convertToZigZag n = spec_zigzag n
        /\ Cpp.representable Cpp.UInt64 (convertToZigZag n)
        /\ spec_unzigzag (convertToZigZag n) = n)
  /\ (forall z, Cpp.representable Cpp.UInt64 z ->
        Cpp.representable Cpp.Int64 (spec_unzigzag z)
        /\ convertToZigZag (spec_unzigzag z) = z).
Proof.
  split; [repeat split; reflexivity|].
  split.
  - intros n Hn.
    rewrite (spec_zigzag_closed n Hn), (convertToZigZag_closed n Hn).
    rewrite representable_UInt64. apply representable_Int64 in Hn.
    rewrite spec_unzigzag_closed.
    destruct (Z.geb_spec n 0) as [Hge|Hlt].
    + split; [reflexivity|]. split; [lia|].
      replace (2 * n) with (n * 2) by lia.
      rewrite Z.mod_mul, Z.div_mul by lia. reflexivity.
    + split; [reflexivity|]. split; [lia|].
      replace (- 2 * n - 1) with (1 + (- n - 1) * 2) by lia.
      rewrite Z.mod_add, Z.div_add by lia.
      change (1 mod 2) with 1. change (1 / 2) with 0. cbn [Z.eqb]. lia.
  - intros z Hz.
    assert (Hr : Cpp.representable Cpp.Int64 (spec_unzigzag z)).
    { apply representable_Int64. apply representable_UInt64 in Hz.
      rewrite spec_unzigzag_closed.
      pose proof (Z.div_mod z 2 ltac:(lia)).
      pose proof (Z.mod_pos_bound z 2 ltac:(lia)).
      destruct (z mod 2 =? 0); lia. }
    split; [exact Hr|].
    rewrite (convertToZigZag_closed _ Hr), spec_unzigzag_closed.
    apply representable_UInt64 in Hz.
    pose proof (Z.div_mod z 2 ltac:(lia)).
    pose proof (Z.mod_pos_bound z 2 ltac:(lia)).
    destruct (Z.eqb_spec (z mod 2) 0) as [He|Ho].
    + destruct (Z.geb_spec (z / 2) 0); lia.
    + destruct (Z.geb_spec (- (z / 2) - 1) 0); lia.
Qed.

Lemma convertToZigZag_bijection_witness :
  Cpp.representable Cpp.Int64 (-65537)
  /\ convertToZigZag (-65537) = 131073
  /\ spec_unzigzag 131073 = -65537.
Proof.
  assert (H : Cpp.representable Cpp.Int64 (-65537))
    by (apply representable_Int64; lia).
  destruct convertToZigZag_bijection as (_ & Hinv & _).
  destruct (Hinv (-65537) H) as (_ & _ & Hun).
  split; [exact H|]. split; [reflexivity|]. exact Hun.
Defined.

(** ** The tag *)

Lemma varint_bytes_base128 (Value : Z) :
  0 <= Value < 2 ^ 64 -> varint_bytes Value = base128 10 Value.
Proof. apply bytes_of_emitVarIntRaw. Qed.

Lemma appends_emitVarIntRaw_varint_bytes (Value : Z) :
  0 <= Value < 2 ^ 64 ->
  appends (Emitter.emitVarIntRaw Value) (varint_bytes Value).
Proof.
  intros H. rewrite varint_bytes_base128 by exact H.
  apply appends_emitVarIntRaw, H.
Qed.

Lemma spec_decode_varint_bytes (Value : Z) (Rest : list Z) :
  0 <= Value < 2 ^ 64 ->
  spec_decode_varint (varint_bytes Value ++ Rest) = Some (Value, Rest).
Proof.
  intros H. rewrite varint_bytes_base128 by exact H.
  apply spec_decode_base128; [lia | simpl; lia].
Qed.

Lemma varint_bytes_length (Value : Z) :
  0 <= Value < 2 ^ 64 ->
  Z.of_nat (length (varint_bytes Value)) = calculateVarIntLength Value.
Proof.
  intros H. rewrite varint_bytes_base128 by exact H.
  apply base128_length; [lia | simpl; lia].
Qed.

(** A wire-type code occupies the three bits the shifted field number
    leaves free: adding it and or-ing it are the same. *)
Lemma spec_tag_add (Field : Z) (WType : WireType) :
  spec_tag Field WType = 8 * Field + to_underlying WType.
Proof.
  unfold spec_tag.
  pose proof (Z.add_lor_land (Z.shiftl Field 3) (to_underlying WType)) as H.
  assert (Hc : to_underlying WType = Z.land 7 (to_underlying WType))
    by (destruct WType; reflexivity).
  assert (H0 : Z.land (Z.shiftl Field 3) (to_underlying WType) = 0).
  { rewrite Hc, Z.land_assoc. change 7 with (Z.ones 3).
    rewrite Z.land_ones, Z.shiftl_mul_pow2, Z.mod_mul by lia.
    apply Z.land_0_l. }
  rewrite H0, Z.add_0_r in H. rewrite H, Z.shiftl_mul_pow2 by lia.
  change (2 ^ 3) with 8. lia.
Qed.

(** The 32-bit computation of [emitTag] does not wrap on a field number of
    the valid range. *)
Lemma emitTag_Tag (Field : Z) (WType : WireType) :
  valid_field Field ->
  Cpp.static_cast Cpp.UInt32
    (Cpp.static_cast Cpp.UInt32 (Z.shiftl (Cpp.static_cast Cpp.UInt32 Field) 3)
     + to_underlying WType)
  = spec_tag Field WType.
Proof.
  unfold valid_field, MinField, MaxField. intros Hf.
  rewrite spec_tag_add, !static_cast_UInt32.
  rewrite (Z.mod_small Field) by lia.
  rewrite Z.shiftl_mul_pow2 by lia. change (2 ^ 3) with 8.
  assert (0 <= to_underlying WType < 8) by (destruct WType; simpl; lia).
  rewrite (Z.mod_small (Field * 8)) by lia.
  rewrite Z.mod_small by lia. lia.
Qed.

Lemma spec_tag_range (Field : Z) (WType : WireType) :
  valid_field Field -> 0 <= spec_tag Field WType < 2 ^ 32.
Proof.
  unfold valid_field, MinField, MaxField. intros Hf. rewrite spec_tag_add.
  assert (0 <= to_underlying WType < 8) by (destruct WType; simpl; lia).
  lia.
Qed.

Lemma emitTag_assertion (Field : Z) :
  valid_field Field ->
  Cpp.le Cpp.Int32 MinField Cpp.Int64 Field
  && Cpp.le Cpp.Int64 Field Cpp.Int32 MaxField = true.
Proof.
  unfold valid_field, MinField, MaxField. intros Hf.
  unfold Cpp.le. cbn [Cpp.common_type Cpp.promote Cpp.is_signed Cpp.width
                      Bool.eqb Z.ltb Z.compare Pos.compare Pos.compare_cont].
  rewrite !(static_cast_representable Cpp.Int64)
    by (apply representable_Int64; lia).
  apply andb_true_intro. split; apply Z.leb_le; lia.
Qed.

(** [emitTag] writes the varint of [(Field << 3) | WType]. *)
Lemma appends_emitTag (WType : WireType) (Field : Z) :
  valid_field Field ->
  appends (Emitter.emitTag WType Field) (varint_bytes (spec_tag Field WType)).
Proof.
  intros Hf. unfold Emitter.emitTag.
  rewrite (emitTag_Tag Field WType Hf).
  change (varint_bytes (spec_tag Field WType))
    with ([] ++ varint_bytes (spec_tag Field WType)).
  apply appends_bind.
  - apply appends_assert, emitTag_assertion, Hf.
  - apply appends_emitVarIntRaw_varint_bytes.
    pose proof (spec_tag_range Field WType Hf). lia.
Qed.

Lemma tag_bytes_eq (WType : WireType) (Field : Z) :
  valid_field Field -> tag_bytes WType Field = varint_bytes (spec_tag Field WType).
Proof. intros Hf. apply appends_bytes_of, appends_emitTag, Hf. Qed.

Lemma appends_emitTag_tag_bytes (WType : WireType) (Field : Z) :
  valid_field Field ->
  appends (Emitter.emitTag WType Field) (tag_bytes WType Field).
Proof. intros Hf. rewrite tag_bytes_eq by exact Hf. apply appends_emitTag, Hf. Qed.

Lemma spec_decode_tag_bytes (WType : WireType) (Field : Z) (Rest : list Z) :
  valid_field Field ->
  spec_decode_varint (tag_bytes WType Field ++ Rest)
  = Some (spec_tag Field WType, Rest).
Proof.
  intros Hf. rewrite tag_bytes_eq by exact Hf.
  apply spec_decode_varint_bytes.
  pose proof (spec_tag_range Field WType Hf). lia.
Qed.

(** ** What each emitter writes *)

Lemma convertToZigZag_range (Value : Z) : 0 <= convertToZigZag Value < 2 ^ 64.
Proof.
  unfold convertToZigZag.
  destruct (Value >=? 0); apply static_cast_UInt64_range.
Qed.

Lemma appends_emitVarInt (Field Value : Z) :
  valid_field Field -> 0 <= Value < 2 ^ 64 ->
  appends (Emitter.emitVarInt Field Value)
          (tag_bytes VarInt Field ++ varint_bytes Value).
Proof.
  intros Hf Hv. unfold Emitter.emitVarInt, toIntegral.
  apply appends_bind.
  - apply appends_emitTag_tag_bytes, Hf.
  - apply appends_emitVarIntRaw_varint_bytes, Hv.
Qed.

Lemma appends_emitSignedVarInt (Field Value : Z) :
  valid_field Field ->
  appends (Emitter.emitSignedVarInt Field Value)
          (tag_bytes VarInt Field ++ varint_bytes (convertToZigZag Value)).
Proof.
  intros Hf. unfold Emitter.emitSignedVarInt, toIntegral.
  apply appends_bind.
  - apply appends_emitTag_tag_bytes, Hf.
  - apply appends_emitVarIntRaw_varint_bytes, convertToZigZag_range.
Qed.

Lemma appends_emitLen (Field : Z) (Value : list Z) :
  valid_field Field ->
  appends (Emitter.emitLen Field Value)
          (tag_bytes LengthDelimited Field
           ++ varint_bytes (Cpp.static_cast Cpp.UInt64 (Z.of_nat (length Value)))
           ++ Value).
Proof.
  intros Hf. unfold Emitter.emitLen, toIntegral.
  apply appends_bind; [apply appends_emitTag_tag_bytes, Hf|].
  apply appends_bind.
  - apply appends_emitVarIntRaw_varint_bytes, static_cast_UInt64_range.
  - apply appends_emitRawBytes.
Qed.

Lemma appends_emitI32 (Host : Endianness) (Field Value : Z) :
  valid_field Field ->
  appends (Emitter.emitI32 Host Field Value)
          (tag_bytes I32 Field ++ object_representation Host 4 Value).
Proof.
  intros Hf. unfold Emitter.emitI32, toIntegral.
  apply appends_bind; [apply appends_emitTag_tag_bytes, Hf|].
  apply appends_emitRawBytes.
Qed.

Lemma appends_emitI64 (Host : Endianness) (Field Value : Z) :
  valid_field Field ->
  appends (Emitter.emitI64 Host Field Value)
          (tag_bytes I64 Field ++ object_representation Host 8 Value).
Proof.
  intros Hf. unfold Emitter.emitI64, toIntegral.
  apply appends_bind; [apply appends_emitTag_tag_bytes, Hf|].
  apply appends_emitRawBytes.
Qed.

(** A packed emitter writes the tag, the length it computed, and the
    payloads of its elements in order. *)
Lemma appends_packed {A : Type} (Field Length : Z) (Value : list A)
  (Body : A -> Emit unit) (Payload : A -> list Z) :
  valid_field Field ->
  (forall Item, appends (Body Item) (Payload Item)) ->
  appends (Emitter.emitTag LengthDelimited (toIntegral Field) ;;
           Emitter.emitVarIntRaw (Cpp.static_cast Cpp.UInt64 Length) ;;
           for_each Value Body)
          (tag_bytes LengthDelimited Field
           ++ varint_bytes (Cpp.static_cast Cpp.UInt64 Length)
           ++ concat (map Payload Value)).
Proof.
  intros Hf HB. unfold toIntegral.
  apply appends_bind; [apply appends_emitTag_tag_bytes, Hf|].
  apply appends_bind.
  - apply appends_emitVarIntRaw_varint_bytes, static_cast_UInt64_range.
  - apply appends_for_each. intros Item _. apply HB.
Qed.

Lemma appends_emitVarIntPacked (Field : Z) (Value : list Z) :
  valid_field Field ->
  appends (Emitter.emitVarIntPacked Field Value)
          (tag_bytes LengthDelimited Field
           ++ varint_bytes
                (Cpp.static_cast Cpp.UInt64 (calculateVarIntPackedLength Value))
           ++ concat (map varint_payload Value)).
Proof.
  intros Hf. apply (appends_packed Field _ Value _ varint_payload Hf).
  intros Item. apply appends_emitVarIntRaw_varint_bytes, static_cast_UInt64_range.
Qed.

Lemma appends_emitVarIntPacked_bool (Field : Z) (Value : list bool) :
  valid_field Field ->
  appends (Emitter.emitVarIntPacked_bool Field Value)
          (tag_bytes LengthDelimited Field
           ++ varint_bytes
                (Cpp.static_cast Cpp.UInt64
                   (calculateVarIntPackedLength (map Z.b2z Value)))
           ++ concat (map varint_payload (map Z.b2z Value))).
Proof.
  intros Hf. rewrite map_map.
  apply (appends_packed Field _ Value _
           (fun Item => varint_payload (Z.b2z Item)) Hf).
  intros Item. apply appends_emitVarIntRaw_varint_bytes, static_cast_UInt64_range.
Qed.

Lemma appends_emitSignedVarIntPacked (Field : Z) (Value : list Z) :
  valid_field Field ->
  appends (Emitter.emitSignedVarIntPacked Field Value)
          (tag_bytes LengthDelimited Field
           ++ varint_bytes
                (Cpp.static_cast Cpp.UInt64
                   (calculateSignedVarIntPackedLength Value))
           ++ concat (map signed_varint_payload Value)).
Proof.
  intros Hf. apply (appends_packed Field _ Value _ signed_varint_payload Hf).
  intros Item. apply appends_emitVarIntRaw_varint_bytes, convertToZigZag_range.
Qed.

Lemma appends_emitI32Packed (Host : Endianness) (Field : Z) (Value : list Z) :
  valid_field Field ->
  appends (Emitter.emitI32Packed Host Field Value)
          (tag_bytes LengthDelimited Field
           ++ varint_bytes
                (Cpp.static_cast Cpp.UInt64 (Z.of_nat (length Value) * 4))
           ++ concat (map (fixed32_payload Host) Value)).
Proof.
  intros Hf. apply (appends_packed Field _ Value _ (fixed32_payload Host) Hf).
  intros Item. apply appends_emitRawBytes.
Qed.

Lemma appends_emitI64Packed (Host : Endianness) (Field : Z) (Value : list Z) :
  valid_field Field ->
  appends (Emitter.emitI64Packed Host Field Value)
          (tag_bytes LengthDelimited Field
           ++ varint_bytes
                (Cpp.static_cast Cpp.UInt64 (Z.of_nat (length Value) * 8))
           ++ concat (map (fixed64_payload Host) Value)).
Proof.
  intros Hf. apply (appends_packed Field _ Value _ (fixed64_payload Host) Hf).
  intros Item. apply appends_emitRawBytes.
Qed.

(** ** C2: packed fields *)

Lemma static_cast_Int32_add_l (a b : Z) :
  Cpp.static_cast Cpp.Int32 (Cpp.static_cast Cpp.Int32 a + b)
  = Cpp.static_cast Cpp.Int32 (a + b).
Proof.
  rewrite !static_cast_Int32. f_equal.
  replace ((a + 2 ^ 31) mod 2 ^ 32 - 2 ^ 31 + b + 2 ^ 31)
    with ((a + 2 ^ 31) mod 2 ^ 32 + b) by lia.
  rewrite Z.add_mod_idemp_l by lia. f_equal. lia.
Qed.

(** The [int] accumulation of [std::accumulate] is the byte count of the
    payloads, wrapped to an [int]. *)
Lemma accumulate_lengths {A : Type} (Length : A -> Z) (Payload : A -> list Z)
  (Values : list A) :
  (forall Value, Z.of_nat (length (Payload Value)) = Length Value) ->
  forall a : Z,
    fold_left (fun L Value => Cpp.static_cast Cpp.Int32 (L + Length Value))
              Values (Cpp.static_cast Cpp.Int32 a)
    = Cpp.static_cast Cpp.Int32
        (a + Z.of_nat (length (concat (map Payload Values)))).
Proof.
  intros HL. induction Values as [|Value Rest IH]; intros a; cbn [fold_left map concat].
  - cbn [length]. rewrite Z.add_0_r. reflexivity.
  - rewrite static_cast_Int32_add_l, IH, length_app, Nat2Z.inj_add, <- HL.
    f_equal. lia.
Qed.

Lemma calculateVarIntPackedLength_eq (Values : list Z) :
  calculateVarIntPackedLength Values
  = Cpp.static_cast Cpp.Int32
      (Z.of_nat (length (concat (map varint_payload Values)))).
Proof.
  unfold calculateVarIntPackedLength.
  change 0 with (Cpp.static_cast Cpp.Int32 0) at 1.
  rewrite (accumulate_lengths
             (fun Value => calculateVarIntLength (Cpp.static_cast Cpp.UInt64 Value))
             varint_payload).
  - reflexivity.
  - intros Value. apply varint_bytes_length, static_cast_UInt64_range.
Qed.

Lemma calculateSignedVarIntPackedLength_eq (Values : list Z) :
  calculateSignedVarIntPackedLength Values
  = Cpp.static_cast Cpp.Int32
      (Z.of_nat (length (concat (map signed_varint_payload Values)))).
Proof.
  unfold calculateSignedVarIntPackedLength.
  change 0 with (Cpp.static_cast Cpp.Int32 0) at 1.
  rewrite (accumulate_lengths
             (fun Value => calculateVarIntLength
                             (convertToZigZag (Cpp.static_cast Cpp.Int64 Value)))
             signed_varint_payload).
  - reflexivity.
  - intros Value. apply varint_bytes_length, convertToZigZag_range.
Qed.

Lemma little_endian_bytes_length (Size : nat) (Value : Z) :
  length (little_endian_bytes Size Value) = Size.
Proof.
  revert Value. induction Size as [|Size IH]; intros Value; cbn [little_endian_bytes length];
    [reflexivity | now rewrite IH].
Qed.

Lemma object_representation_length (Host : Endianness) (Size : nat) (Value : Z) :
  length (object_representation Host Size Value) = Size.
Proof.
  destruct Host; cbn [object_representation];
    [| rewrite length_rev]; apply little_endian_bytes_length.
Qed.

Lemma concat_fixed_length {A : Type} (Payload : A -> list Z) (Size : nat)
  (Values : list A) :
  (forall Value, length (Payload Value) = Size) ->
  Z.of_nat (length (concat (map Payload Values)))
  = Z.of_nat (length Values) * Z.of_nat Size.
Proof.
  intros H. induction Values as [|Value Rest IH]; cbn [map concat length].
  - reflexivity.
  - rewrite length_app, H, Nat2Z.inj_add, IH. lia.
Qed.

Lemma static_cast_UInt64_Int32 (L : Z) :
  0 <= L <= Cpp.numeric_limits_max Cpp.Int32 ->
  Cpp.static_cast Cpp.UInt64 (Cpp.static_cast Cpp.Int32 L) = L.
Proof.
  intros H. change (Cpp.numeric_limits_max Cpp.Int32) with 2147483647 in H.
  rewrite (static_cast_representable Cpp.Int32)
    by (apply representable_Int32; lia).
  apply static_cast_representable, representable_UInt64. lia.
Qed.

(** C2, within the range of the length computation.  For a valid field
    number and any sequence, each of [emitVarIntPacked],
    [emitSignedVarIntPacked], [emitI32Packed] and [emitI64Packed] writes one
    LengthDelimited tag, then the byte count L of the payload as a varint,
    then the L bytes that are the payloads of the elements in order, the
    payload of an element being what the singular emitter writes for it
    after its tag; an empty sequence gives the tag and 0x00.  The varint
    emitters (the [bool] overload too) count L in an [int], so this holds
    for them when L is at most INT_MAX; the fixed-width emitters count it in
    a 64-bit [size_t]. *)
Theorem packed_emission (Host : Endianness) (Field : Z) (Value : list Z) :
  valid_field Field ->
  (* the payload of one element is the singular emission without its tag *)
  (forall Item,
      appends (Emitter.emitVarInt Field (Cpp.static_cast Cpp.UInt64 Item))
              (tag_bytes VarInt Field ++ varint_payload Item)
      /\ appends (Emitter.emitSignedVarInt Field (Cpp.static_cast Cpp.Int64 Item))
                 (tag_bytes VarInt Field ++ signed_varint_payload Item)
      /\ appends (Emitter.emitI32 Host Field (Cpp.static_cast Cpp.UInt32 Item))
                 (tag_bytes I32 Field ++ fixed32_payload Host Item)
      /\ appends (Emitter.emitI64 Host Field (Cpp.static_cast Cpp.UInt64 Item))
                 (tag_bytes I64 Field ++ fixed64_payload Host Item))
  (* the four packed emitters *)
  /\ (Z.of_nat (length (concat (map varint_payload Value)))
      <= Cpp.numeric_limits_max Cpp.Int32 ->
      appends (Emitter.emitVarIntPacked Field Value)
              (packed_record Field (map varint_payload Value)))
  /\ (forall Bools : list bool,
         Z.of_nat (length (concat (map varint_payload (map Z.b2z Bools))))
         <= Cpp.numeric_limits_max Cpp.Int32 ->
         appends (Emitter.emitVarIntPacked_bool Field Bools)
                 (packed_record Field (map varint_payload (map Z.b2z Bools))))
  /\ (Z.of_nat (length (concat (map signed_varint_payload Value)))
      <= Cpp.numeric_limits_max Cpp.Int32 ->
      appends (Emitter.emitSignedVarIntPacked Field Value)
              (packed_record Field (map signed_varint_payload Value)))
  /\ (Z.of_nat (length Value) * 4 <= Cpp.numeric_limits_max Cpp.UInt64 ->
      appends (Emitter.emitI32Packed Host Field Value)
              (packed_record Field (map (fixed32_payload Host) Value)))
  /\ (Z.of_nat (length Value) * 8 <= Cpp.numeric_limits_max Cpp.UInt64 ->
      appends (Emitter.emitI64Packed Host Field Value)
              (packed_record Field (map (fixed64_payload Host) Value)))
  (* a packed record is a tag, a varint L, and L bytes *)
  /\ (forall Payloads Rest,
         Z.of_nat (length (concat Payloads)) <= Cpp.numeric_limits_max Cpp.UInt64 ->
         exists Prefix,
           packed_record Field Payloads
           = tag_bytes LengthDelimited Field ++ Prefix ++ concat Payloads
           /\ spec_decode_varint (tag_bytes LengthDelimited Field ++ Prefix
                                  ++ concat Payloads ++ Rest)
              = Some (spec_tag Field LengthDelimited,
                      Prefix ++ concat Payloads ++ Rest)
           /\ spec_decode_varint (Prefix ++ concat Payloads ++ Rest)
              = Some (Z.of_nat (length (concat Payloads)),
                      concat Payloads ++ Rest))
  (* the empty sequence *)
  /\ packed_record Field [] = tag_bytes LengthDelimited Field ++ [0].
Proof.
  intros Hf.
  split.
  { intros Item. repeat split.
    - apply appends_emitVarInt; [exact Hf | apply static_cast_UInt64_range].
    - apply appends_emitSignedVarInt, Hf.
    - apply appends_emitI32, Hf.
    - apply appends_emitI64, Hf. }
  split.
  { intros HL. unfold packed_record.
    pose proof (appends_emitVarIntPacked Field Value Hf) as H.
    rewrite calculateVarIntPackedLength_eq, static_cast_UInt64_Int32 in H
      by lia.
    exact H. }
  split.
  { intros Bools HL. unfold packed_record.
    pose proof (appends_emitVarIntPacked_bool Field Bools Hf) as H.
    rewrite calculateVarIntPackedLength_eq, static_cast_UInt64_Int32 in H
      by lia.
    exact H. }
  split.
  { intros HL. unfold packed_record.
    pose proof (appends_emitSignedVarIntPacked Field Value Hf) as H.
    rewrite calculateSignedVarIntPackedLength_eq, static_cast_UInt64_Int32 in H
      by lia.
    exact H. }
  split.
  { intros HL. unfold packed_record.
    pose proof (appends_emitI32Packed Host Field Value Hf) as H.
    rewrite (concat_fixed_length (fixed32_payload Host) 4)
      by (intros; apply object_representation_length).
    rewrite static_cast_representable in H; [exact H|].
    apply representable_UInt64.
    change (Cpp.numeric_limits_max Cpp.UInt64) with (2 ^ 64 - 1) in HL. lia. }
  split.
  { intros HL. unfold packed_record.
    pose proof (appends_emitI64Packed Host Field Value Hf) as H.
    rewrite (concat_fixed_length (fixed64_payload Host) 8)
      by (intros; apply object_representation_length).
    rewrite static_cast_representable in H; [exact H|].
    apply representable_UInt64.
    change (Cpp.numeric_limits_max Cpp.UInt64) with (2 ^ 64 - 1) in HL. lia. }
  split.
  { intros Payloads Rest HL.
    change (Cpp.numeric_limits_max Cpp.UInt64) with (2 ^ 64 - 1) in HL.
    exists (varint_bytes (Z.of_nat (length (concat Payloads)))).
    split; [reflexivity|]. split.
    - apply spec_decode_tag_bytes, Hf.
    - apply spec_decode_varint_bytes. lia. }
  unfold packed_record. cbn [concat length Z.of_nat].
  rewrite app_nil_r. reflexivity.
Qed.

Lemma valid_field_1 : valid_field 1.
Proof. unfold valid_field, MinField, MaxField. lia. Qed.

Lemma packed_emission_witness :
  valid_field 1
  /\ Emitter.emitVarIntPacked 1 [0; -1; 65537] []
     = Some (tt, [10; 14; 0; 255; 255; 255; 255; 255; 255; 255; 255; 255; 1;
                  129; 128; 4])
  /\ Emitter.emitI32Packed LittleEndian 1 [0; -1; 65537] []
     = Some (tt, [10; 12; 0; 0; 0; 0; 255; 255; 255; 255; 1; 0; 1; 0]).
Proof.
  destruct (packed_emission LittleEndian 1 [0; -1; 65537] valid_field_1)
    as (_ & Hvarint & _ & _ & Hfixed & _).
  split; [exact valid_field_1|]. split.
  - apply (Hvarint ltac:(apply Z.leb_le; reflexivity) []).
  - apply (Hfixed ltac:(apply Z.leb_le; reflexivity) []).
Defined.

Lemma concat_varint_payload_zeros (n : nat) :
  concat (map varint_payload (repeat 0 n)) = repeat 0 n.
Proof.
  induction n as [|n IH]; cbn [repeat map concat]; [reflexivity|].
  rewrite IH. reflexivity.
Qed.

Lemma tag_bytes_LengthDelimited_1 : tag_bytes LengthDelimited 1 = [10].
Proof. reflexivity. Qed.

Lemma varint_bytes_wrapped_length :
  varint_bytes
    (Cpp.static_cast Cpp.UInt64 (Cpp.static_cast Cpp.Int32 2147483648))
  = [128; 128; 128; 128; 248; 255; 255; 255; 255; 1].
Proof. reflexivity. Qed.

Lemma varint_bytes_two_gib : varint_bytes 2147483648 = [128; 128; 128; 128; 8].
Proof. reflexivity. Qed.

Lemma two_gib_of_zeros_length :
  Z.of_nat (length two_gib_of_zeros) = 2147483648.
Proof.
  unfold two_gib_of_zeros. rewrite repeat_length. apply Z2Nat.id. lia.
Qed.

Lemma two_gib_of_zeros_payload :
  concat (map varint_payload two_gib_of_zeros) = two_gib_of_zeros.
Proof. apply concat_varint_payload_zeros. Qed.

(** The claim without the bound: 2^31 elements that are all 0 (an
    [ArrayRef<std::uint8_t>] of 2 GiB, say) take one byte each, the [int]
    sum of [calculateVarIntPackedLength] wraps to INT_MIN, and the length
    prefix written is 2^64 - 2^31 in ten bytes, not the 2^31 that the
    number of bytes that follow is. *)
Lemma packed_length_overflows :
  Z.of_nat (length (concat (map varint_payload two_gib_of_zeros))) = 2147483648
  /\ Emitter.emitVarIntPacked 1 two_gib_of_zeros []
     = Some (tt, [10] ++ [128; 128; 128; 128; 248; 255; 255; 255; 255; 1]
                 ++ concat (map varint_payload two_gib_of_zeros))
  /\ spec_decode_varint
       ([128; 128; 128; 128; 248; 255; 255; 255; 255; 1]
        ++ concat (map varint_payload two_gib_of_zeros))
     = Some (18446744071562067968, concat (map varint_payload two_gib_of_zeros))
  /\ ~ appends (Emitter.emitVarIntPacked 1 two_gib_of_zeros)
               (packed_record 1 (map varint_payload two_gib_of_zeros)).
Proof.
  assert (Hlen : Z.of_nat (length (concat (map varint_payload two_gib_of_zeros)))
                 = 2147483648)
    by (rewrite two_gib_of_zeros_payload; apply two_gib_of_zeros_length).
  assert (Hrun : Emitter.emitVarIntPacked 1 two_gib_of_zeros []
                 = Some (tt, [10] ++ [128; 128; 128; 128; 248; 255; 255; 255; 255; 1]
                             ++ concat (map varint_payload two_gib_of_zeros))).
  { pose proof (appends_emitVarIntPacked 1 two_gib_of_zeros valid_field_1 []) as H.
    rewrite calculateVarIntPackedLength_eq, Hlen in H.
    rewrite varint_bytes_wrapped_length, tag_bytes_LengthDelimited_1 in H.
    rewrite app_nil_l in H. exact H. }
  split; [exact Hlen|]. split; [exact Hrun|]. split.
  - rewrite <- varint_bytes_wrapped_length.
    apply (spec_decode_varint_bytes 18446744071562067968). lia.
  - intros Happ. specialize (Happ []). rewrite Hrun in Happ.
    unfold packed_record in Happ.
    rewrite Hlen, varint_bytes_two_gib, tag_bytes_LengthDelimited_1 in Happ.
    generalize dependent (concat (map varint_payload two_gib_of_zeros)).
    intros Payload _ _ Happ. cbn [app] in Happ. discriminate Happ.
Qed.

(** ** C5: negative [int32] and [int64] values *)

Lemma testbit_high (p w : Z) :
  0 < w -> 0 <= p < 2 ^ w ->
  Z.testbit p (w - 1) = (2 ^ (w - 1) <=? p).
Proof.
  intros Hw Hp.
  assert (Hpow : 2 ^ w = 2 * 2 ^ (w - 1)).
  { replace w with (1 + (w - 1)) at 1 by lia. rewrite Z.pow_add_r by lia.
    reflexivity. }
  assert (Hpos : 0 < 2 ^ (w - 1)) by (apply Z.pow_pos_nonneg; lia).
  destruct (Z.leb_spec (2 ^ (w - 1)) p) as [Hge|Hlt].
  - apply Z.testbit_true; [lia|].
    replace (p / 2 ^ (w - 1)) with 1; [reflexivity|].
    apply (Z.div_unique p (2 ^ (w - 1)) 1 (p - 2 ^ (w - 1))); lia.
  - apply Z.testbit_false; [lia|].
    rewrite Z.div_small by lia. reflexivity.
Qed.

(** Converting an [int32_t] to [std::uint64_t] sign-extends its 32 bits. *)
Lemma static_cast_UInt64_sign_extend_32 (n : Z) :
  Cpp.representable Cpp.Int32 n ->
  Cpp.static_cast Cpp.UInt64 n
  = spec_sign_extend 32 (Cpp.static_cast Cpp.UInt32 n).
Proof.
  intros Hn. apply representable_Int32 in Hn.
  unfold spec_sign_extend.
  pose proof (static_cast_UInt32_range n) as Hr.
  rewrite (testbit_high _ 32) by lia.
  rewrite static_cast_UInt32, static_cast_UInt64 in *.
  change (32 - 1) with 31.
  destruct (Z_lt_le_dec n 0) as [Hneg|Hpos].
  - rewrite (mod_unique_eq n (2 ^ 32) (-1) (n + 2 ^ 32)) by lia.
    replace (2 ^ 31 <=? n + 2 ^ 32) with true by (symmetry; apply Z.leb_le; lia).
    apply (mod_unique_eq _ (2 ^ 64) (-1)); lia.
  - rewrite (Z.mod_small n (2 ^ 32)) by lia.
    replace (2 ^ 31 <=? n) with false by (symmetry; apply Z.leb_gt; lia).
    apply Z.mod_small. lia.
Qed.

(** An [int64_t] already has 64 bits. *)
Lemma static_cast_UInt64_sign_extend_64 (n : Z) :
  Cpp.static_cast Cpp.UInt64 n
  = spec_sign_extend 64 (Cpp.static_cast Cpp.UInt64 n).
Proof.
  unfold spec_sign_extend.
  destruct (Z.testbit _ _); [|reflexivity].
  change (2 ^ 64 - 2 ^ 64) with 0. rewrite Z.add_0_r. reflexivity.
Qed.

(** The varint of a 64-bit pattern with the top bit set has ten bytes. *)
Lemma negative_varint_length (n : Z) :
  - 2 ^ 63 <= n < 0 ->
  length (varint_bytes (Cpp.static_cast Cpp.UInt64 n)) = 10%nat.
Proof.
  intros Hn.
  pose proof (static_cast_UInt64_range n) as Hr.
  pose proof (varint_bytes_length _ Hr) as Hl.
  assert (Hv : Cpp.static_cast Cpp.UInt64 n = n + 2 ^ 64).
  { rewrite static_cast_UInt64. apply (mod_unique_eq _ _ (-1)); lia. }
  pose proof (calculateVarIntLength_gt (Cpp.static_cast Cpp.UInt64 n) 9
                ltac:(lia) ltac:(rewrite Hv; simpl; lia)) as Hgt.
  pose proof (calculateVarIntLength_bounds (Cpp.static_cast Cpp.UInt64 n)
                ltac:(lia)) as (Hb & _).
  lia.
Qed.

(** C5.  For a valid field number and a negative value [n], [emitInt32]
    (for [n] an [int32_t]) and [emitInt64] (for [n] an [int64_t]) are
    [emitVarInt] on the sign extension of [n] to 64 bits; they write the
    VarInt tag and a varint of exactly ten bytes.  [emitInt32(1, -1)] writes
    08 FF FF FF FF FF FF FF FF FF 01. *)
Theorem emitInt_negative (Field n : Z) :
  valid_field Field -> n < 0 ->
  (Cpp.representable Cpp.Int32 n ->
   Builder.emitInt32 Field n
   = Emitter.emitVarInt Field
       (spec_sign_extend 32 (Cpp.static_cast Cpp.UInt32 n))
   /\ appends (Builder.emitInt32 Field n)
              (tag_bytes VarInt Field
               ++ varint_bytes
                    (spec_sign_extend 32 (Cpp.static_cast Cpp.UInt32 n)))
   /\ length (varint_bytes
                (spec_sign_extend 32 (Cpp.static_cast Cpp.UInt32 n)))
      = 10%nat)
  /\ (Cpp.representable Cpp.Int64 n ->
      Builder.emitInt64 Field n
      = Emitter.emitVarInt Field
          (spec_sign_extend 64 (Cpp.static_cast Cpp.UInt64 n))
      /\ appends (Builder.emitInt64 Field n)
                 (tag_bytes VarInt Field
                  ++ varint_bytes
                       (spec_sign_extend 64 (Cpp.static_cast Cpp.UInt64 n)))
      /\ length (varint_bytes
                   (spec_sign_extend 64 (Cpp.static_cast Cpp.UInt64 n)))
         = 10%nat)
  /\ Builder.emitInt32 1 (-1) []
     = Some (tt, [8; 255; 255; 255; 255; 255; 255; 255; 255; 255; 1]).
Proof.
  intros Hf Hneg. split; [|split; [|reflexivity]].
  - intros Hn. unfold Builder.emitInt32.
    rewrite <- (static_cast_UInt64_sign_extend_32 n Hn).
    apply representable_Int32 in Hn.
    split; [reflexivity|]. split.
    + apply appends_emitVarInt; [exact Hf | apply static_cast_UInt64_range].
    + apply negative_varint_length. lia.
  - intros Hn. unfold Builder.emitInt64.
    rewrite <- (static_cast_UInt64_sign_extend_64 n).
    apply representable_Int64 in Hn.
    split; [reflexivity|]. split.
    + apply appends_emitVarInt; [exact Hf | apply static_cast_UInt64_range].
    + apply negative_varint_length. lia.
Qed.

Lemma emitInt_negative_witness :
  valid_field 1 /\ -65537 < 0 /\ Cpp.representable Cpp.Int32 (-65537)
  /\ Builder.emitInt32 1 (-65537) []
     = Some (tt, [8; 255; 255; 251; 255; 255; 255; 255; 255; 255; 1]).
Proof.
  assert (Hneg : -65537 < 0) by lia.
  assert (Hr : Cpp.representable Cpp.Int32 (-65537))
    by (apply representable_Int32; lia).
  destruct (emitInt_negative 1 (-65537) valid_field_1 Hneg) as (H32 & _).
  destruct (H32 Hr) as (_ & Happ & _).
  split; [exact valid_field_1|]. split; [exact Hneg|]. split; [exact Hr|].
  exact (Happ []).
Defined.

(** ** C8: fixed-width payloads *)

Lemma land_255 (v : Z) : Z.land v 255 = v mod 256.
Proof. change 255 with (Z.ones 8). rewrite Z.land_ones by lia. reflexivity. Qed.

(** Byte [i] of the little-endian order is [Value / 2^(8i) mod 256]. *)
Lemma little_endian_bytes_4 (Value : Z) :
  little_endian_bytes 4 Value
  = [Value mod 256; Value / 2 ^ 8 mod 256; Value / 2 ^ 16 mod 256;
     Value / 2 ^ 24 mod 256].
Proof.
  cbn [little_endian_bytes]. rewrite !Z.shiftr_shiftr by lia.
  rewrite !land_255, !Z.shiftr_div_pow2 by lia. reflexivity.
Qed.

Lemma little_endian_bytes_8 (Value : Z) :
  little_endian_bytes 8 Value
  = [Value mod 256; Value / 2 ^ 8 mod 256; Value / 2 ^ 16 mod 256;
     Value / 2 ^ 24 mod 256; Value / 2 ^ 32 mod 256; Value / 2 ^ 40 mod 256;
     Value / 2 ^ 48 mod 256; Value / 2 ^ 56 mod 256].
Proof.
  cbn [little_endian_bytes]. rewrite !Z.shiftr_shiftr by lia.
  rewrite !land_255, !Z.shiftr_div_pow2 by lia. reflexivity.
Qed.

(** C8, as the code has it.  For a valid field number, [emitI32]
    ([emitI64]) writes the I32 (I64) tag and then exactly 4 (8) bytes, with
    no varint and no length prefix, and the [float] and [double] overloads
    emit the [bit_cast] of their argument.  The bytes are read at [&Value]
    in the order the host stores them and nothing swaps them: on a
    little-endian host they are the bytes of the value least significant
    first, as the claim and [TEST(ProtobufEmitter, Fixed32)] have them, and
    [emitFixed32(1, 65537)] writes 0D 01 00 01 00; on a big-endian host they
    come out most significant first, and the same call writes
    0D 00 01 00 01. *)
Theorem fixed_width_emission (Host : Endianness) (Field Value : Z) :
  valid_field Field ->
  appends (Emitter.emitI32 Host Field Value)
          (tag_bytes I32 Field ++ object_representation Host 4 Value)
  /\ appends (Emitter.emitI64 Host Field Value)
             (tag_bytes I64 Field ++ object_representation Host 8 Value)
  /\ (forall Rest,
         spec_decode_varint (tag_bytes I32 Field ++ Rest)
         = Some (spec_tag Field I32, Rest)
         /\ spec_decode_varint (tag_bytes I64 Field ++ Rest)
            = Some (spec_tag Field I64, Rest))
  /\ length (object_representation Host 4 Value) = 4%nat
  /\ length (object_representation Host 8 Value) = 8%nat
  /\ object_representation LittleEndian 4 Value
     = [Value mod 256; Value / 2 ^ 8 mod 256; Value / 2 ^ 16 mod 256;
        Value / 2 ^ 24 mod 256]
  /\ object_representation LittleEndian 8 Value
     = [Value mod 256; Value / 2 ^ 8 mod 256; Value / 2 ^ 16 mod 256;
        Value / 2 ^ 24 mod 256; Value / 2 ^ 32 mod 256; Value / 2 ^ 40 mod 256;
        Value / 2 ^ 48 mod 256; Value / 2 ^ 56 mod 256]
  /\ object_representation BigEndian 4 Value
     = [Value / 2 ^ 24 mod 256; Value / 2 ^ 16 mod 256; Value / 2 ^ 8 mod 256;
        Value mod 256]
  /\ object_representation BigEndian 8 Value
     = [Value / 2 ^ 56 mod 256; Value / 2 ^ 48 mod 256; Value / 2 ^ 40 mod 256;
        Value / 2 ^ 32 mod 256; Value / 2 ^ 24 mod 256; Value / 2 ^ 16 mod 256;
        Value / 2 ^ 8 mod 256; Value mod 256]
  /\ (forall x : float,
         Emitter.emitI32_float Host Field x
         = Emitter.emitI32 Host Field (bit_cast_uint32 x))
  /\ (forall x : double,
         Emitter.emitI64_double Host Field x
         = Emitter.emitI64 Host Field (bit_cast_uint64 x))
  /\ Builder.emitFixed32 LittleEndian 1 65537 [] = Some (tt, [13; 1; 0; 1; 0])
  /\ Builder.emitFixed32 BigEndian 1 65537 [] = Some (tt, [13; 0; 1; 0; 1])
  /\ Builder.emitFixed32 BigEndian 1 65537 [] <> Some (tt, [13; 1; 0; 1; 0]).
Proof.
  intros Hf.
  split; [apply appends_emitI32, Hf|].
  split; [apply appends_emitI64, Hf|].
  split; [intros Rest; split; apply spec_decode_tag_bytes, Hf|].
  split; [apply object_representation_length|].
  split; [apply object_representation_length|].
  split; [apply little_endian_bytes_4|].
  split; [apply little_endian_bytes_8|].
  split; [cbn [object_representation]; rewrite little_endian_bytes_4; reflexivity|].
  split; [cbn [object_representation]; rewrite little_endian_bytes_8; reflexivity|].
  split; [reflexivity|].
  split; [reflexivity|].
  split; [reflexivity|].
  split; [reflexivity | discriminate].
Qed.

Lemma fixed_width_emission_witness :
  valid_field 1
  /\ Emitter.emitI32 BigEndian 1 65537 [] = Some (tt, [13; 0; 1; 0; 1])
  /\ Emitter.emitI32 LittleEndian 1 65537 [] = Some (tt, [13; 1; 0; 1; 0]).
Proof.
  destruct (fixed_width_emission BigEndian 1 65537 valid_field_1)
    as (HB & _).
  destruct (fixed_width_emission LittleEndian 1 65537 valid_field_1)
    as (HL & _).
  split; [exact valid_field_1|]. split; [exact (HB []) | exact (HL [])].
Defined.

(** ** Records begin with their tag *)

Lemma for_each_ext {A : Type} (Range : list A) (Body1 Body2 : A -> Emit unit) :
  Forall (fun Item => Body1 Item = Body2 Item) Range ->
  for_each Range Body1 = for_each Range Body2.
Proof.
  induction 1 as [|Item Rest H _ IH]; cbn [for_each]; [reflexivity|].
  rewrite H, IH. reflexivity.
Qed.

(** A type that is or promotes to [int] has only values of [int]. *)
Lemma representable_promote_Int32 (T : Cpp.IntType) (v : Z) :
  Cpp.promote T = Cpp.Int32 -> Cpp.representable T v ->
  Cpp.representable Cpp.Int32 v.
Proof.
  intros Hp Hr. apply representable_Int32.
  destruct T; try discriminate Hp;
    unfold Cpp.representable, Cpp.numeric_limits_min, Cpp.numeric_limits_max in Hr;
    cbn [Cpp.is_signed Cpp.width] in Hr; lia.
Qed.

(** The assertion of [emitEnum] holds on every value of a type that is or
    promotes to [int]. *)
Lemma emitEnum_assertion (IntValueType : Cpp.IntType) (Value : Z) :
  Cpp.promote IntValueType = Cpp.Int32 ->
  Cpp.representable IntValueType Value ->
  Cpp.le Cpp.Int32 (Cpp.numeric_limits_min Cpp.Int32) IntValueType Value
  && Cpp.le IntValueType Value Cpp.Int32 (Cpp.numeric_limits_max Cpp.Int32)
  = true.
Proof.
  intros Hp Hr.
  pose proof (representable_promote_Int32 IntValueType Value Hp Hr) as H32.
  unfold Cpp.le.
  replace (Cpp.common_type Cpp.Int32 IntValueType) with Cpp.Int32
    by (destruct IntValueType; try discriminate Hp; reflexivity).
  replace (Cpp.common_type IntValueType Cpp.Int32) with Cpp.Int32
    by (destruct IntValueType; try discriminate Hp; reflexivity).
  rewrite (static_cast_representable Cpp.Int32 Value H32).
  change (Cpp.static_cast Cpp.Int32 (Cpp.numeric_limits_min Cpp.Int32))
    with (- 2 ^ 31).
  change (Cpp.static_cast Cpp.Int32 (Cpp.numeric_limits_max Cpp.Int32))
    with (2 ^ 31 - 1).
  apply representable_Int32 in H32.
  apply andb_true_intro. split; apply Z.leb_le; lia.
Qed.

(** For a value type that is or promotes to [int], the assertion holds on
    every value of the type and the value goes out as the varint of its
    conversion to 64 bits. *)
Lemma appends_emitEnum_int (IntValueType : Cpp.IntType) (Field Value : Z) :
  valid_field Field ->
  Cpp.promote IntValueType = Cpp.Int32 ->
  Cpp.representable IntValueType Value ->
  appends (Emitter.emitEnum IntValueType Field Value)
          (tag_bytes VarInt Field
           ++ varint_bytes (Cpp.static_cast Cpp.UInt64 Value)).
Proof.
  intros Hf Hp Hr.
  unfold Emitter.emitEnum, toIntegral.
  apply (appends_bind _ _ []).
  - apply appends_assert, emitEnum_assertion; assumption.
  - apply appends_emitVarInt; [exact Hf | apply static_cast_UInt64_range].
Qed.

(** Every singular emission of the builder writes a record of the
    category's wire type. *)
Lemma appends_emit_C (Host : Endianness) (C : Category) (Field : Z)
  (Value : ItemOf C) :
  valid_field Field -> item_ok C Value ->
  exists Payload,
    appends (emit_C Host C Field Value)
            (tag_bytes (spec_wire_type C) Field ++ Payload).
Proof.
  intros Hf Hok.
  destruct C; cbn [emit_C spec_wire_type item_ok ItemOf] in *.
  all: eexists.
  - apply (appends_emitI64 Host), Hf.
  - apply (appends_emitI32 Host), Hf.
  - apply appends_emitVarInt; [exact Hf | apply static_cast_UInt64_range].
  - apply appends_emitVarInt; [exact Hf | apply static_cast_UInt64_range].
  - apply appends_emitVarInt; [exact Hf | apply static_cast_UInt64_range].
  - apply appends_emitVarInt; [exact Hf | apply representable_UInt64; exact Hok].
  - apply appends_emitSignedVarInt, Hf.
  - apply appends_emitSignedVarInt, Hf.
  - apply (appends_emitI32 Host), Hf.
  - apply (appends_emitI64 Host), Hf.
  - apply (appends_emitI32 Host), Hf.
  - apply (appends_emitI64 Host), Hf.
  - apply appends_emitVarInt; [exact Hf | apply static_cast_UInt64_range].
  - apply appends_emitLen, Hf.
  - apply appends_emitLen, Hf.
  - apply appends_emitLen, Hf.
Qed.

(** A packed emitter writes the LengthDelimited tag and goes on. *)
Lemma appends_packed_tag {A : Type} (Field Length : Z) (Value : list A)
  (Body : A -> Emit unit) (Payload : A -> list Z) :
  valid_field Field ->
  (forall Item, appends (Body Item) (Payload Item)) ->
  exists Written,
    appends
      (Emitter.emitTag LengthDelimited (toIntegral Field) ;;
       Emitter.emitVarIntRaw (Cpp.static_cast Cpp.UInt64 Length) ;;
       for_each Value Body)
      (tag_bytes LengthDelimited Field ++ Written).
Proof.
  intros Hf HB. eexists. apply (appends_packed _ _ _ _ Payload Hf HB).
Qed.

Create HintDb emit.
#[local] Hint Resolve static_cast_UInt64_range convertToZigZag_range
  appends_emitRawBytes appends_emitVarIntRaw_varint_bytes : emit.

(** One packed emitter, given what its loop body writes for an element. *)
Ltac packed_case Payload :=
  match goal with
  | Hf : valid_field ?Field |- exists _, appends _ _ =>
      apply (appends_packed_tag Field _ _ _ Payload Hf); intros ?; auto with emit
  end.

(** Every packed emission of the builder is one LengthDelimited record. *)
Lemma appends_emit_C_packed (Host : Endianness) (C : Category) (Field : Z)
  (Value : list (ItemOf C)) (emit : Z -> list (ItemOf C) -> Emit unit) :
  valid_field Field ->
  emit_C_packed Host C = Some emit ->
  exists Written,
    appends (emit Field Value) (tag_bytes LengthDelimited Field ++ Written).
Proof.
  intros Hf E.
  destruct C; cbn [emit_C_packed ItemOf] in *;
    try discriminate E; injection E as <-.
  - packed_case (fun Item => object_representation Host 8 (bit_cast_uint64 Item)).
  - packed_case (fun Item => object_representation Host 4 (bit_cast_uint32 Item)).
  - packed_case varint_payload.
  - packed_case varint_payload.
  - packed_case varint_payload.
  - packed_case varint_payload.
  - packed_case signed_varint_payload.
  - packed_case signed_varint_payload.
  - packed_case (fixed32_payload Host).
  - packed_case (fixed64_payload Host).
  - packed_case (fixed32_payload Host).
  - packed_case (fixed64_payload Host).
  - packed_case (fun Item => varint_payload (Z.b2z Item)).
Qed.

(** ** C7: repeated fields *)

(** The loop of a repeated emitter runs the singular emitter on each
    element. *)
Lemma emit_C_repeated_for_each (Host : Endianness) (C : Category) (Field : Z)
  (Value : list (ItemOf C)) :
  Forall (item_ok C) Value ->
  emit_C_repeated Host C Field Value = for_each Value (emit_C Host C Field).
Proof.
  intros Hok.
  destruct C; cbn [emit_C_repeated emit_C item_ok ItemOf] in *;
    try reflexivity.
  - (* uint64 *)
    apply for_each_ext. eapply Forall_impl; [|exact Hok].
    intros Item HI. cbv beta in *. unfold Builder.emitUInt64.
    rewrite static_cast_representable by exact HI. reflexivity.
  - (* sint64 *)
    apply for_each_ext. eapply Forall_impl; [|exact Hok].
    intros Item HI. cbv beta in *. unfold Builder.emitSInt64.
    rewrite static_cast_representable by exact HI. reflexivity.
  - (* fixed32 *)
    apply for_each_ext. eapply Forall_impl; [|exact Hok].
    intros Item HI. cbv beta in *. unfold Builder.emitFixed32.
    rewrite static_cast_representable by exact HI. reflexivity.
  - (* fixed64 *)
    apply for_each_ext. eapply Forall_impl; [|exact Hok].
    intros Item HI. cbv beta in *. unfold Builder.emitFixed64.
    rewrite static_cast_representable by exact HI. reflexivity.
Qed.




(** ** C6: the first varint of a record *)

(** A computation that writes a record starts its output with the varint
    of the record's tag. *)
Lemma first_varint_of_record (WType : WireType) (Field : Z) (m : Emit unit)
  (Rest : list Z) :
  valid_field Field ->
  appends m (tag_bytes WType Field ++ Rest) ->
  appends m (tag_bytes WType Field ++ Rest)
  /\ spec_decode_varint (bytes_of m)
     = Some (Z.lor (Z.shiftl Field 3) (to_underlying WType), Rest).
Proof.
  intros Hf H. split; [exact H|].
  rewrite (appends_bytes_of _ _ H).
  exact (spec_decode_tag_bytes WType Field Rest Hf).
Qed.

(** C6, with the wire type of a packed call.  For a field number in
    [1, 536870911]: [emitTag] writes the varint of [(f << 3) | w] for each
    of the wire types VarInt, I64, LengthDelimited and I32.  Every singular
    call of the builder, and every repeated call on a sequence that is not
    empty, succeeds from every stream, and what it writes starts with the
    varint [(f << 3) | w] for the wire type [w] of the call's category; so
    does [Emitter::emitEnum], with VarInt, on an argument whose type is or
    promotes to [int].  Every packed call succeeds and what it writes starts
    with the varint [(f << 3) | 2], LengthDelimited, whatever the wire type
    of its category.  A repeated call on an empty sequence writes nothing. *)
Theorem first_varint_is_tag (Host : Endianness) (Field : Z) :
  valid_field Field ->
  (forall WType Rest,
      Emitter.emitTag_static WType = true ->
      appends (Emitter.emitTag WType Field) (tag_bytes WType Field)
      /\ spec_decode_varint (tag_bytes WType Field ++ Rest)
         = Some (Z.lor (Z.shiftl Field 3) (to_underlying WType), Rest))
  (* a singular call *)
  /\ (forall (C : Category) (Value : ItemOf C),
         item_ok C Value ->
         exists Rest,
           appends (emit_C Host C Field Value)
                   (tag_bytes (spec_wire_type C) Field ++ Rest)
           /\ spec_decode_varint (bytes_of (emit_C Host C Field Value))
              = Some (Z.lor (Z.shiftl Field 3)
                            (to_underlying (spec_wire_type C)), Rest))
  (* a repeated call on a sequence that is not empty *)
  /\ (forall (C : Category) (Item : ItemOf C) (Items : list (ItemOf C)),
         Forall (item_ok C) (Item :: Items) ->
         exists Rest,
           appends (emit_C_repeated Host C Field (Item :: Items))
                   (tag_bytes (spec_wire_type C) Field ++ Rest)
           /\ spec_decode_varint
                (bytes_of (emit_C_repeated Host C Field (Item :: Items)))
              = Some (Z.lor (Z.shiftl Field 3)
                            (to_underlying (spec_wire_type C)), Rest))
  (* a repeated call on an empty sequence *)
  /\ (forall C : Category, appends (emit_C_repeated Host C Field []) [])
  (* a packed call *)
  /\ (forall (C : Category) (Value : list (ItemOf C)) emit,
         emit_C_packed Host C = Some emit ->
         exists Rest,
           appends (emit Field Value)
                   (tag_bytes LengthDelimited Field ++ Rest)
           /\ spec_decode_varint (bytes_of (emit Field Value))
              = Some (Z.lor (Z.shiftl Field 3)
                            (to_underlying LengthDelimited), Rest))
  (* an enumerator *)
  /\ (forall IntValueType Value,
         Cpp.promote IntValueType = Cpp.Int32 ->
         Cpp.representable IntValueType Value ->
         exists Rest,
           appends (Emitter.emitEnum IntValueType Field Value)
                   (tag_bytes VarInt Field ++ Rest)
           /\ spec_decode_varint
                (bytes_of (Emitter.emitEnum IntValueType Field Value))
              = Some (Z.lor (Z.shiftl Field 3) (to_underlying VarInt), Rest)).
Proof.
  intros Hf.
  split.
  { intros WType Rest _. split.
    - apply appends_emitTag_tag_bytes, Hf.
    - apply spec_decode_tag_bytes, Hf. }
  split.
  { intros C Value Hok.
    destruct (appends_emit_C Host C Field Value Hf Hok) as [Rest H].
    exists Rest. apply first_varint_of_record; assumption. }
  split.
  { intros C Item Items Hok.
    pose proof (Forall_inv Hok) as Hok1.
    pose proof (Forall_inv_tail Hok) as Hok2.
    destruct (appends_emit_C Host C Field Item Hf Hok1) as [Payload H].
    exists (Payload
            ++ concat (map (fun I => bytes_of (emit_C Host C Field I)) Items)).
    apply first_varint_of_record; [exact Hf|].
    rewrite (emit_C_repeated_for_each Host C Field (Item :: Items) Hok).
    cbn [for_each]. rewrite app_assoc.
    apply appends_bind; [exact H|].
    apply appends_for_each. intros I HI.
    destruct (appends_emit_C Host C Field I Hf
                (proj1 (Forall_forall _ _) Hok2 I HI)) as [P HP].
    rewrite (appends_bytes_of _ _ HP). exact HP. }
  split.
  { intros C Output. rewrite app_nil_r. destruct C; reflexivity. }
  split.
  { intros C Value emit E.
    destruct (appends_emit_C_packed Host C Field Value emit Hf E) as [Rest H].
    exists Rest. apply first_varint_of_record; assumption. }
  intros IntValueType Value Hp Hr. eexists.
  apply first_varint_of_record; [exact Hf|].
  apply appends_emitEnum_int; assumption.
Qed.

Lemma first_varint_is_tag_witness :
  valid_field 100000
  /\ Builder.emitSInt32Packed 100000 [0; -1; 65537] [1; 2; 3]
     = Some (tt, [1; 2; 3; 130; 234; 48; 5; 0; 1; 130; 128; 8])
  /\ exists Rest,
       appends (Builder.emitSInt32Packed 100000 [0; -1; 65537])
               (tag_bytes LengthDelimited 100000 ++ Rest)
       /\ spec_decode_varint
            (bytes_of (Builder.emitSInt32Packed 100000 [0; -1; 65537]))
          = Some (800002, Rest).
Proof.
  assert (Hf : valid_field 100000)
    by (unfold valid_field, MinField, MaxField; lia).
  destruct (first_varint_is_tag LittleEndian 100000 Hf)
    as (_ & _ & _ & _ & Hpacked & _).
  split; [exact Hf|]. split; [reflexivity|].
  exact (Hpacked CSInt32 [0; -1; 65537] Builder.emitSInt32Packed eq_refl).
Defined.

(** The claim on a packed call and on an empty repeated call.  The wire
    type of [int32] is VarInt and [(1 << 3) | 0] is 8; the output of
    [emitInt32Packed(1, {0})] starts with the varint 10, [(1 << 3) | 2].
    [emitInt32Repeated] on an empty sequence writes nothing, and no varint can
    be read from its output. *)
Lemma packed_call_first_varint :
  spec_wire_type CInt32 = VarInt
  /\ Z.lor (Z.shiftl 1 3) (to_underlying (spec_wire_type CInt32)) = 8
  /\ Builder.emitInt32Packed 1 [0] [] = Some (tt, [10; 1; 0])
  /\ spec_decode_varint [10; 1; 0] = Some (10, [1; 0])
  /\ spec_decode_varint [10; 1; 0]
     <> Some (Z.lor (Z.shiftl 1 3) (to_underlying (spec_wire_type CInt32)),
              [1; 0])
  /\ Builder.emitInt32Repeated 1 [] [] = Some (tt, [])
  /\ spec_decode_varint [] = None.
Proof. repeat split; try reflexivity. discriminate. Qed.

(** ** C9: the range check of [emitEnum] *)





(** ** C3: packed enumerations *)

(** What [emitEnumPacked] writes where it has an instantiation and the
    assertion on [toIntegral(Value)] holds: the length prefix is the number
    of elements. *)
Lemma appends_emitEnumPacked (ValueType : Cpp.Type_)
  (IntValueType : Cpp.IntType) (toIntegral_Value : list Z -> Z)
  (emit : Z -> list Z -> Emit unit) (Field : Z) (Value : list Z) :
  Emitter.emitEnumPacked ValueType (Some (IntValueType, toIntegral_Value))
  = Some emit ->
  valid_field Field ->
  Cpp.promote IntValueType = Cpp.Int32 ->
  Cpp.representable IntValueType (toIntegral_Value Value) ->
  appends (emit Field Value)
          (tag_bytes LengthDelimited Field
           ++ varint_bytes (Cpp.static_cast Cpp.UInt64 (Z.of_nat (length Value)))
           ++ concat (map varint_payload Value)).
Proof.
  intros E Hf Hp Hr. unfold Emitter.emitEnumPacked in E.
  destruct (Cpp.remove_reference ValueType); try discriminate E.
  destruct (Emitter.emitEnum_static _); [|discriminate E].
  injection E as <-.
  apply (appends_packed Field _ Value _ varint_payload Hf).
  intros Item. apply (appends_bind _ _ []).
  - apply appends_assert, emitEnum_assertion; assumption.
  - apply appends_emitVarIntRaw_varint_bytes, static_cast_UInt64_range.
Qed.

(** C3, as the code has it.  The loop body of [emitEnumPacked] calls
    [toIntegral] on the container: on a container whose namespace declares no
    [toIntegral] of its own ([std::array], [std::vector], [ArrayRef]) the
    template has no instantiation, and [Builder::emitEnumPacked] has none on
    any argument.  Where the emitter's template has one, it writes the tag,
    then the number of elements as the length prefix, then the varint of
    every element: for the one element 128 the prefix is 1 and two bytes
    follow, where a packed record, and [emitInt32Packed], have the
    prefix 2. *)
Theorem emitEnumPacked_length_prefix :
  (forall ValueType, Emitter.emitEnumPacked ValueType None = None)
  /\ (forall ValueType toIntegral_ADL,
         Builder.emitEnumPacked ValueType toIntegral_ADL = None)
  /\ (forall ValueType IntValueType toIntegral_Value emit Field Value,
         Emitter.emitEnumPacked ValueType
           (Some (IntValueType, toIntegral_Value)) = Some emit ->
         valid_field Field ->
         Cpp.promote IntValueType = Cpp.Int32 ->
         Cpp.representable IntValueType (toIntegral_Value Value) ->
         appends (emit Field Value)
                 (tag_bytes LengthDelimited Field
                  ++ varint_bytes
                       (Cpp.static_cast Cpp.UInt64 (Z.of_nat (length Value)))
                  ++ concat (map varint_payload Value)))
  /\ Cpp.representable Cpp.Int32 128
  /\ (exists emit,
         Emitter.emitEnumPacked (Cpp.Container (Cpp.Integral Cpp.Int32))
           (Some (Cpp.Int32, fun _ => 0)) = Some emit
         /\ emit 1 [128] [] = Some (tt, [10; 1; 128; 1]))
  /\ packed_record 1 (map varint_payload [128]) = [10; 2; 128; 1]
  /\ Builder.emitInt32Packed 1 [128] [] = Some (tt, [10; 2; 128; 1]).
Proof.
  split.
  { intros ValueType. unfold Emitter.emitEnumPacked.
    destruct (Cpp.remove_reference ValueType); try reflexivity.
    destruct (Emitter.emitEnum_static _); reflexivity. }
  split; [reflexivity|].
  split; [exact appends_emitEnumPacked|].
  split; [apply representable_Int32; lia|].
  split; [eexists; split; reflexivity|].
  split; reflexivity.
Qed.

(** ** The golden byte sequences of [TEST(ProtobufEmitter, SFixed64)]

    The expectations of the last test of
    [llvm/unittests/Support/Protobuf.cpp], on a little-endian host. *)
Example test_SFixed64 :
  bytes_of (Builder.emitSFixed64 LittleEndian 1 0)
     = [0x09; 0x00; 0x00; 0x00; 0x00; 0x00; 0x00; 0x00; 0x00]
  /\ bytes_of (Builder.emitSFixed64 LittleEndian 1 1)
     = [0x09; 0x01; 0x00; 0x00; 0x00; 0x00; 0x00; 0x00; 0x00]
  /\ bytes_of (Builder.emitSFixed64 LittleEndian 1 65537)
     = [0x09; 0x01; 0x00; 0x01; 0x00; 0x00; 0x00; 0x00; 0x00]
  /\ bytes_of (Builder.emitSFixed64 LittleEndian 1 2147483649)
     = [0x09; 0x01; 0x00; 0x00; 0x80; 0x00; 0x00; 0x00; 0x00]
  /\ bytes_of (Builder.emitSFixed64 LittleEndian 1
        (Cpp.numeric_limits_max Cpp.Int64))
     = [0x09; 0xFF; 0xFF; 0xFF; 0xFF; 0xFF; 0xFF; 0xFF; 0x7F]
  /\ bytes_of (Builder.emitSFixed64 LittleEndian 1 (-1))
     = [0x09; 0xFF; 0xFF; 0xFF; 0xFF; 0xFF; 0xFF; 0xFF; 0xFF]
  /\ bytes_of (Builder.emitSFixed64 LittleEndian 1 (-65537))
     = [0x09; 0xFF; 0xFF; 0xFE; 0xFF; 0xFF; 0xFF; 0xFF; 0xFF]
  /\ bytes_of (Builder.emitSFixed64 LittleEndian 1 (-2147483649))
     = [0x09; 0xFF; 0xFF; 0xFF; 0x7F; 0xFF; 0xFF; 0xFF; 0xFF]
  /\ bytes_of (Builder.emitSFixed64 LittleEndian 1
        (Cpp.numeric_limits_min Cpp.Int64))
     = [0x09; 0x00; 0x00; 0x00; 0x00; 0x00; 0x00; 0x00; 0x80]
  /\ bytes_of (Builder.emitSFixed64Repeated LittleEndian 1
        [1; (-65537); 2147483649])
     = [0x09; 0x01; 0x00; 0x00; 0x00; 0x00; 0x00; 0x00; 0x00; 0x09; 0xFF;
        0xFF; 0xFE; 0xFF; 0xFF; 0xFF; 0xFF; 0xFF; 0x09; 0x01; 0x00; 0x00;
        0x80; 0x00; 0x00; 0x00; 0x00]
  /\ bytes_of (Builder.emitSFixed64Packed LittleEndian 1
        [1; (-65537); 2147483649])
     = [0x0A; 0x18; 0x01; 0x00; 0x00; 0x00; 0x00; 0x00; 0x00; 0x00; 0xFF;
        0xFF; 0xFE; 0xFF; 0xFF; 0xFF; 0xFF; 0xFF; 0x01; 0x00; 0x00; 0x80;
        0x00; 0x00; 0x00; 0x00].
Proof. repeat split; reflexivity. Qed.

(** ** Further properties of the emitter

    What the code shows beyond the statements of its specification: its
    behaviour on field numbers outside the valid range, the shape and the
    size of what it writes, and that nothing it writes can be read in two
    ways. *)

(** *** Field numbers outside the valid range *)

(** The assertion of [emitTag] fails on every [std::int64_t] outside
    [MinField, MaxField], before anything is written. *)
Lemma emitTag_invalid_field (WType : WireType) (Field : Z) (Output : list Z) :
  Cpp.representable Cpp.Int64 Field -> ~ valid_field Field ->
  Emitter.emitTag WType Field Output = None.
Proof.
  unfold valid_field, MinField, MaxField. intros Hr Hf.
  unfold Emitter.emitTag. apply bind_None.
  unfold Cpp.le, MinField, MaxField.
  cbn [Cpp.common_type Cpp.promote Cpp.is_signed Cpp.width
       Bool.eqb Z.ltb Z.compare Pos.compare Pos.compare_cont].
  rewrite (static_cast_representable Cpp.Int64 Field) by exact Hr.
  rewrite !(static_cast_representable Cpp.Int64)
    by (apply representable_Int64; lia).
  unfold assert.
  destruct (Z.leb_spec 1 Field); destruct (Z.leb_spec Field 536870911);
    cbn [andb]; try reflexivity.
  exfalso. apply Hf. lia.
Qed.

Lemma bind_emitTag_invalid_field (WType : WireType) (Field : Z)
  (k : unit -> Emit unit) (Output : list Z) :
  Cpp.representable Cpp.Int64 Field -> ~ valid_field Field ->
  bind (Emitter.emitTag WType (toIntegral Field)) k Output = None.
Proof.
  intros Hr Hf. apply bind_None, emitTag_invalid_field; assumption.
Qed.

(** [emitEnum] checks the value first and the field number second; on an
    invalid field number one of the two assertions fails. *)
Lemma emitEnum_invalid_field (IntValueType : Cpp.IntType) (Field Value : Z)
  (Output : list Z) :
  Cpp.representable Cpp.Int64 Field -> ~ valid_field Field ->
  Emitter.emitEnum IntValueType Field Value Output = None.
Proof.
  intros Hr Hf. unfold Emitter.emitEnum, bind at 1, assert.
  destruct (_ && _); [|reflexivity].
  apply bind_emitTag_invalid_field; assumption.
Qed.

Lemma emit_C_invalid_field (Host : Endianness) (C : Category) (Field : Z)
  (Value : ItemOf C) (Output : list Z) :
  Cpp.representable Cpp.Int64 Field -> ~ valid_field Field ->
  emit_C Host C Field Value Output = None.
Proof.
  intros Hr Hf.
  destruct C; cbn [emit_C ItemOf] in *;
    apply bind_emitTag_invalid_field; assumption.
Qed.

Lemma for_each_cons_None {A : Type} (Item : A) (Rest : list A)
  (Body : A -> Emit unit) (Output : list Z) :
  Body Item Output = None -> for_each (Item :: Rest) Body Output = None.
Proof. intros H. cbn [for_each]. apply bind_None, H. Qed.

(** X1.  On a field number outside [1, 536870911] every singular call,
    every packed call (on an empty range too) and every repeated call on a
    range that is not empty fails an assertion before it writes a byte: the
    call has no result.  A repeated call on an empty range runs no
    iteration, checks no field number and leaves the stream as it is.
    [Emitter::emitEnum] has no result either: its own assertion fails, or
    the one of [emitTag] after it. *)
Theorem invalid_field_aborts (Host : Endianness) (Field : Z)
  (Output : list Z) :
  Cpp.representable Cpp.Int64 Field ->
  ~ valid_field Field ->
  (forall (c : Call) (m : Emit unit),
      run_call Host c Field = Some m ->
      m Output = match c with
                 | Repeated _ [] => Some (tt, Output)
                 | _ => None
                 end)
  /\ (forall IntValueType Value,
         Emitter.emitEnum IntValueType Field Value Output = None).
Proof.
  intros Hr Hf. split; [|intros; apply emitEnum_invalid_field; assumption].
  intros c m Hrun. destruct c as [C Value|C Value|C Value];
    cbn [run_call] in Hrun.
  - injection Hrun as <-. apply emit_C_invalid_field; assumption.
  - injection Hrun as <-. destruct Value as [|Item Rest].
    + destruct C; reflexivity.
    + destruct C; cbn [emit_C_repeated ItemOf] in *;
        apply for_each_cons_None;
        apply bind_emitTag_invalid_field; assumption.
  - destruct (emit_C_packed Host C) as [emit|] eqn:E; [|discriminate Hrun].
    injection Hrun as <-.
    destruct C; cbn [emit_C_packed ItemOf] in *; try discriminate E;
      injection E as <-; apply bind_emitTag_invalid_field; assumption.
Qed.

Lemma invalid_field_aborts_witness :
  Cpp.representable Cpp.Int64 536870912
  /\ ~ valid_field 536870912
  /\ Builder.emitInt32 536870912 5 [] = None
  /\ Builder.emitInt32Packed (-1) [] [] = None
  /\ Builder.emitInt32Repeated 0 [] [7] = Some (tt, [7]).
Proof.
  assert (H1 : Cpp.representable Cpp.Int64 536870912)
    by (apply representable_Int64; lia).
  assert (H2 : ~ valid_field 536870912)
    by (unfold valid_field, MinField, MaxField; lia).
  assert (H3 : Cpp.representable Cpp.Int64 0)
    by (apply representable_Int64; lia).
  assert (H4 : ~ valid_field 0)
    by (unfold valid_field, MinField, MaxField; lia).
  assert (H5 : Cpp.representable Cpp.Int64 (-1))
    by (apply representable_Int64; lia).
  assert (H6 : ~ valid_field (-1))
    by (unfold valid_field, MinField, MaxField; lia).
  split; [exact H1|]. split; [exact H2|]. split; [|split].
  - exact (proj1 (invalid_field_aborts LittleEndian 536870912 [] H1 H2)
             (Singular CInt32 5) _ eq_refl).
  - exact (proj1 (invalid_field_aborts LittleEndian (-1) [] H5 H6)
             (Packed CInt32 []) _ eq_refl).
  - exact (proj1 (invalid_field_aborts LittleEndian 0 [7] H3 H4)
             (Repeated CInt32 []) _ eq_refl).
Defined.

(** *** The tag in a build without assertions *)

Lemma NDEBUG_Tag (Field : Z) (WType : WireType) :
  Cpp.static_cast Cpp.UInt32
    (Cpp.static_cast Cpp.UInt32 (Z.shiftl (Cpp.static_cast Cpp.UInt32 Field) 3)
     + to_underlying WType)
  = (8 * Field + to_underlying WType) mod 2 ^ 32.
Proof.
  rewrite !static_cast_UInt32, Z.shiftl_mul_pow2 by lia. change (2 ^ 3) with 8.
  rewrite Z.add_mod_idemp_l by lia.
  rewrite (Z.mul_comm (Field mod 2 ^ 32) 8), <- Z.add_mod_idemp_l by lia.
  rewrite Z.mul_mod_idemp_r by lia.
  rewrite Z.add_mod_idemp_l by lia. reflexivity.
Qed.

(** X2.  With [NDEBUG] nothing guards the field number.  [emitTag] never
    aborts and writes the varint of [(8 * Field + WType) mod 2^32]: on a
    valid field number that is what the checked build writes, and field
    numbers that differ by a multiple of 2^29 get the same tag.
    [MaxField + 1] comes out as field number 0 (one byte, the wire-type
    code) and -1 as the five bytes F8 FF FF FF 0F. *)
Theorem emitTag_NDEBUG_wraps (WType : WireType) (Field : Z) :
  appends (NDEBUG.emitTag WType Field)
          (varint_bytes ((8 * Field + to_underlying WType) mod 2 ^ 32))
  /\ (valid_field Field ->
      forall Output,
        NDEBUG.emitTag WType Field Output = Emitter.emitTag WType Field Output)
  /\ (forall k : Z,
         NDEBUG.emitTag WType (Field + k * (MaxField + 1))
         = NDEBUG.emitTag WType Field)
  /\ NDEBUG.emitTag WType (MaxField + 1) [] = Some (tt, [to_underlying WType])
  /\ NDEBUG.emitTag VarInt (-1) [] = Some (tt, [248; 255; 255; 255; 15]).
Proof.
  split; [|split; [|split; [|split]]].
  - unfold NDEBUG.emitTag. cbv zeta. rewrite NDEBUG_Tag.
    apply appends_emitVarIntRaw_varint_bytes.
    pose proof (Z.mod_pos_bound (8 * Field + to_underlying WType) (2 ^ 32)
                  ltac:(lia)). lia.
  - intros Hf Output. unfold Emitter.emitTag, NDEBUG.emitTag.
    unfold bind at 1. rewrite (emitTag_assertion Field Hf). reflexivity.
  - intros k. unfold NDEBUG.emitTag. cbv zeta. rewrite !NDEBUG_Tag.
    f_equal. unfold MaxField.
    replace (8 * (Field + k * (536870911 + 1)) + to_underlying WType)
      with (8 * Field + to_underlying WType + k * 2 ^ 32) by lia.
    apply Z.mod_add. lia.
  - destruct WType; reflexivity.
  - reflexivity.
Qed.

(** *** The shape of a varint *)

Lemma lor_128_range (v : Z) : 128 <= Z.lor (Z.land v 127) 128 < 256.
Proof.
  pose proof (Z.add_lor_land (Z.land v 127) 128) as H.
  rewrite land_127_land_128 in H.
  pose proof (Z.mod_pos_bound v 128 ltac:(lia)).
  rewrite land_127 in *. lia.
Qed.

(** The digits the loop writes: every one but the last carries the
    continuation bit, the last is the top group of the value, and it is not
    zero when other digits precede it. *)
Lemma base128_shape (k : nat) :
  forall v : Z,
    (1 <= k)%nat -> 0 <= v < 2 ^ (7 * Z.of_nat k) ->
    exists Init Last,
      base128 k v = Init ++ [Last]
      /\ Forall (fun Byte => 128 <= Byte < 256) Init
      /\ Last = v / 2 ^ (7 * Z.of_nat (length Init))
      /\ 0 <= Last < 128
      /\ (Init <> [] -> Last <> 0).
Proof.
  induction k as [|k IH]; intros v Hk Hv; [lia|].
  cbn [base128].
  destruct (Z.eqb_spec (Z.shiftr v 7) 0) as [Hz|Hnz].
  - apply shiftr_7_eq_0 in Hz; [|lia].
    exists [], (Z.land v 127). rewrite land_127, Z.mod_small by lia.
    cbn [length app]. change (2 ^ (7 * Z.of_nat 0)) with 1. rewrite Z.div_1_r.
    repeat split; try lia; try constructor. intros H. contradiction.
  - assert (Hk2 : (1 <= k)%nat).
    { destruct k; [|lia]. exfalso. apply Hnz.
      apply shiftr_7_eq_0; [lia|]. change (2 ^ (7 * Z.of_nat 1)) with 128 in Hv.
      lia. }
    destruct (IH (Z.shiftr v 7) Hk2 (shiftr_7_bound v k Hv))
      as (Init & Last & E & HF & HL & HR & HN).
    exists (Z.lor (Z.land v 127) 128 :: Init), Last.
    rewrite E. cbn [app length].
    split; [reflexivity|].
    split; [constructor; [apply lor_128_range | exact HF]|].
    split.
    + rewrite HL, shiftr_7, Z.div_div by lia. f_equal.
      rewrite Nat2Z.inj_succ.
      replace (7 * Z.succ (Z.of_nat (length Init)))
        with (7 + 7 * Z.of_nat (length Init)) by lia.
      rewrite Z.pow_add_r by lia. reflexivity.
    + split; [exact HR|]. intros _.
      destruct Init as [|Byte Init'].
      * cbn [length] in HL. change (2 ^ (7 * Z.of_nat 0)) with 1 in HL.
        rewrite Z.div_1_r in HL. congruence.
      * apply HN. discriminate.
Qed.

(** X3.  What [emitVarIntRaw] writes for a 64-bit value is at most nine
    bytes with the continuation bit (0x80 to 0xFF) and then one byte without
    it (0x00 to 0x7F).  The last byte is zero only when it is the only one
    (no group of zero bits pads the value), and a tenth byte is 0x01, the
    one bit that is left of 64 after nine groups of seven. *)
Theorem emitVarIntRaw_continuation_bits (n : Z) :
  Cpp.representable Cpp.UInt64 n ->
  exists Init Last,
    (forall Output,
        Emitter.emitVarIntRaw n Output = Some (tt, Output ++ Init ++ [Last]))
    /\ Forall (fun Byte => 128 <= Byte < 256) Init
    /\ 0 <= Last < 128
    /\ (length Init <= 9)%nat
    /\ (Init <> [] -> Last <> 0)
    /\ (length Init = 9%nat -> Last = 1).
Proof.
  intros Hn. apply representable_UInt64 in Hn.
  destruct (base128_shape 10 n ltac:(lia) ltac:(simpl; lia))
    as (Init & Last & E & HF & HL & HR & HN).
  exists Init, Last.
  pose proof (base128_length_le 10 n) as Hlen.
  rewrite E, length_app in Hlen. cbn [length] in Hlen.
  split.
  { intros Output. rewrite <- E. apply appends_emitVarIntRaw, Hn. }
  split; [exact HF|]. split; [exact HR|]. split; [lia|]. split; [exact HN|].
  intros H9. rewrite H9 in HL. change (2 ^ (7 * Z.of_nat 9)) with (2 ^ 63) in HL.
  assert (Hne : Last <> 0)
    by (apply HN; destruct Init; [discriminate H9 | discriminate]).
  assert (Last < 2).
  { rewrite HL. apply Z.div_lt_upper_bound; lia. }
  lia.
Qed.

Lemma emitVarIntRaw_continuation_bits_witness :
  Cpp.representable Cpp.UInt64 300
  /\ Emitter.emitVarIntRaw 300 [] = Some (tt, [172; 2])
  /\ exists Init Last,
       Emitter.emitVarIntRaw 300 [] = Some (tt, [] ++ Init ++ [Last])
       /\ Forall (fun Byte => 128 <= Byte < 256) Init
       /\ 0 <= Last < 128.
Proof.
  assert (H : Cpp.representable Cpp.UInt64 300)
    by (apply representable_UInt64; lia).
  split; [exact H|]. split; [reflexivity|].
  destruct (emitVarIntRaw_continuation_bits 300 H)
    as (Init & Last & Hrun & HF & HL & _).
  exists Init, Last. split; [exact (Hrun [])|]. split; [exact HF | exact HL].
Defined.

(** *** Nothing the emitter writes can be read in two ways *)

Lemma app_inj_length {A : Type} (a b c d : list A) :
  length a = length b -> a ++ c = b ++ d -> a = b /\ c = d.
Proof.
  revert b. induction a as [|x a IH]; intros [|y b] Hl E;
    try discriminate Hl.
  - split; [reflexivity | exact E].
  - cbn [app] in E. injection E as -> E. cbn [length] in Hl.
    destruct (IH b ltac:(lia) E) as [-> ->]. split; reflexivity.
Qed.

(** Two varints that begin the same stream are the same varint. *)
Lemma varint_bytes_inj (a b : Z) (Rest1 Rest2 : list Z) :
  0 <= a < 2 ^ 64 -> 0 <= b < 2 ^ 64 ->
  varint_bytes a ++ Rest1 = varint_bytes b ++ Rest2 ->
  a = b /\ Rest1 = Rest2.
Proof.
  intros Ha Hb E.
  pose proof (spec_decode_varint_bytes a Rest1 Ha) as Da.
  pose proof (spec_decode_varint_bytes b Rest2 Hb) as Db.
  rewrite E, Db in Da. split; congruence.
Qed.

(** A tag determines the field number and the wire type. *)
Lemma tag_bytes_inj (W1 W2 : WireType) (F1 F2 : Z) (Rest1 Rest2 : list Z) :
  valid_field F1 -> valid_field F2 ->
  tag_bytes W1 F1 ++ Rest1 = tag_bytes W2 F2 ++ Rest2 ->
  W1 = W2 /\ F1 = F2 /\ Rest1 = Rest2.
Proof.
  intros H1 H2 E.
  rewrite !tag_bytes_eq in E by assumption.
  pose proof (spec_tag_range F1 W1 H1). pose proof (spec_tag_range F2 W2 H2).
  destruct (varint_bytes_inj (spec_tag F1 W1) (spec_tag F2 W2) _ _
              ltac:(lia) ltac:(lia) E) as [Et ER].
  rewrite !spec_tag_add in Et.
  assert (0 <= to_underlying W1 < 8) by (destruct W1; simpl; lia).
  assert (0 <= to_underlying W2 < 8) by (destruct W2; simpl; lia).
  assert (EW : to_underlying W1 = to_underlying W2) by lia.
  split; [|split; [lia | exact ER]].
  destruct W1, W2; try reflexivity; discriminate EW.
Qed.

(** The bytes of an object give its value back, on either host. *)
Lemma little_endian_bytes_inj (Size : nat) :
  forall v1 v2 : Z,
    little_endian_bytes Size v1 = little_endian_bytes Size v2 ->
    v1 mod 2 ^ (8 * Z.of_nat Size) = v2 mod 2 ^ (8 * Z.of_nat Size).
Proof.
  induction Size as [|Size IH]; intros v1 v2 E.
  - change (2 ^ (8 * Z.of_nat 0)) with 1. rewrite !Z.mod_1_r. reflexivity.
  - cbn [little_endian_bytes] in E. injection E as E0 E1.
    apply IH in E1. rewrite !land_255 in E0.
    rewrite !Z.shiftr_div_pow2 in E1 by lia. change (2 ^ 8) with 256 in E1.
    replace (2 ^ (8 * Z.of_nat (S Size)))
      with (256 * 2 ^ (8 * Z.of_nat Size)).
    + assert (0 < 2 ^ (8 * Z.of_nat Size)) by (apply Z.pow_pos_nonneg; lia).
      rewrite !Z.rem_mul_r by lia. rewrite E0, E1. reflexivity.
    + rewrite Nat2Z.inj_succ.
      replace (8 * Z.succ (Z.of_nat Size)) with (8 + 8 * Z.of_nat Size) by lia.
      rewrite Z.pow_add_r by lia. reflexivity.
Qed.

Lemma object_representation_inj (Host : Endianness) (Size : nat) (v1 v2 : Z) :
  0 <= v1 < 2 ^ (8 * Z.of_nat Size) -> 0 <= v2 < 2 ^ (8 * Z.of_nat Size) ->
  object_representation Host Size v1 = object_representation Host Size v2 ->
  v1 = v2.
Proof.
  intros H1 H2 E.
  assert (E' : little_endian_bytes Size v1 = little_endian_bytes Size v2).
  { destruct Host; cbn [object_representation] in E; [exact E|].
    apply (f_equal (@rev Z)) in E. rewrite !rev_involutive in E. exact E. }
  apply little_endian_bytes_inj in E'.
  rewrite !Z.mod_small in E' by assumption. exact E'.
Qed.

Lemma convertToZigZag_inj (n1 n2 : Z) :
  Cpp.representable Cpp.Int64 n1 -> Cpp.representable Cpp.Int64 n2 ->
  convertToZigZag n1 = convertToZigZag n2 -> n1 = n2.
Proof.
  intros H1 H2. rewrite !convertToZigZag_closed by assumption.
  destruct (Z.geb_spec n1 0), (Z.geb_spec n2 0); lia.
Qed.

(** A conversion to [std::uint64_t] keeps the values of any one integer
    type apart; so does one to [std::uint32_t] for a type of at most 32
    bits. *)
Lemma static_cast_UInt64_inj (T : Cpp.IntType) (v1 v2 : Z) :
  Cpp.representable T v1 -> Cpp.representable T v2 ->
  Cpp.static_cast Cpp.UInt64 v1 = Cpp.static_cast Cpp.UInt64 v2 -> v1 = v2.
Proof.
  unfold Cpp.representable, Cpp.numeric_limits_min, Cpp.numeric_limits_max.
  rewrite !static_cast_UInt64. intros H1 H2 E.
  pose proof (Z.div_mod v1 (2 ^ 64) ltac:(lia)) as D1.
  pose proof (Z.div_mod v2 (2 ^ 64) ltac:(lia)) as D2.
  pose proof (Z.mod_pos_bound v1 (2 ^ 64) ltac:(lia)) as M1.
  pose proof (Z.mod_pos_bound v2 (2 ^ 64) ltac:(lia)) as M2.
  destruct T; cbn [Cpp.is_signed Cpp.width] in *; lia.
Qed.

Lemma static_cast_UInt32_inj (T : Cpp.IntType) (v1 v2 : Z) :
  Cpp.width T <= 32 ->
  Cpp.representable T v1 -> Cpp.representable T v2 ->
  Cpp.static_cast Cpp.UInt32 v1 = Cpp.static_cast Cpp.UInt32 v2 -> v1 = v2.
Proof.
  unfold Cpp.representable, Cpp.numeric_limits_min, Cpp.numeric_limits_max.
  rewrite !static_cast_UInt32. intros Hw H1 H2 E.
  pose proof (Z.div_mod v1 (2 ^ 32) ltac:(lia)) as D1.
  pose proof (Z.div_mod v2 (2 ^ 32) ltac:(lia)) as D2.
  pose proof (Z.mod_pos_bound v1 (2 ^ 32) ltac:(lia)) as M1.
  pose proof (Z.mod_pos_bound v2 (2 ^ 32) ltac:(lia)) as M2.
  destruct T; cbn [Cpp.is_signed Cpp.width] in *; lia.
Qed.

(** The characters of a string as bytes. *)
Lemma StringRef_bytes_inj (s1 s2 : String.string) :
  StringRef_bytes s1 = StringRef_bytes s2 -> s1 = s2.
Proof.
  unfold StringRef_bytes. intros E.
  rewrite <- (String.string_of_list_ascii_of_string s1).
  rewrite <- (String.string_of_list_ascii_of_string s2).
  f_equal.
  revert E. generalize (String.list_ascii_of_string s2).
  induction (String.list_ascii_of_string s1) as [|c1 l1 IH];
    intros [|c2 l2] E; try discriminate E; [reflexivity|].
  cbn [map] in E. injection E as Ec El.
  apply N2Z.inj in Ec.
  rewrite <- (Ascii.ascii_N_embedding c1), <- (Ascii.ascii_N_embedding c2), Ec.
  f_equal. apply IH, El.
Qed.

Lemma StringRef_bytes_length (s : String.string) :
  length (StringRef_bytes s) = String.length s.
Proof.
  unfold StringRef_bytes. rewrite length_map.
  induction s as [|c s IH];
    cbn [String.list_ascii_of_string String.length length];
    [reflexivity | now rewrite IH].
Qed.

Lemma StringRef_bytes_range (s : String.string) :
  Forall (fun Byte => 0 <= Byte < 256) (StringRef_bytes s).
Proof.
  unfold StringRef_bytes. apply Forall_map, Forall_forall. intros c _.
  pose proof (Ascii.N_ascii_bounded c). lia.
Qed.

(** The bytes of the five primary records. *)
Lemma bytes_of_emitVarInt (Field Value : Z) :
  valid_field Field -> 0 <= Value < 2 ^ 64 ->
  bytes_of (Emitter.emitVarInt Field Value)
  = tag_bytes VarInt Field ++ varint_bytes Value.
Proof. intros Hf Hv. apply appends_bytes_of, appends_emitVarInt; assumption. Qed.

Lemma bytes_of_emitSignedVarInt (Field Value : Z) :
  valid_field Field ->
  bytes_of (Emitter.emitSignedVarInt Field Value)
  = tag_bytes VarInt Field ++ varint_bytes (convertToZigZag Value).
Proof. intros Hf. apply appends_bytes_of, appends_emitSignedVarInt, Hf. Qed.

(** The length of [emitLen] is a [std::size_t]: no length wraps. *)
Lemma appends_emitLen_length (Field : Z) (Value : list Z) :
  valid_field Field ->
  Z.of_nat (length Value) <= Cpp.numeric_limits_max Cpp.UInt64 ->
  appends (Emitter.emitLen Field Value)
          (tag_bytes LengthDelimited Field
           ++ varint_bytes (Z.of_nat (length Value)) ++ Value).
Proof.
  intros Hf Hl. pose proof (appends_emitLen Field Value Hf) as H.
  change (Cpp.numeric_limits_max Cpp.UInt64) with (2 ^ 64 - 1) in Hl.
  rewrite static_cast_representable in H by (apply representable_UInt64; lia).
  exact H.
Qed.

Lemma bytes_of_emitLen (Field : Z) (Value : list Z) :
  valid_field Field ->
  Z.of_nat (length Value) <= Cpp.numeric_limits_max Cpp.UInt64 ->
  bytes_of (Emitter.emitLen Field Value)
  = tag_bytes LengthDelimited Field
    ++ varint_bytes (Z.of_nat (length Value)) ++ Value.
Proof.
  intros Hf Hl. apply appends_bytes_of, appends_emitLen_length; assumption.
Qed.

Lemma bytes_of_emitI32 (Host : Endianness) (Field Value : Z) :
  valid_field Field ->
  bytes_of (Emitter.emitI32 Host Field Value)
  = tag_bytes I32 Field ++ object_representation Host 4 Value.
Proof. intros Hf. apply appends_bytes_of, appends_emitI32, Hf. Qed.

Lemma bytes_of_emitI64 (Host : Endianness) (Field Value : Z) :
  valid_field Field ->
  bytes_of (Emitter.emitI64 Host Field Value)
  = tag_bytes I64 Field ++ object_representation Host 8 Value.
Proof. intros Hf. apply appends_bytes_of, appends_emitI64, Hf. Qed.

Section SelfDelimiting.

(** Two records, each followed by anything, that are the same stream. *)
Variable Host : Endianness.
Variables Field1 Field2 : Z.
Variables Rest1 Rest2 : list Z.
Hypothesis Hf1 : valid_field Field1.
Hypothesis Hf2 : valid_field Field2.

Lemma emitVarInt_inj (v1 v2 : Z) :
  0 <= v1 < 2 ^ 64 -> 0 <= v2 < 2 ^ 64 ->
  bytes_of (Emitter.emitVarInt Field1 v1) ++ Rest1
  = bytes_of (Emitter.emitVarInt Field2 v2) ++ Rest2 ->
  Field1 = Field2 /\ v1 = v2 /\ Rest1 = Rest2.
Proof.
  intros H1 H2 E. rewrite !bytes_of_emitVarInt in E by assumption.
  rewrite <- !app_assoc in E.
  destruct (tag_bytes_inj _ _ _ _ _ _ Hf1 Hf2 E) as (_ & EF & E').
  destruct (varint_bytes_inj _ _ _ _ H1 H2 E') as [Ev ER].
  repeat split; assumption.
Qed.

Lemma emitSignedVarInt_inj (v1 v2 : Z) :
  Cpp.representable Cpp.Int64 v1 -> Cpp.representable Cpp.Int64 v2 ->
  bytes_of (Emitter.emitSignedVarInt Field1 v1) ++ Rest1
  = bytes_of (Emitter.emitSignedVarInt Field2 v2) ++ Rest2 ->
  Field1 = Field2 /\ v1 = v2 /\ Rest1 = Rest2.
Proof.
  intros H1 H2 E. rewrite !bytes_of_emitSignedVarInt in E by assumption.
  rewrite <- !app_assoc in E.
  destruct (tag_bytes_inj _ _ _ _ _ _ Hf1 Hf2 E) as (_ & EF & E').
  destruct (varint_bytes_inj _ _ _ _ (convertToZigZag_range v1)
              (convertToZigZag_range v2) E') as [Ev ER].
  split; [exact EF|]. split; [|exact ER].
  apply convertToZigZag_inj; assumption.
Qed.

Lemma emitLen_inj (b1 b2 : list Z) :
  Z.of_nat (length b1) <= Cpp.numeric_limits_max Cpp.UInt64 ->
  Z.of_nat (length b2) <= Cpp.numeric_limits_max Cpp.UInt64 ->
  bytes_of (Emitter.emitLen Field1 b1) ++ Rest1
  = bytes_of (Emitter.emitLen Field2 b2) ++ Rest2 ->
  Field1 = Field2 /\ b1 = b2 /\ Rest1 = Rest2.
Proof.
  intros H1 H2 E. rewrite !bytes_of_emitLen in E by assumption.
  change (Cpp.numeric_limits_max Cpp.UInt64) with (2 ^ 64 - 1) in H1, H2.
  rewrite <- !app_assoc in E.
  destruct (tag_bytes_inj _ _ _ _ _ _ Hf1 Hf2 E) as (_ & EF & E').
  destruct (varint_bytes_inj (Z.of_nat (length b1)) (Z.of_nat (length b2))
              _ _ ltac:(lia) ltac:(lia) E') as [El E''].
  apply Nat2Z.inj in El.
  destruct (app_inj_length _ _ _ _ El E'') as [Eb ER].
  repeat split; assumption.
Qed.

Lemma emitI32_inj (v1 v2 : Z) :
  0 <= v1 < 2 ^ 32 -> 0 <= v2 < 2 ^ 32 ->
  bytes_of (Emitter.emitI32 Host Field1 v1) ++ Rest1
  = bytes_of (Emitter.emitI32 Host Field2 v2) ++ Rest2 ->
  Field1 = Field2 /\ v1 = v2 /\ Rest1 = Rest2.
Proof.
  intros H1 H2 E. rewrite !bytes_of_emitI32 in E by assumption.
  rewrite <- !app_assoc in E.
  destruct (tag_bytes_inj _ _ _ _ _ _ Hf1 Hf2 E) as (_ & EF & E').
  destruct (app_inj_length _ _ _ _
              ltac:(rewrite !object_representation_length; reflexivity) E')
    as [Ev ER].
  split; [exact EF|]. split; [|exact ER].
  apply (object_representation_inj Host 4); assumption.
Qed.

Lemma emitI64_inj (v1 v2 : Z) :
  0 <= v1 < 2 ^ 64 -> 0 <= v2 < 2 ^ 64 ->
  bytes_of (Emitter.emitI64 Host Field1 v1) ++ Rest1
  = bytes_of (Emitter.emitI64 Host Field2 v2) ++ Rest2 ->
  Field1 = Field2 /\ v1 = v2 /\ Rest1 = Rest2.
Proof.
  intros H1 H2 E. rewrite !bytes_of_emitI64 in E by assumption.
  rewrite <- !app_assoc in E.
  destruct (tag_bytes_inj _ _ _ _ _ _ Hf1 Hf2 E) as (_ & EF & E').
  destruct (app_inj_length _ _ _ _
              ltac:(rewrite !object_representation_length; reflexivity) E')
    as [Ev ER].
  split; [exact EF|]. split; [|exact ER].
  apply (object_representation_inj Host 8); assumption.
Qed.

(** The varint functions of the builder convert their argument to
    [std::uint64_t] on the way. *)
Lemma emitVarInt_static_cast_inj (T : Cpp.IntType) (v1 v2 : Z) :
  Cpp.representable T v1 -> Cpp.representable T v2 ->
  bytes_of (Emitter.emitVarInt Field1 (Cpp.static_cast Cpp.UInt64 v1)) ++ Rest1
  = bytes_of (Emitter.emitVarInt Field2 (Cpp.static_cast Cpp.UInt64 v2))
    ++ Rest2 ->
  Field1 = Field2 /\ v1 = v2 /\ Rest1 = Rest2.
Proof.
  intros H1 H2 E.
  destruct (emitVarInt_inj _ _ (static_cast_UInt64_range v1)
              (static_cast_UInt64_range v2) E) as (EF & Ev & ER).
  split; [exact EF|]. split; [|exact ER].
  apply (static_cast_UInt64_inj T); assumption.
Qed.

End SelfDelimiting.

(** X4.  What the emitter writes is self-delimiting and injective.  When
    the varints of two 64-bit values, each followed by anything, are the
    same stream, the values are equal and so is what follows: no varint is
    a proper prefix of another.  A tag gives the field number and the wire
    type back.  And when two records on valid field numbers, each followed
    by anything, are the same stream, they have the same field number and
    the same value and are followed by the same bytes: for [emitVarInt] on
    64-bit values, [emitSignedVarInt] on signed 64-bit values, [emitLen] on
    byte sequences, [emitI32] on 32-bit and [emitI64] on 64-bit values, on
    a host of either byte order. *)
Theorem records_self_delimiting (Host : Endianness) (Field1 Field2 : Z)
  (Rest1 Rest2 : list Z) :
  valid_field Field1 -> valid_field Field2 ->
  (forall a b,
      Cpp.representable Cpp.UInt64 a -> Cpp.representable Cpp.UInt64 b ->
      bytes_of (Emitter.emitVarIntRaw a) ++ Rest1
      = bytes_of (Emitter.emitVarIntRaw b) ++ Rest2 ->
      a = b /\ Rest1 = Rest2)
  /\ (forall W1 W2,
         tag_bytes W1 Field1 ++ Rest1 = tag_bytes W2 Field2 ++ Rest2 ->
         W1 = W2 /\ Field1 = Field2 /\ Rest1 = Rest2)
  /\ (forall v1 v2,
         Cpp.representable Cpp.UInt64 v1 -> Cpp.representable Cpp.UInt64 v2 ->
         bytes_of (Emitter.emitVarInt Field1 v1) ++ Rest1
         = bytes_of (Emitter.emitVarInt Field2 v2) ++ Rest2 ->
         Field1 = Field2 /\ v1 = v2 /\ Rest1 = Rest2)
  /\ (forall v1 v2,
         Cpp.representable Cpp.Int64 v1 -> Cpp.representable Cpp.Int64 v2 ->
         bytes_of (Emitter.emitSignedVarInt Field1 v1) ++ Rest1
         = bytes_of (Emitter.emitSignedVarInt Field2 v2) ++ Rest2 ->
         Field1 = Field2 /\ v1 = v2 /\ Rest1 = Rest2)
  /\ (forall b1 b2,
         Z.of_nat (length b1) <= Cpp.numeric_limits_max Cpp.UInt64 ->
         Z.of_nat (length b2) <= Cpp.numeric_limits_max Cpp.UInt64 ->
         bytes_of (Emitter.emitLen Field1 b1) ++ Rest1
         = bytes_of (Emitter.emitLen Field2 b2) ++ Rest2 ->
         Field1 = Field2 /\ b1 = b2 /\ Rest1 = Rest2)
  /\ (forall v1 v2,
         Cpp.representable Cpp.UInt32 v1 -> Cpp.representable Cpp.UInt32 v2 ->
         bytes_of (Emitter.emitI32 Host Field1 v1) ++ Rest1
         = bytes_of (Emitter.emitI32 Host Field2 v2) ++ Rest2 ->
         Field1 = Field2 /\ v1 = v2 /\ Rest1 = Rest2)
  /\ (forall v1 v2,
         Cpp.representable Cpp.UInt64 v1 -> Cpp.representable Cpp.UInt64 v2 ->
         bytes_of (Emitter.emitI64 Host Field1 v1) ++ Rest1
         = bytes_of (Emitter.emitI64 Host Field2 v2) ++ Rest2 ->
         Field1 = Field2 /\ v1 = v2 /\ Rest1 = Rest2).
Proof.
  intros Hf1 Hf2.
  split.
  { intros a b Ha Hb.
    apply varint_bytes_inj; apply representable_UInt64; assumption. }
  split; [intros W1 W2; apply tag_bytes_inj; assumption|].
  split.
  { intros v1 v2 H1 H2.
    apply emitVarInt_inj; try assumption; apply representable_UInt64;
      assumption. }
  split; [intros v1 v2; apply emitSignedVarInt_inj; assumption|].
  split; [intros b1 b2; apply emitLen_inj; assumption|].
  split.
  { intros v1 v2 H1 H2.
    apply emitI32_inj; try assumption; apply representable_UInt32;
      assumption. }
  intros v1 v2 H1 H2.
  apply emitI64_inj; try assumption; apply representable_UInt64; assumption.
Qed.

Lemma records_self_delimiting_witness :
  valid_field 1
  /\ bytes_of (Emitter.emitVarInt 1 300) ++ [16; 1] = [8; 172; 2; 16; 1]
  /\ (forall v1 v2,
         Cpp.representable Cpp.UInt64 v1 -> Cpp.representable Cpp.UInt64 v2 ->
         bytes_of (Emitter.emitVarInt 1 v1) ++ [16; 1]
         = bytes_of (Emitter.emitVarInt 1 v2) ++ [16; 1] ->
         1 = 1 /\ v1 = v2 /\ [16; 1] = [16; 1]).
Proof.
  split; [exact valid_field_1|]. split; [reflexivity|].
  destruct (records_self_delimiting LittleEndian 1 1 [16; 1] [16; 1]
              valid_field_1 valid_field_1) as (_ & _ & H & _).
  exact H.
Defined.

(** X5.  The scalar functions of the builder lose nothing.  For each of
    [emitInt32], [emitInt64], [emitUInt32], [emitUInt64], [emitSInt32],
    [emitSInt64], [emitFixed32], [emitFixed64], [emitSFixed32] and
    [emitSFixed64] on the values of its parameter type, for [emitBool] and
    for [emitString]: when two records, each followed by anything, are the
    same stream, they have the same field number and the same value (the
    conversions on the way to the emitter, sign extension and ZigZag among
    them, merge no two values), and what follows is the same.  For
    [emitFloat] and [emitDouble] the value is the bit pattern. *)
Theorem builder_scalars_injective (Host : Endianness) (Field1 Field2 : Z)
  (Rest1 Rest2 : list Z) :
  valid_field Field1 -> valid_field Field2 ->
  (forall emit T,
      In (emit, T)
         [(Builder.emitInt32, Cpp.Int32); (Builder.emitInt64, Cpp.Int64);
          (Builder.emitUInt32, Cpp.UInt32); (Builder.emitUInt64, Cpp.UInt64);
          (Builder.emitSInt32, Cpp.Int32); (Builder.emitSInt64, Cpp.Int64);
          (Builder.emitFixed32 Host, Cpp.UInt32);
          (Builder.emitFixed64 Host, Cpp.UInt64);
          (Builder.emitSFixed32 Host, Cpp.Int32);
          (Builder.emitSFixed64 Host, Cpp.Int64)] ->
      forall v1 v2,
        Cpp.representable T v1 -> Cpp.representable T v2 ->
        bytes_of (emit Field1 v1) ++ Rest1 = bytes_of (emit Field2 v2) ++ Rest2 ->
        Field1 = Field2 /\ v1 = v2 /\ Rest1 = Rest2)
  /\ (forall b1 b2 : bool,
         bytes_of (Builder.emitBool Field1 b1) ++ Rest1
         = bytes_of (Builder.emitBool Field2 b2) ++ Rest2 ->
         Field1 = Field2 /\ b1 = b2 /\ Rest1 = Rest2)
  /\ (forall s1 s2 : String.string,
         Z.of_nat (String.length s1) <= Cpp.numeric_limits_max Cpp.UInt64 ->
         Z.of_nat (String.length s2) <= Cpp.numeric_limits_max Cpp.UInt64 ->
         bytes_of (Builder.emitString Field1 s1) ++ Rest1
         = bytes_of (Builder.emitString Field2 s2) ++ Rest2 ->
         Field1 = Field2 /\ s1 = s2 /\ Rest1 = Rest2)
  /\ (forall x1 x2 : float,
         bytes_of (Builder.emitFloat Host Field1 x1) ++ Rest1
         = bytes_of (Builder.emitFloat Host Field2 x2) ++ Rest2 ->
         Field1 = Field2 /\ bit_cast_uint32 x1 = bit_cast_uint32 x2
         /\ Rest1 = Rest2)
  /\ (forall x1 x2 : double,
         bytes_of (Builder.emitDouble Host Field1 x1) ++ Rest1
         = bytes_of (Builder.emitDouble Host Field2 x2) ++ Rest2 ->
         Field1 = Field2 /\ bit_cast_uint64 x1 = bit_cast_uint64 x2
         /\ Rest1 = Rest2).
Proof.
  intros Hf1 Hf2.
  pose proof (emitVarInt_static_cast_inj Field1 Field2 Rest1 Rest2 Hf1 Hf2)
    as Hvar.
  pose proof (emitSignedVarInt_inj Field1 Field2 Rest1 Rest2 Hf1 Hf2) as Hsig.
  pose proof (emitI32_inj Host Field1 Field2 Rest1 Rest2 Hf1 Hf2) as H32.
  pose proof (emitI64_inj Host Field1 Field2 Rest1 Rest2 Hf1 Hf2) as H64.
  split.
  { intros emit T HIn v1 v2 H1 H2 E.
    cbn [In] in HIn.
    repeat (destruct HIn as [HIn|HIn];
            [injection HIn as <- <-; revert E | ]); [..|contradiction].
    - (* int32 *) apply (Hvar Cpp.Int32); assumption.
    - (* int64 *) apply (Hvar Cpp.Int64); assumption.
    - (* uint32 *) apply (Hvar Cpp.UInt32); assumption.
    - (* uint64 *)
      unfold Builder.emitUInt64.
      rewrite <- (static_cast_representable Cpp.UInt64 v1 H1) at 1.
      rewrite <- (static_cast_representable Cpp.UInt64 v2 H2) at 1.
      apply (Hvar Cpp.UInt64); assumption.
    - (* sint32 *)
      unfold Builder.emitSInt32.
      assert (R1 : Cpp.representable Cpp.Int64 v1)
        by (apply representable_Int64; apply representable_Int32 in H1; lia).
      assert (R2 : Cpp.representable Cpp.Int64 v2)
        by (apply representable_Int64; apply representable_Int32 in H2; lia).
      rewrite !static_cast_representable by assumption.
      apply Hsig; assumption.
    - (* sint64 *) apply Hsig; assumption.
    - (* fixed32 *) apply H32; apply representable_UInt32; assumption.
    - (* fixed64 *) apply H64; apply representable_UInt64; assumption.
    - (* sfixed32 *)
      unfold Builder.emitSFixed32. intros E.
      destruct (H32 _ _ (static_cast_UInt32_range v1)
                  (static_cast_UInt32_range v2) E) as (EF & Ev & ER).
      split; [exact EF|]. split; [|exact ER].
      apply (static_cast_UInt32_inj Cpp.Int32); try assumption.
      cbn [Cpp.width]. lia.
    - (* sfixed64 *)
      unfold Builder.emitSFixed64. intros E.
      destruct (H64 _ _ (static_cast_UInt64_range v1)
                  (static_cast_UInt64_range v2) E) as (EF & Ev & ER).
      split; [exact EF|]. split; [|exact ER].
      apply (static_cast_UInt64_inj Cpp.Int64); assumption. }
  split.
  { intros b1 b2 E. unfold Builder.emitBool in E.
    assert (Hb : forall b : bool, Cpp.representable Cpp.UInt8 (Z.b2z b)).
    { intros []; unfold Cpp.representable, Cpp.numeric_limits_min,
        Cpp.numeric_limits_max; cbn; lia. }
    destruct (Hvar Cpp.UInt8 _ _ (Hb b1) (Hb b2) E) as (EF & Ev & ER).
    split; [exact EF|]. split; [|exact ER].
    destruct b1, b2; try reflexivity; discriminate Ev. }
  split.
  { intros s1 s2 H1 H2 E.
    unfold Builder.emitString, Emitter.emitLen_StringRef, toIntegral in E.
    rewrite <- StringRef_bytes_length in H1, H2.
    destruct (emitLen_inj Field1 Field2 Rest1 Rest2 Hf1 Hf2 _ _ H1 H2 E)
      as (EF & Eb & ER).
    split; [exact EF|]. split; [|exact ER].
    apply StringRef_bytes_inj, Eb. }
  split.
  { intros x1 x2 E.
    unfold Builder.emitFloat, Emitter.emitI32_float, toIntegral in E.
    apply H32; [apply static_cast_UInt32_range .. | exact E]. }
  intros x1 x2 E.
  unfold Builder.emitDouble, Emitter.emitI64_double, toIntegral in E.
  apply H64; [apply static_cast_UInt64_range .. | exact E].
Qed.

Lemma builder_scalars_injective_witness :
  valid_field 1
  /\ bytes_of (Builder.emitSInt32 1 (-2)) ++ [16; 1] = [8; 3; 16; 1]
  /\ (forall v1 v2,
         Cpp.representable Cpp.Int32 v1 -> Cpp.representable Cpp.Int32 v2 ->
         bytes_of (Builder.emitSInt32 1 v1) ++ [16; 1]
         = bytes_of (Builder.emitSInt32 1 v2) ++ [16; 1] ->
         1 = 1 /\ v1 = v2 /\ [16; 1] = [16; 1]).
Proof.
  split; [exact valid_field_1|]. split; [reflexivity|].
  destruct (builder_scalars_injective LittleEndian 1 1 [16; 1] [16; 1]
              valid_field_1 valid_field_1) as (H & _).
  apply (H Builder.emitSInt32 Cpp.Int32).
  cbn [In]. do 4 right. left. reflexivity.
Defined.

(** *** Sizes *)

(** X6.  The tag of a valid field number takes one byte for the field
    numbers 1 to 15, two up to 2047, three up to 262143, four up to
    33554431 and five above, whatever the wire type; it never takes more
    than five. *)
Theorem emitTag_length (WType : WireType) (Field : Z) :
  valid_field Field ->
  appends (Emitter.emitTag WType Field) (tag_bytes WType Field)
  /\ (1 <= length (tag_bytes WType Field) <= 5)%nat
  /\ (length (tag_bytes WType Field) = 1%nat <-> Field <= 15)
  /\ (length (tag_bytes WType Field) = 2%nat <-> 16 <= Field <= 2047)
  /\ (length (tag_bytes WType Field) = 3%nat <-> 2048 <= Field <= 262143)
  /\ (length (tag_bytes WType Field) = 4%nat <-> 262144 <= Field <= 33554431)
  /\ (length (tag_bytes WType Field) = 5%nat <-> 33554432 <= Field).
Proof.
  intros Hf. split; [apply appends_emitTag_tag_bytes, Hf|].
  pose proof (spec_tag_range Field WType Hf) as Hr.
  pose proof (varint_bytes_length (spec_tag Field WType) ltac:(lia)) as Hlen.
  rewrite <- (tag_bytes_eq WType Field Hf) in Hlen.
  destruct (calculateVarIntLength_bounds (spec_tag Field WType) ltac:(lia))
    as (Hb & Hup & Hlow).
  rewrite spec_tag_add in *.
  assert (Hw : 0 <= to_underlying WType < 8) by (destruct WType; simpl; lia).
  unfold valid_field, MinField, MaxField in Hf.
  remember (8 * Field + to_underlying WType) as t eqn:Ht.
  set (L := length (tag_bytes WType Field)) in *.
  set (c := calculateVarIntLength t) in *.
  assert (Hc : c = 1 \/ c = 2 \/ c = 3 \/ c = 4 \/ c = 5 \/ 6 <= c) by lia.
  destruct Hc as [Hc|[Hc|[Hc|[Hc|[Hc|Hc]]]]].
  1-5: rewrite Hc in Hup, Hlow; cbn in Hup, Hlow; lia.
  exfalso. specialize (Hlow ltac:(lia)).
  assert (2 ^ 35 <= 2 ^ (7 * (c - 1))) by (apply Z.pow_le_mono_r; lia).
  lia.
Qed.

Lemma emitTag_length_witness :
  valid_field 100000
  /\ Emitter.emitTag VarInt 100000 [] = Some (tt, [128; 234; 48])
  /\ length (tag_bytes VarInt 100000) = 3%nat.
Proof.
  assert (Hf : valid_field 100000)
    by (unfold valid_field, MinField, MaxField; lia).
  destruct (emitTag_length VarInt 100000 Hf) as (Hrun & _ & _ & _ & H3 & _).
  split; [exact Hf|]. split; [exact (Hrun [])|].
  apply H3. lia.
Defined.

(** X7.  The cascade of [calculateVarIntLength] counts the groups of seven
    bits up to the highest set bit: on a 64-bit value it is
    [floor(log2 n / 7) + 1] (1 for 0).  It is at most [k], for [k] up to 9,
    exactly on the values below 2^(7k); it lies between 1 and 10; and it
    never decreases when the value grows. *)
Theorem calculateVarIntLength_log2 :
  (forall n, Cpp.representable Cpp.UInt64 n ->
     calculateVarIntLength n = Z.log2 n / 7 + 1)
  /\ (forall n k, 0 <= n -> 1 <= k <= 9 ->
        (calculateVarIntLength n <= k <-> n < 2 ^ (7 * k)))
  /\ (forall n, 0 <= n -> 1 <= calculateVarIntLength n <= 10)
  /\ (forall a b, 0 <= a <= b ->
        calculateVarIntLength a <= calculateVarIntLength b).
Proof.
  split; [|split; [|split]].
  - intros n Hn. apply representable_UInt64 in Hn.
    destruct (calculateVarIntLength_bounds n ltac:(lia)) as (Hb & Hup & Hlow).
    set (c := calculateVarIntLength n) in *.
    destruct (Z.eq_dec n 0) as [->|Hn0]; [reflexivity|].
    assert (Hlo : 7 * (c - 1) <= Z.log2 n).
    { destruct (Z.eq_dec c 1) as [->|Hc1]; [apply Z.log2_nonneg|].
      apply Z.log2_le_pow2; [lia|]. apply Hlow. lia. }
    assert (Hhi : Z.log2 n < 7 * c).
    { destruct (Z_lt_le_dec c 10) as [Hc|Hc].
      - apply Z.log2_lt_pow2; [lia|]. apply Hup, Hc.
      - assert (Z.log2 n < 64) by (apply Z.log2_lt_pow2; lia). lia. }
    assert (Z.log2 n / 7 = c - 1); [|lia].
    symmetry.
    apply (Z.div_unique (Z.log2 n) 7 (c - 1) (Z.log2 n - 7 * (c - 1))); lia.
  - intros n k Hn Hk. split; intros H.
    + destruct (Z_lt_le_dec n (2 ^ (7 * k))) as [|Hge]; [assumption|].
      pose proof (calculateVarIntLength_gt n k ltac:(lia) Hge). lia.
    + apply calculateVarIntLength_le; lia.
  - intros n Hn. apply calculateVarIntLength_bounds, Hn.
  - intros a b Hab.
    destruct (calculateVarIntLength_bounds a ltac:(lia)) as (Ha & _ & Hlow).
    destruct (Z.eq_dec (calculateVarIntLength a) 1) as [H1|H1].
    + pose proof (calculateVarIntLength_bounds b ltac:(lia)). lia.
    + pose proof (calculateVarIntLength_gt b (calculateVarIntLength a - 1)
                    ltac:(lia) ltac:(lia)). lia.
Qed.

(** *** ZigZag *)

Lemma convertToZigZag_below (n k : Z) :
  Cpp.representable Cpp.Int64 n -> 1 <= k ->
  (convertToZigZag n < 2 ^ k <-> - 2 ^ (k - 1) <= n < 2 ^ (k - 1)).
Proof.
  intros Hn Hk. rewrite (convertToZigZag_closed n Hn).
  assert (Hp : 2 ^ k = 2 * 2 ^ (k - 1)).
  { replace k with (1 + (k - 1)) at 1 by lia. rewrite Z.pow_add_r by lia.
    reflexivity. }
  assert (0 < 2 ^ (k - 1)) by (apply Z.pow_pos_nonneg; lia).
  destruct (Z.geb_spec n 0); lia.
Qed.

(** X8.  [emitSInt64] (and [emitSInt32] on an [int32_t], which is the same
    emission) writes the tag and the varint of the ZigZag image, which is
    [2|n|] or [2|n| - 1]: the payload has at most [k] bytes, for [k] up to
    9, exactly when [-2^(7k-1) <= n < 2^(7k-1)].  One byte holds -64 to 63,
    and no [int32_t] takes more than five, where [emitInt32] takes ten for
    every negative value. *)
Theorem emitSInt_length (Field n : Z) :
  valid_field Field ->
  Cpp.representable Cpp.Int64 n ->
  appends (Builder.emitSInt64 Field n)
          (tag_bytes VarInt Field ++ varint_bytes (convertToZigZag n))
  /\ (Cpp.representable Cpp.Int32 n ->
      Builder.emitSInt32 Field n = Builder.emitSInt64 Field n
      /\ (length (varint_bytes (convertToZigZag n)) <= 5)%nat)
  /\ 2 * Z.abs n - 1 <= convertToZigZag n <= 2 * Z.abs n
  /\ (forall k, 1 <= k <= 9 ->
        (Z.of_nat (length (varint_bytes (convertToZigZag n))) <= k
         <-> - 2 ^ (7 * k - 1) <= n < 2 ^ (7 * k - 1))).
Proof.
  intros Hf Hn.
  pose proof (convertToZigZag_range n) as Hz.
  pose proof (varint_bytes_length _ Hz) as Hlen.
  assert (Hk : forall k, 1 <= k <= 9 ->
            (Z.of_nat (length (varint_bytes (convertToZigZag n))) <= k
             <-> - 2 ^ (7 * k - 1) <= n < 2 ^ (7 * k - 1))).
  { intros k Hk. rewrite Hlen.
    rewrite <- (convertToZigZag_below n (7 * k) Hn) by lia.
    split; intros H.
    - destruct (Z_lt_le_dec (convertToZigZag n) (2 ^ (7 * k))) as [|Hge];
        [assumption|].
      pose proof (calculateVarIntLength_gt _ k ltac:(lia) Hge). lia.
    - apply calculateVarIntLength_le; lia. }
  split; [apply appends_emitSignedVarInt, Hf|].
  split.
  { intros H32. split.
    - unfold Builder.emitSInt32, Builder.emitSInt64.
      rewrite static_cast_representable by exact Hn. reflexivity.
    - apply representable_Int32 in H32.
      pose proof (proj2 (Hk 5 ltac:(lia))) as H5.
      change (7 * 5 - 1) with 34 in H5. lia. }
  split; [|exact Hk].
  rewrite (convertToZigZag_closed n Hn).
  destruct (Z.geb_spec n 0); lia.
Qed.

Lemma emitSInt_length_witness :
  valid_field 1
  /\ Cpp.representable Cpp.Int64 (-64)
  /\ Builder.emitSInt64 1 (-64) [] = Some (tt, [8; 127])
  /\ (Z.of_nat (length (varint_bytes (convertToZigZag (-64)))) <= 1
      <-> - 2 ^ (7 * 1 - 1) <= -64 < 2 ^ (7 * 1 - 1)).
Proof.
  assert (Hn : Cpp.representable Cpp.Int64 (-64))
    by (apply representable_Int64; lia).
  destruct (emitSInt_length 1 (-64) valid_field_1 Hn) as (Hrun & _ & _ & Hk).
  split; [exact valid_field_1|]. split; [exact Hn|].
  split; [exact (Hrun [])|].
  apply Hk. lia.
Defined.

Lemma rotate_left_1_closed (n : Z) :
  Cpp.representable Cpp.Int64 n ->
  rotate_left_1 (Cpp.static_cast Cpp.UInt64 n)
  = if n >=? 0 then 2 * n else 2 * n + 2 ^ 64 + 1.
Proof.
  intros Hn. apply representable_Int64 in Hn.
  unfold rotate_left_1. rewrite !static_cast_UInt64.
  rewrite Z.shiftl_mul_pow2, Z.shiftr_div_pow2 by lia. change (2 ^ 1) with 2.
  destruct (Z.geb_spec n 0) as [Hge|Hlt].
  - rewrite (Z.mod_small n) by lia. rewrite (Z.mod_small (n * 2)) by lia.
    rewrite (Z.div_small n) by lia. rewrite Z.lor_0_r. lia.
  - rewrite (mod_unique_eq n (2 ^ 64) (-1) (n + 2 ^ 64)) by lia.
    rewrite (mod_unique_eq ((n + 2 ^ 64) * 2) (2 ^ 64) 1 (2 * n + 2 ^ 64)) by lia.
    replace ((n + 2 ^ 64) / 2 ^ 63) with 1
      by (apply (Z.div_unique (n + 2 ^ 64) (2 ^ 63) 1 (n + 2 ^ 63)); lia).
    replace (2 * n + 2 ^ 64) with (2 * (n + 2 ^ 63)) by lia.
    pose proof (Z.add_lor_land (2 * (n + 2 ^ 63)) 1) as H.
    assert (H0 : Z.land (2 * (n + 2 ^ 63)) 1 = 0).
    { rewrite land_1, Z.mul_comm, Z.mod_mul by lia. reflexivity. }
    rewrite H0 in H. lia.
Qed.

(** X9.  The comment on [convertToZigZag] says the formula "boils down to
    circular rotate left by 1".  The function is that rotation of the
    64-bit pattern of its argument exactly on the arguments that are not
    negative.  On a negative argument it is the complement of the pattern
    shifted left by one, which is 2^64 minus the rotation and never equal
    to it: -1 has the image 1, and its rotation is 2^64 - 1. *)
Theorem convertToZigZag_rotate_left (n : Z) :
  Cpp.representable Cpp.Int64 n ->
  (0 <= n ->
   convertToZigZag n = rotate_left_1 (Cpp.static_cast Cpp.UInt64 n))
  /\ (n < 0 ->
      convertToZigZag n
      = 2 ^ 64 - rotate_left_1 (Cpp.static_cast Cpp.UInt64 n)
      /\ convertToZigZag n <> rotate_left_1 (Cpp.static_cast Cpp.UInt64 n)).
Proof.
  intros Hn. rewrite (convertToZigZag_closed n Hn), (rotate_left_1_closed n Hn).
  apply representable_Int64 in Hn.
  destruct (Z.geb_spec n 0); split; intros; lia.
Qed.

Lemma convertToZigZag_rotate_left_witness :
  Cpp.representable Cpp.Int64 (-1)
  /\ convertToZigZag (-1) = 1
  /\ rotate_left_1 (Cpp.static_cast Cpp.UInt64 (-1)) = 2 ^ 64 - 1
  /\ convertToZigZag (-1) <> rotate_left_1 (Cpp.static_cast Cpp.UInt64 (-1)).
Proof.
  assert (Hn : Cpp.representable Cpp.Int64 (-1))
    by (apply representable_Int64; lia).
  destruct (convertToZigZag_rotate_left (-1) Hn) as [_ H].
  destruct (H ltac:(lia)) as [_ Hne].
  split; [exact Hn|]. split; [reflexivity|]. split; [reflexivity|]. exact Hne.
Defined.

(** *** Length-delimited records *)

(** X10.  [emitBytes] and [emitSubmessage] on a byte sequence, and
    [emitString] and the [StringRef] overload of [emitBytes] on a string,
    write the LengthDelimited tag, the number of bytes as a varint, and the
    bytes unchanged; for a string these are its characters, one byte each.
    The length is a [std::size_t], so the prefix is exact for every length
    (no bound like that of the packed varint emitters); the record has
    [calculateVarIntLength(n) + n] bytes after its tag, and its prefix
    reads back as [n] with the [n] bytes next. *)
Theorem length_delimited_emission (Field : Z) (Value : list Z)
  (Text : String.string) :
  valid_field Field ->
  Z.of_nat (length Value) <= Cpp.numeric_limits_max Cpp.UInt64 ->
  Z.of_nat (String.length Text) <= Cpp.numeric_limits_max Cpp.UInt64 ->
  (appends (Builder.emitBytes Field Value)
           (tag_bytes LengthDelimited Field
            ++ varint_bytes (Z.of_nat (length Value)) ++ Value)
   /\ appends (Builder.emitSubmessage Field Value)
              (tag_bytes LengthDelimited Field
               ++ varint_bytes (Z.of_nat (length Value)) ++ Value))
  /\ (appends (Builder.emitString Field Text)
              (tag_bytes LengthDelimited Field
               ++ varint_bytes (Z.of_nat (String.length Text))
               ++ StringRef_bytes Text)
      /\ appends (Builder.emitBytes_StringRef Field Text)
                 (tag_bytes LengthDelimited Field
                  ++ varint_bytes (Z.of_nat (String.length Text))
                  ++ StringRef_bytes Text)
      /\ length (StringRef_bytes Text) = String.length Text
      /\ Forall (fun Byte => 0 <= Byte < 256) (StringRef_bytes Text))
  /\ Z.of_nat (length (bytes_of (Builder.emitBytes Field Value)))
     = Z.of_nat (length (tag_bytes LengthDelimited Field))
       + calculateVarIntLength (Z.of_nat (length Value))
       + Z.of_nat (length Value)
  /\ (forall Rest,
         spec_decode_varint
           (varint_bytes (Z.of_nat (length Value)) ++ Value ++ Rest)
         = Some (Z.of_nat (length Value), Value ++ Rest)).
Proof.
  intros Hf HV HT.
  assert (HS : appends (Emitter.emitLen_StringRef Field Text)
                 (tag_bytes LengthDelimited Field
                  ++ varint_bytes (Z.of_nat (String.length Text))
                  ++ StringRef_bytes Text)).
  { unfold Emitter.emitLen_StringRef, toIntegral.
    rewrite <- StringRef_bytes_length. apply appends_emitLen_length; [exact Hf|].
    rewrite StringRef_bytes_length. exact HT. }
  split; [split; apply appends_emitLen_length; assumption|].
  split.
  { split; [exact HS|]. split; [exact HS|].
    split; [apply StringRef_bytes_length | apply StringRef_bytes_range]. }
  change (Cpp.numeric_limits_max Cpp.UInt64) with (2 ^ 64 - 1) in HV.
  split.
  - unfold Builder.emitBytes. rewrite bytes_of_emitLen by assumption.
    rewrite !length_app, !Nat2Z.inj_add.
    rewrite varint_bytes_length by lia. lia.
  - intros Rest. apply spec_decode_varint_bytes. lia.
Qed.

Lemma length_delimited_emission_witness :
  valid_field 1
  /\ Z.of_nat (length [0; 1; 2]) <= Cpp.numeric_limits_max Cpp.UInt64
  /\ Builder.emitBytes 1 [0; 1; 2] [] = Some (tt, [10; 3; 0; 1; 2]).
Proof.
  assert (H3 : Z.of_nat (length [0; 1; 2]) <= Cpp.numeric_limits_max Cpp.UInt64)
    by (apply Z.leb_le; reflexivity).
  assert (H0 : Z.of_nat (String.length String.EmptyString)
               <= Cpp.numeric_limits_max Cpp.UInt64)
    by (apply Z.leb_le; reflexivity).
  destruct (length_delimited_emission 1 [0; 1; 2] String.EmptyString
              valid_field_1 H3 H0) as ((Hrun & _) & _).
  split; [exact valid_field_1|]. split; [exact H3|].
  exact (Hrun []).
Defined.

(** *** Packed fields of the builder *)

Lemma for_each_map {A B : Type} (f : A -> B) (Range : list A)
  (Body : B -> Emit unit) :
  for_each (map f Range) Body = for_each Range (fun Item => Body (f Item)).
Proof.
  induction Range as [|Item Rest IH]; cbn [map for_each]; [reflexivity|].
  rewrite IH. reflexivity.
Qed.

Lemma packed_ext {A : Type} (Tag Length : Emit unit) (Range : list A)
  (Body1 Body2 : A -> Emit unit) :
  (forall Item, Body1 Item = Body2 Item) ->
  (Tag ;; Length ;; for_each Range Body1)
  = (Tag ;; Length ;; for_each Range Body2).
Proof.
  intros H. rewrite (for_each_ext Range Body1 Body2); [reflexivity|].
  apply Forall_forall. intros Item _. apply H.
Qed.

Lemma bit_cast_uint32_idem (x : float) :
  Cpp.static_cast Cpp.UInt32 (bit_cast_uint32 x) = bit_cast_uint32 x.
Proof.
  apply static_cast_representable, representable_UInt32,
    static_cast_UInt32_range.
Qed.

Lemma bit_cast_uint64_idem (x : double) :
  Cpp.static_cast Cpp.UInt64 (bit_cast_uint64 x) = bit_cast_uint64 x.
Proof.
  apply static_cast_representable, representable_UInt64,
    static_cast_UInt64_range.
Qed.

(** X11.  [emitFloatPacked] is [emitFixed32Packed] on the bit patterns of
    its elements, and [emitDoublePacked] is [emitFixed64Packed] on theirs.
    Each writes one packed record: the LengthDelimited tag, four (eight)
    times the number of elements as the length, and for every element the
    four (eight) bytes that [emitFloat] ([emitDouble]) writes for it after
    its tag. *)
Theorem packed_float_double (Host : Endianness) (Field : Z)
  (Floats : list float) (Doubles : list double) :
  valid_field Field ->
  (Builder.emitFloatPacked Host Field Floats
   = Builder.emitFixed32Packed Host Field (map bit_cast_uint32 Floats)
   /\ Builder.emitDoublePacked Host Field Doubles
      = Builder.emitFixed64Packed Host Field (map bit_cast_uint64 Doubles))
  /\ (forall x : float,
         appends (Builder.emitFloat Host Field x)
                 (tag_bytes I32 Field
                  ++ object_representation Host 4 (bit_cast_uint32 x)))
  /\ (forall x : double,
         appends (Builder.emitDouble Host Field x)
                 (tag_bytes I64 Field
                  ++ object_representation Host 8 (bit_cast_uint64 x)))
  /\ (Z.of_nat (length Floats) * 4 <= Cpp.numeric_limits_max Cpp.UInt64 ->
      appends (Builder.emitFloatPacked Host Field Floats)
              (packed_record Field
                 (map (fun x => object_representation Host 4 (bit_cast_uint32 x))
                      Floats))
      /\ Z.of_nat
           (length
              (concat
                 (map (fun x => object_representation Host 4 (bit_cast_uint32 x))
                      Floats)))
         = Z.of_nat (length Floats) * 4)
  /\ (Z.of_nat (length Doubles) * 8 <= Cpp.numeric_limits_max Cpp.UInt64 ->
      appends (Builder.emitDoublePacked Host Field Doubles)
              (packed_record Field
                 (map (fun x => object_representation Host 8 (bit_cast_uint64 x))
                      Doubles))
      /\ Z.of_nat
           (length
              (concat
                 (map (fun x => object_representation Host 8 (bit_cast_uint64 x))
                      Doubles)))
         = Z.of_nat (length Doubles) * 8).
Proof.
  intros Hf.
  split.
  { split.
    - unfold Builder.emitFloatPacked, Builder.emitFixed32Packed,
        Emitter.emitI32Packed_float, Emitter.emitI32Packed.
      rewrite length_map, for_each_map.
      apply packed_ext. intros x. cbv zeta.
      rewrite bit_cast_uint32_idem. reflexivity.
    - unfold Builder.emitDoublePacked, Builder.emitFixed64Packed,
        Emitter.emitI64Packed_double, Emitter.emitI64Packed.
      rewrite length_map, for_each_map.
      apply packed_ext. intros x. cbv zeta.
      rewrite bit_cast_uint64_idem. reflexivity. }
  split; [intros x; apply (appends_emitI32 Host), Hf|].
  split; [intros x; apply (appends_emitI64 Host), Hf|].
  split.
  - intros HL.
    change (Cpp.numeric_limits_max Cpp.UInt64) with (2 ^ 64 - 1) in HL.
    pose proof (concat_fixed_length
                  (fun x => object_representation Host 4 (bit_cast_uint32 x))
                  4 Floats
                  ltac:(intros; apply object_representation_length)) as HC.
    change (Z.of_nat 4) with 4 in HC.
    split; [|exact HC].
    unfold packed_record. rewrite HC.
    rewrite <- (static_cast_representable Cpp.UInt64
                  (Z.of_nat (length Floats) * 4))
      by (apply representable_UInt64; lia).
    exact (appends_packed Field (Z.of_nat (length Floats) * 4) Floats
             (fun Item =>
                Emitter.emitRawBytes
                  (object_representation Host 4 (bit_cast_uint32 Item)))
             (fun x => object_representation Host 4 (bit_cast_uint32 x))
             Hf ltac:(intros; apply appends_emitRawBytes)).
  - intros HL.
    change (Cpp.numeric_limits_max Cpp.UInt64) with (2 ^ 64 - 1) in HL.
    pose proof (concat_fixed_length
                  (fun x => object_representation Host 8 (bit_cast_uint64 x))
                  8 Doubles
                  ltac:(intros; apply object_representation_length)) as HC.
    change (Z.of_nat 8) with 8 in HC.
    split; [|exact HC].
    unfold packed_record. rewrite HC.
    rewrite <- (static_cast_representable Cpp.UInt64
                  (Z.of_nat (length Doubles) * 8))
      by (apply representable_UInt64; lia).
    exact (appends_packed Field (Z.of_nat (length Doubles) * 8) Doubles
             (fun Item =>
                Emitter.emitRawBytes
                  (object_representation Host 8 (bit_cast_uint64 Item)))
             (fun x => object_representation Host 8 (bit_cast_uint64 x))
             Hf ltac:(intros; apply appends_emitRawBytes)).
Qed.

Lemma packed_float_double_witness :
  valid_field 1
  /\ Builder.emitFloatPacked LittleEndian 1 [Float 1065353216; Float 0] []
     = Some (tt, [10; 8; 0; 0; 128; 63; 0; 0; 0; 0]).
Proof.
  destruct (packed_float_double LittleEndian 1 [Float 1065353216; Float 0] []
              valid_field_1) as (_ & _ & _ & HF & _).
  split; [exact valid_field_1|].
  destruct (HF ltac:(apply Z.leb_le; reflexivity)) as [Hrun _].
  exact (Hrun []).
Defined.

Lemma varint_payload_length (Item : Z) :
  1 <= Z.of_nat (length (varint_payload Item)) <= 10.
Proof.
  unfold varint_payload.
  rewrite varint_bytes_length by apply static_cast_UInt64_range.
  apply calculateVarIntLength_bounds, static_cast_UInt64_range.
Qed.

Lemma signed_varint_payload_length (Item : Z) :
  1 <= Z.of_nat (length (signed_varint_payload Item)) <= 10.
Proof.
  unfold signed_varint_payload.
  rewrite varint_bytes_length by apply convertToZigZag_range.
  apply calculateVarIntLength_bounds, convertToZigZag_range.
Qed.

Lemma concat_bounded_length {A : Type} (Payload : A -> list Z) (Lo Hi : Z)
  (Values : list A) :
  (forall Value, Lo <= Z.of_nat (length (Payload Value)) <= Hi) ->
  Lo * Z.of_nat (length Values)
  <= Z.of_nat (length (concat (map Payload Values)))
  <= Hi * Z.of_nat (length Values).
Proof.
  intros H. induction Values as [|Value Rest IH]; cbn [map concat length].
  - lia.
  - rewrite length_app, Nat2Z.inj_add, Nat2Z.inj_succ.
    specialize (H Value). lia.
Qed.

Lemma b2z_payload (Bools : list bool) :
  concat (map varint_payload (map Z.b2z Bools)) = map Z.b2z Bools.
Proof.
  induction Bools as [|b Rest IH]; cbn [map concat]; [reflexivity|].
  rewrite IH. destruct b; reflexivity.
Qed.

(** X12.  The [int] in which the packed varint emitters count their length
    cannot wrap on a range of at most 214748364 elements (INT_MAX / 10, an
    element taking at most ten bytes): [emitVarIntPacked] and
    [emitSignedVarIntPacked] then write a packed record whose length is the
    number of payload bytes, and [calculateVarIntPackedLength] and
    [calculateSignedVarIntPackedLength] lie between the number of elements
    and ten times that.  A [bool] takes one byte: [emitBoolPacked] writes
    the tag, the number of elements, and 0x00 or 0x01 for every element, on
    any range of at most INT_MAX elements. *)
Theorem packed_varint_by_count (Field : Z) (Value : list Z)
  (Bools : list bool) :
  valid_field Field ->
  (Z.of_nat (length Value) <= 214748364 ->
   appends (Emitter.emitVarIntPacked Field Value)
           (packed_record Field (map varint_payload Value))
   /\ appends (Emitter.emitSignedVarIntPacked Field Value)
              (packed_record Field (map signed_varint_payload Value))
   /\ Z.of_nat (length Value) <= calculateVarIntPackedLength Value
      <= 10 * Z.of_nat (length Value)
   /\ Z.of_nat (length Value) <= calculateSignedVarIntPackedLength Value
      <= 10 * Z.of_nat (length Value))
  /\ (Z.of_nat (length Bools) <= Cpp.numeric_limits_max Cpp.Int32 ->
      appends (Builder.emitBoolPacked Field Bools)
              (tag_bytes LengthDelimited Field
               ++ varint_bytes (Z.of_nat (length Bools))
               ++ map Z.b2z Bools)).
Proof.
  intros Hf. split.
  - intros HL.
    pose proof (concat_bounded_length varint_payload 1 10 Value
                  varint_payload_length) as HU.
    pose proof (concat_bounded_length signed_varint_payload 1 10 Value
                  signed_varint_payload_length) as HS.
    assert (HU' : 0 <= Z.of_nat (length (concat (map varint_payload Value)))
                  <= Cpp.numeric_limits_max Cpp.Int32)
      by (change (Cpp.numeric_limits_max Cpp.Int32) with 2147483647; lia).
    assert (HS' : 0 <= Z.of_nat
                         (length (concat (map signed_varint_payload Value)))
                  <= Cpp.numeric_limits_max Cpp.Int32)
      by (change (Cpp.numeric_limits_max Cpp.Int32) with 2147483647; lia).
    assert (EU : calculateVarIntPackedLength Value
                 = Z.of_nat (length (concat (map varint_payload Value)))).
    { rewrite calculateVarIntPackedLength_eq.
      apply static_cast_representable, representable_Int32.
      change (Cpp.numeric_limits_max Cpp.Int32) with 2147483647 in HU'. lia. }
    assert (ES : calculateSignedVarIntPackedLength Value
                 = Z.of_nat
                     (length (concat (map signed_varint_payload Value)))).
    { rewrite calculateSignedVarIntPackedLength_eq.
      apply static_cast_representable, representable_Int32.
      change (Cpp.numeric_limits_max Cpp.Int32) with 2147483647 in HS'. lia. }
    split; [|split; [|split; [rewrite EU; lia | rewrite ES; lia]]].
    + unfold packed_record.
      pose proof (appends_emitVarIntPacked Field Value Hf) as H.
      rewrite calculateVarIntPackedLength_eq, static_cast_UInt64_Int32 in H
        by exact HU'.
      exact H.
    + unfold packed_record.
      pose proof (appends_emitSignedVarIntPacked Field Value Hf) as H.
      rewrite calculateSignedVarIntPackedLength_eq, static_cast_UInt64_Int32
        in H by exact HS'.
      exact H.
  - intros HL. unfold Builder.emitBoolPacked.
    pose proof (appends_emitVarIntPacked_bool Field Bools Hf) as H.
    rewrite calculateVarIntPackedLength_eq, b2z_payload, length_map in H.
    rewrite static_cast_UInt64_Int32 in H by lia.
    exact H.
Qed.

Lemma packed_varint_by_count_witness :
  valid_field 1
  /\ Z.of_nat (length [0; -1; 65537]) <= 214748364
  /\ Emitter.emitSignedVarIntPacked 1 [0; -1; 65537] []
     = Some (tt, [10; 5; 0; 1; 130; 128; 8])
  /\ Builder.emitBoolPacked 1 [true; false; true] []
     = Some (tt, [10; 3; 1; 0; 1]).
Proof.
  destruct (packed_varint_by_count 1 [0; -1; 65537] [true; false; true]
              valid_field_1) as (HV & HB).
  assert (H3 : Z.of_nat (length [0; -1; 65537]) <= 214748364)
    by (apply Z.leb_le; reflexivity).
  split; [exact valid_field_1|]. split; [exact H3|].
  destruct (HV H3) as (_ & HS & _).
  split; [exact (HS [])|].
  exact (HB ltac:(apply Z.leb_le; reflexivity) []).
Defined.

(** *** Repeated and packed sequences *)

Ltac each_integer_category H :=
  unfold integer_categories in H; cbn [In] in H;
  repeat (destruct H as [H|H]; [subst|]); [..|contradiction].

Lemma appends_emit_C_item_payload (Host : Endianness) (C : Category)
  (Field : Z) (Item : ItemOf C) :
  valid_field Field -> In C integer_categories -> item_ok C Item ->
  appends (emit_C Host C Field Item)
          (tag_bytes (spec_wire_type C) Field ++ item_payload Host C Item).
Proof.
  intros Hf HC Hok. each_integer_category HC;
    cbn [emit_C spec_wire_type item_payload item_ok ItemOf] in *.
  - apply appends_emitVarInt; [exact Hf | apply static_cast_UInt64_range].
  - apply appends_emitVarInt; [exact Hf | apply static_cast_UInt64_range].
  - apply appends_emitVarInt; [exact Hf | apply static_cast_UInt64_range].
  - unfold varint_payload. rewrite static_cast_representable by exact Hok.
    apply appends_emitVarInt; [exact Hf | apply representable_UInt64, Hok].
  - apply appends_emitSignedVarInt, Hf.
  - unfold signed_varint_payload.
    rewrite static_cast_representable by exact Hok.
    apply appends_emitSignedVarInt, Hf.
  - unfold fixed32_payload. rewrite static_cast_representable by exact Hok.
    apply (appends_emitI32 Host), Hf.
  - unfold fixed64_payload. rewrite static_cast_representable by exact Hok.
    apply (appends_emitI64 Host), Hf.
  - apply (appends_emitI32 Host), Hf.
  - apply (appends_emitI64 Host), Hf.
  - apply appends_emitVarInt; [exact Hf | apply static_cast_UInt64_range].
Qed.

Lemma item_payload_length (Host : Endianness) (C : Category) (Item : ItemOf C) :
  In C integer_categories ->
  1 <= Z.of_nat (length (item_payload Host C Item)) <= 10.
Proof.
  intros HC. each_integer_category HC; cbn [item_payload ItemOf] in *.
  1-4: apply varint_payload_length.
  1-2: apply signed_varint_payload_length.
  1-4: unfold fixed32_payload, fixed64_payload;
       rewrite object_representation_length; lia.
  apply varint_payload_length.
Qed.

(** An element's payload is self-delimiting and gives the element back. *)
Lemma item_payload_inj (Host : Endianness) (C : Category) (x y : ItemOf C)
  (Rest1 Rest2 : list Z) :
  In C integer_categories -> item_ok C x -> item_ok C y ->
  item_payload Host C x ++ Rest1 = item_payload Host C y ++ Rest2 ->
  x = y /\ Rest1 = Rest2.
Proof.
  intros HC Hx Hy E.
  assert (Hvar : forall T (a b : Z),
             Cpp.representable T a -> Cpp.representable T b ->
             varint_payload a ++ Rest1 = varint_payload b ++ Rest2 ->
             a = b /\ Rest1 = Rest2).
  { intros T a b Ha Hb Eab. unfold varint_payload in Eab.
    destruct (varint_bytes_inj _ _ _ _ (static_cast_UInt64_range a)
                (static_cast_UInt64_range b) Eab) as [Ev ER].
    split; [|exact ER]. apply (static_cast_UInt64_inj T); assumption. }
  assert (Hsig : forall T (a b : Z),
             Cpp.is_signed T = true ->
             Cpp.representable T a -> Cpp.representable T b ->
             signed_varint_payload a ++ Rest1
             = signed_varint_payload b ++ Rest2 ->
             a = b /\ Rest1 = Rest2).
  { intros T a b HT Ha Hb Eab. unfold signed_varint_payload in Eab.
    assert (Ra : Cpp.representable Cpp.Int64 a).
    { apply representable_Int64. revert Ha.
      unfold Cpp.representable, Cpp.numeric_limits_min, Cpp.numeric_limits_max.
      destruct T; try discriminate HT; cbn [Cpp.is_signed Cpp.width]; lia. }
    assert (Rb : Cpp.representable Cpp.Int64 b).
    { apply representable_Int64. revert Hb.
      unfold Cpp.representable, Cpp.numeric_limits_min, Cpp.numeric_limits_max.
      destruct T; try discriminate HT; cbn [Cpp.is_signed Cpp.width]; lia. }
    rewrite !static_cast_representable in Eab by assumption.
    destruct (varint_bytes_inj _ _ _ _ (convertToZigZag_range a)
                (convertToZigZag_range b) Eab) as [Ev ER].
    split; [|exact ER]. apply convertToZigZag_inj; assumption. }
  assert (H32 : forall T (a b : Z),
             Cpp.width T <= 32 ->
             Cpp.representable T a -> Cpp.representable T b ->
             fixed32_payload Host a ++ Rest1 = fixed32_payload Host b ++ Rest2 ->
             a = b /\ Rest1 = Rest2).
  { intros T a b HT Ha Hb Eab. unfold fixed32_payload in Eab.
    destruct (app_inj_length _ _ _ _
                ltac:(rewrite !object_representation_length; reflexivity) Eab)
      as [Ev ER].
    split; [|exact ER].
    apply (object_representation_inj Host 4) in Ev;
      try apply static_cast_UInt32_range.
    apply (static_cast_UInt32_inj T); assumption. }
  assert (H64 : forall T (a b : Z),
             Cpp.representable T a -> Cpp.representable T b ->
             fixed64_payload Host a ++ Rest1 = fixed64_payload Host b ++ Rest2 ->
             a = b /\ Rest1 = Rest2).
  { intros T a b Ha Hb Eab. unfold fixed64_payload in Eab.
    destruct (app_inj_length _ _ _ _
                ltac:(rewrite !object_representation_length; reflexivity) Eab)
      as [Ev ER].
    split; [|exact ER].
    apply (object_representation_inj Host 8) in Ev;
      try apply static_cast_UInt64_range.
    apply (static_cast_UInt64_inj T); assumption. }
  each_integer_category HC; cbn [item_payload item_ok ItemOf] in *.
  - apply (Hvar Cpp.Int32); assumption.
  - apply (Hvar Cpp.Int64); assumption.
  - apply (Hvar Cpp.UInt32); assumption.
  - apply (Hvar Cpp.UInt64); assumption.
  - apply (Hsig Cpp.Int32); try assumption; reflexivity.
  - apply (Hsig Cpp.Int64); try assumption; reflexivity.
  - apply (H32 Cpp.UInt32); try assumption. cbn [Cpp.width]. lia.
  - apply (H64 Cpp.UInt64); assumption.
  - apply (H32 Cpp.Int32); try assumption. cbn [Cpp.width]. lia.
  - apply (H64 Cpp.Int64); assumption.
  - assert (Hb : forall b : bool, Cpp.representable Cpp.UInt8 (Z.b2z b)).
    { intros []; unfold Cpp.representable, Cpp.numeric_limits_min,
        Cpp.numeric_limits_max; cbn; lia. }
    destruct (Hvar Cpp.UInt8 _ _ (Hb x) (Hb y) E) as [Ev ER].
    split; [|exact ER]. destruct x, y; try reflexivity; discriminate Ev.
Qed.

(** A sequence of self-delimiting encodings gives the sequence back. *)
Lemma concat_map_inj {A : Type} (enc : A -> list Z) (ok : A -> Prop) :
  (forall x, ok x -> enc x <> []) ->
  (forall x y r1 r2, ok x -> ok y ->
     enc x ++ r1 = enc y ++ r2 -> x = y /\ r1 = r2) ->
  forall xs ys,
    Forall ok xs -> Forall ok ys ->
    concat (map enc xs) = concat (map enc ys) -> xs = ys.
Proof.
  intros Hne Hinj. induction xs as [|x xs IH]; intros [|y ys] Hx Hy E.
  - reflexivity.
  - exfalso. cbn [map concat] in E. symmetry in E.
    apply app_eq_nil in E. destruct E as [E _].
    apply (Hne y); [|exact E]. inversion Hy; assumption.
  - exfalso. cbn [map concat] in E.
    apply app_eq_nil in E. destruct E as [E _].
    apply (Hne x); [|exact E]. inversion Hx; assumption.
  - cbn [map concat] in E. inversion Hx; inversion Hy; subst.
    destruct (Hinj x y _ _ ltac:(assumption) ltac:(assumption) E) as [-> E'].
    f_equal. apply IH; assumption.
Qed.

Lemma tag_bytes_nonempty (WType : WireType) (Field : Z) :
  valid_field Field -> tag_bytes WType Field <> [].
Proof.
  intros Hf E.
  pose proof (spec_decode_tag_bytes WType Field [] Hf) as D.
  rewrite E in D. discriminate D.
Qed.

Lemma appends_emit_C_repeated_item_payload (Host : Endianness) (C : Category)
  (Field : Z) (Value : list (ItemOf C)) :
  valid_field Field -> In C integer_categories -> Forall (item_ok C) Value ->
  appends (emit_C_repeated Host C Field Value)
          (concat (map (fun Item => tag_bytes (spec_wire_type C) Field
                                    ++ item_payload Host C Item) Value)).
Proof.
  intros Hf HC Hok.
  rewrite (emit_C_repeated_for_each Host C Field Value Hok).
  apply appends_for_each. intros Item HI.
  apply appends_emit_C_item_payload; try assumption.
  apply (proj1 (Forall_forall _ _) Hok), HI.
Qed.

Lemma appends_emit_C_packed_item_payload (Host : Endianness) (C : Category)
  (Field : Z) (Value : list (ItemOf C))
  (emit : Z -> list (ItemOf C) -> Emit unit) :
  valid_field Field -> In C integer_categories ->
  Z.of_nat (length Value) <= 214748364 ->
  emit_C_packed Host C = Some emit ->
  appends (emit Field Value)
          (packed_record Field (map (item_payload Host C) Value)).
Proof.
  intros Hf HC HL E.
  pose proof (concat_bounded_length (item_payload Host C) 1 10 Value
                (fun Item => item_payload_length Host C Item HC)) as HB.
  assert (HB' : 0 <= Z.of_nat
                       (length (concat (map (item_payload Host C) Value)))
                <= Cpp.numeric_limits_max Cpp.Int32)
    by (change (Cpp.numeric_limits_max Cpp.Int32) with 2147483647; lia).
  clear HB. unfold packed_record. revert HB'.
  each_integer_category HC; cbn [emit_C_packed item_payload ItemOf] in *;
    injection E as <-; intros HB.
  1-4: unfold Builder.emitInt32Packed, Builder.emitInt64Packed,
         Builder.emitUInt32Packed, Builder.emitUInt64Packed;
       pose proof (appends_emitVarIntPacked Field Value Hf) as H;
       rewrite calculateVarIntPackedLength_eq, static_cast_UInt64_Int32 in H
         by exact HB;
       exact H.
  1-2: unfold Builder.emitSInt32Packed, Builder.emitSInt64Packed;
       pose proof (appends_emitSignedVarIntPacked Field Value Hf) as H;
       rewrite calculateSignedVarIntPackedLength_eq, static_cast_UInt64_Int32
         in H by exact HB;
       exact H.
  - pose proof (appends_emitI32Packed Host Field Value Hf) as H.
    rewrite (concat_fixed_length (fixed32_payload Host) 4)
      by (intros; apply object_representation_length).
    rewrite static_cast_representable in H; [exact H|].
    apply representable_UInt64. lia.
  - pose proof (appends_emitI64Packed Host Field Value Hf) as H.
    rewrite (concat_fixed_length (fixed64_payload Host) 8)
      by (intros; apply object_representation_length).
    rewrite static_cast_representable in H; [exact H|].
    apply representable_UInt64. lia.
  - pose proof (appends_emitI32Packed Host Field Value Hf) as H.
    rewrite (concat_fixed_length (fixed32_payload Host) 4)
      by (intros; apply object_representation_length).
    rewrite static_cast_representable in H; [exact H|].
    apply representable_UInt64. lia.
  - pose proof (appends_emitI64Packed Host Field Value Hf) as H.
    rewrite (concat_fixed_length (fixed64_payload Host) 8)
      by (intros; apply object_representation_length).
    rewrite static_cast_representable in H; [exact H|].
    apply representable_UInt64. lia.
  - unfold Builder.emitBoolPacked.
    pose proof (appends_emitVarIntPacked_bool Field Value Hf) as H.
    rewrite calculateVarIntPackedLength_eq, !map_map in H.
    rewrite static_cast_UInt64_Int32 in H by exact HB.
    exact H.
Qed.

(** X13.  For the ten integer categories and [bool], on values of the
    category's type: a repeated emission writes, for every element, the tag
    and the payload of the element, and a packed emission on at most
    214748364 elements writes one packed record of the same payloads
    without their tags.  Both give the sequence back: two repeated
    emissions that write the same bytes have the same elements, and two
    packed records that begin the same stream have the same elements and
    are followed by the same bytes. *)
Theorem repeated_packed_injective (Host : Endianness) (C : Category)
  (Field : Z) (Value1 Value2 : list (ItemOf C)) :
  valid_field Field ->
  In C integer_categories ->
  Forall (item_ok C) Value1 -> Forall (item_ok C) Value2 ->
  (* what the two emissions write *)
  (appends (emit_C_repeated Host C Field Value1)
           (concat (map (fun Item => tag_bytes (spec_wire_type C) Field
                                     ++ item_payload Host C Item) Value1))
   /\ forall emit,
        emit_C_packed Host C = Some emit ->
        Z.of_nat (length Value1) <= 214748364 ->
        appends (emit Field Value1)
                (packed_record Field (map (item_payload Host C) Value1)))
  (* a repeated emission gives its sequence back *)
  /\ (bytes_of (emit_C_repeated Host C Field Value1)
      = bytes_of (emit_C_repeated Host C Field Value2) ->
      Value1 = Value2)
  (* a packed emission gives its sequence back, and what follows it *)
  /\ (forall emit Rest1 Rest2,
         emit_C_packed Host C = Some emit ->
         Z.of_nat (length Value1) <= 214748364 ->
         Z.of_nat (length Value2) <= 214748364 ->
         bytes_of (emit Field Value1) ++ Rest1
         = bytes_of (emit Field Value2) ++ Rest2 ->
         Value1 = Value2 /\ Rest1 = Rest2).
Proof.
  intros Hf HC H1 H2.
  split.
  { split.
    - apply appends_emit_C_repeated_item_payload; assumption.
    - intros emit E HL. apply appends_emit_C_packed_item_payload; assumption. }
  split.
  - rewrite (appends_bytes_of _ _
               (appends_emit_C_repeated_item_payload Host C Field Value1
                  Hf HC H1)).
    rewrite (appends_bytes_of _ _
               (appends_emit_C_repeated_item_payload Host C Field Value2
                  Hf HC H2)).
    apply (concat_map_inj _ (item_ok C)); try assumption.
    + intros x _ E. apply app_eq_nil in E. destruct E as [E _].
      exact (tag_bytes_nonempty _ _ Hf E).
    + intros x y r1 r2 Hx Hy E. rewrite <- !app_assoc in E.
      destruct (tag_bytes_inj _ _ _ _ _ _ Hf Hf E) as (_ & _ & E').
      apply (item_payload_inj Host C); assumption.
  - intros emit Rest1 Rest2 E HL1 HL2 Eb.
    rewrite (appends_bytes_of _ _
               (appends_emit_C_packed_item_payload Host C Field Value1 emit
                  Hf HC HL1 E)) in Eb.
    rewrite (appends_bytes_of _ _
               (appends_emit_C_packed_item_payload Host C Field Value2 emit
                  Hf HC HL2 E)) in Eb.
    unfold packed_record in Eb. rewrite <- !app_assoc in Eb.
    destruct (tag_bytes_inj _ _ _ _ _ _ Hf Hf Eb) as (_ & _ & E').
    pose proof (concat_bounded_length (item_payload Host C) 1 10 Value1
                  (fun Item => item_payload_length Host C Item HC)) as B1.
    pose proof (concat_bounded_length (item_payload Host C) 1 10 Value2
                  (fun Item => item_payload_length Host C Item HC)) as B2.
    destruct (varint_bytes_inj
                (Z.of_nat (length (concat (map (item_payload Host C) Value1))))
                (Z.of_nat (length (concat (map (item_payload Host C) Value2))))
                _ _ ltac:(lia) ltac:(lia) E') as [El E''].
    apply Nat2Z.inj in El.
    destruct (app_inj_length _ _ _ _ El E'') as [Ec ER].
    split; [|exact ER].
    apply (concat_map_inj (item_payload Host C) (item_ok C));
      try assumption.
    + intros x _ Ex.
      pose proof (item_payload_length Host C x HC) as Hl.
      rewrite Ex in Hl. cbn [length] in Hl. lia.
    + intros x y r1 r2. apply item_payload_inj, HC.
Qed.

Lemma repeated_packed_injective_witness :
  valid_field 1
  /\ In CSInt32 integer_categories
  /\ Forall (item_ok CSInt32) [0; -1; 65537]
  /\ Builder.emitSInt32Packed 1 [0; -1; 65537] []
     = Some (tt, [10; 5; 0; 1; 130; 128; 8])
  /\ (forall Value2 : list Z,
         Forall (item_ok CSInt32) Value2 ->
         bytes_of (Builder.emitSInt32Repeated 1 [0; -1; 65537])
         = bytes_of (Builder.emitSInt32Repeated 1 Value2) ->
         [0; -1; 65537] = Value2).
Proof.
  assert (HC : In CSInt32 integer_categories)
    by (unfold integer_categories; cbn [In]; do 4 right; left; reflexivity).
  assert (Hok : Forall (item_ok CSInt32) [0; -1; 65537])
    by (repeat constructor; apply representable_Int32; lia).
  split; [exact valid_field_1|]. split; [exact HC|]. split; [exact Hok|].
  split.
  - destruct (repeated_packed_injective LittleEndian CSInt32 1
                [0; -1; 65537] [0; -1; 65537] valid_field_1 HC Hok Hok)
      as ((_ & Hp) & _).
    exact (Hp Builder.emitSInt32Packed eq_refl
             ltac:(apply Z.leb_le; reflexivity) []).
  - intros Value2 Hok2.
    destruct (repeated_packed_injective LittleEndian CSInt32 1
                [0; -1; 65537] Value2 valid_field_1 HC Hok Hok2)
      as (_ & Hr & _).
    exact Hr.
Defined.

(** *** Enumerations and [int32] *)

(** X14.  On an rvalue argument whose type is integral or an
    enumeration and is or promotes to [int], [Emitter::emitEnum] has an
    instantiation, and it is [Builder::emitInt32] on every field number and
    every value of the type: the assertion of [emitEnum] holds on every
    such value, and an enumerator goes out as the [int32] of its value.  On
    an lvalue argument (a variable) of any type [emitEnum] has no
    instantiation. *)
Theorem emitEnum_is_emitInt32 (ValueType : Cpp.Type_)
  (IntValueType : Cpp.IntType) (Field : Z) :
  toIntegral_type ValueType = Some IntValueType ->
  Cpp.promote IntValueType = Cpp.Int32 ->
  Emitter.emitEnum_at (Cpp.forwarding_reference Cpp.RValue ValueType)
  = Some (Emitter.emitEnum IntValueType)
  /\ (forall Value,
         Cpp.representable IntValueType Value ->
         Emitter.emitEnum IntValueType Field Value
         = Builder.emitInt32 Field Value)
  /\ Emitter.emitEnum_at (Cpp.forwarding_reference Cpp.LValue ValueType)
     = None.
Proof.
  intros HT Hp.
  split.
  { destruct ValueType; try discriminate HT; injection HT as ->;
      destruct IntValueType; try discriminate Hp; reflexivity. }
  split; [|reflexivity].
  intros Value Hr. unfold Emitter.emitEnum, Builder.emitInt32, toIntegral.
  rewrite (emitEnum_assertion IntValueType Value Hp Hr). reflexivity.
Qed.

Lemma emitEnum_is_emitInt32_witness :
  toIntegral_type (Cpp.Enumeration Cpp.Int16) = Some Cpp.Int16
  /\ Cpp.promote Cpp.Int16 = Cpp.Int32
  /\ Emitter.emitEnum Cpp.Int16 1 (-2) [] = Builder.emitInt32 1 (-2) []
  /\ Builder.emitInt32 1 (-2) []
     = Some (tt, [8; 254; 255; 255; 255; 255; 255; 255; 255; 255; 1]).
Proof.
  destruct (emitEnum_is_emitInt32 (Cpp.Enumeration Cpp.Int16) Cpp.Int16 1
              eq_refl eq_refl) as (_ & H & _).
  split; [reflexivity|]. split; [reflexivity|]. split; [|reflexivity].
  rewrite H; [reflexivity|].
  unfold Cpp.representable, Cpp.numeric_limits_min, Cpp.numeric_limits_max.
  cbn [Cpp.is_signed Cpp.width]. lia.
Defined.

(** *** Where [emitEnumPacked] is right *)

Lemma concat_length_eq_count {A : Type} (Payload : A -> list Z)
  (Values : list A) :
  (forall Value, (1 <= length (Payload Value))%nat) ->
  (length (concat (map Payload Values)) = length Values
   <-> Forall (fun Value => length (Payload Value) = 1%nat) Values).
Proof.
  intros H1.
  assert (Hge : forall Vs, (length Vs <= length (concat (map Payload Vs)))%nat).
  { induction Vs as [|V Vs IH]; cbn [map concat length]; [lia|].
    rewrite length_app. specialize (H1 V). lia. }
  induction Values as [|Value Rest IH]; cbn [map concat length].
  - split; [constructor | reflexivity].
  - rewrite length_app. specialize (H1 Value). specialize (Hge Rest).
    split.
    + intros E. constructor; [lia|]. apply IH. lia.
    + intros HF. inversion HF as [|? ? Hv Hr]; subst.
      apply IH in Hr. lia.
Qed.

Lemma varint_payload_one_byte (Item : Z) :
  length (varint_payload Item) = 1%nat
  <-> 0 <= Cpp.static_cast Cpp.UInt64 Item < 128.
Proof.
  pose proof (static_cast_UInt64_range Item) as Hr.
  pose proof (varint_bytes_length _ Hr) as Hl.
  fold (varint_payload Item) in Hl.
  destruct (calculateVarIntLength_bounds _ (proj1 Hr)) as (Hb & Hup & Hlow).
  split.
  - intros E. rewrite E in Hl. change (Z.of_nat 1) with 1 in Hl.
    rewrite <- Hl in Hup. specialize (Hup ltac:(lia)).
    change (2 ^ (7 * 1)) with 128 in Hup. lia.
  - intros H.
    pose proof (calculateVarIntLength_le _ 1 (proj1 Hr) ltac:(lia)
                  ltac:(change (2 ^ (7 * 1)) with 128; lia)). lia.
Qed.

(** X15.  Where [Emitter::emitEnumPacked] has an instantiation (on a
    container whose namespace declares a [toIntegral] of its own) and the
    assertion on what that returns holds, on [int32_t] elements it writes
    the bytes of [emitInt32Packed], which are a packed record, exactly when
    every element lies in [0, 127]: these are the elements that take one
    varint byte, and only then is the number of elements, which
    [emitEnumPacked] writes as the length, the number of payload bytes. *)
Theorem emitEnumPacked_right_on_one_byte_values (ValueType : Cpp.Type_)
  (IntValueType : Cpp.IntType) (toIntegral_Value : list Z -> Z)
  (emit : Z -> list Z -> Emit unit) (Field : Z) (Value : list Z) :
  Emitter.emitEnumPacked ValueType (Some (IntValueType, toIntegral_Value))
  = Some emit ->
  Cpp.promote IntValueType = Cpp.Int32 ->
  Cpp.representable IntValueType (toIntegral_Value Value) ->
  valid_field Field ->
  Z.of_nat (length Value) <= 214748364 ->
  Forall (Cpp.representable Cpp.Int32) Value ->
  (bytes_of (emit Field Value)
   = bytes_of (Builder.emitInt32Packed Field Value)
   <-> Forall (fun Item => 0 <= Item < 128) Value)
  /\ appends (Builder.emitInt32Packed Field Value)
             (packed_record Field (map varint_payload Value)).
Proof.
  intros E Hp Hr Hf HL Hok.
  pose proof (concat_bounded_length varint_payload 1 10 Value
                varint_payload_length) as HB.
  assert (HI : appends (Builder.emitInt32Packed Field Value)
                 (packed_record Field (map varint_payload Value))).
  { unfold Builder.emitInt32Packed, packed_record.
    pose proof (appends_emitVarIntPacked Field Value Hf) as H.
    rewrite calculateVarIntPackedLength_eq, static_cast_UInt64_Int32 in H
      by (change (Cpp.numeric_limits_max Cpp.Int32) with 2147483647; lia).
    exact H. }
  split; [|exact HI].
  rewrite (appends_bytes_of _ _
             (appends_emitEnumPacked ValueType IntValueType toIntegral_Value
                emit Field Value E Hf Hp Hr)).
  rewrite (appends_bytes_of _ _ HI). unfold packed_record.
  rewrite static_cast_representable by (apply representable_UInt64; lia).
  assert (Hone : Forall (fun Item => length (varint_payload Item) = 1%nat) Value
                 <-> Forall (fun Item => 0 <= Item < 128) Value).
  { rewrite !Forall_forall. split; intros H x Hx.
    - specialize (H x Hx). apply varint_payload_one_byte in H.
      pose proof (proj1 (Forall_forall _ _) Hok x Hx) as Hrx.
      apply representable_Int32 in Hrx.
      rewrite static_cast_UInt64 in H.
      destruct (Z_lt_le_dec x 0) as [Hneg|Hpos].
      + rewrite (mod_unique_eq x (2 ^ 64) (-1) (x + 2 ^ 64)) in H by lia. lia.
      + rewrite Z.mod_small in H by lia. exact H.
    - apply varint_payload_one_byte.
      rewrite static_cast_UInt64, Z.mod_small; specialize (H x Hx); lia. }
  rewrite <- Hone.
  rewrite <- (concat_length_eq_count varint_payload Value)
    by (intros V; pose proof (varint_payload_length V); lia).
  split.
  - intros Eb. apply app_inv_head in Eb.
    destruct (varint_bytes_inj (Z.of_nat (length Value))
                (Z.of_nat (length (concat (map varint_payload Value))))
                _ _ ltac:(lia) ltac:(lia) Eb) as [El _].
    apply Nat2Z.inj in El. symmetry. exact El.
  - intros El. rewrite El. reflexivity.
Qed.

Lemma emitEnumPacked_right_on_one_byte_values_witness :
  Cpp.promote Cpp.Int32 = Cpp.Int32
  /\ Cpp.representable Cpp.Int32 0
  /\ valid_field 1
  /\ Z.of_nat (length [0; 1; 127]) <= 214748364
  /\ Forall (Cpp.representable Cpp.Int32) [0; 1; 127]
  /\ Forall (fun Item => 0 <= Item < 128) [0; 1; 127]
  /\ exists emit,
       Emitter.emitEnumPacked (Cpp.Container (Cpp.Integral Cpp.Int32))
         (Some (Cpp.Int32, fun _ => 0)) = Some emit
       /\ bytes_of (emit 1 [0; 1; 127])
          = bytes_of (Builder.emitInt32Packed 1 [0; 1; 127])
       /\ bytes_of (emit 1 [0; 1; 127]) = [10; 3; 0; 1; 127].
Proof.
  assert (Hr : Cpp.representable Cpp.Int32 0)
    by (apply representable_Int32; lia).
  assert (HL : Z.of_nat (length [0; 1; 127]) <= 214748364)
    by (apply Z.leb_le; reflexivity).
  assert (Hok : Forall (Cpp.representable Cpp.Int32) [0; 1; 127])
    by (repeat constructor; apply representable_Int32; lia).
  assert (Hs : Forall (fun Item => 0 <= Item < 128) [0; 1; 127])
    by (repeat constructor; lia).
  split; [reflexivity|]. split; [exact Hr|].
  split; [exact valid_field_1|]. split; [exact HL|]. split; [exact Hok|].
  split; [exact Hs|].
  eexists. split; [reflexivity|].
  split; [|reflexivity].
  exact (proj2 (proj1 (emitEnumPacked_right_on_one_byte_values
                         (Cpp.Container (Cpp.Integral Cpp.Int32)) Cpp.Int32
                         (fun _ => 0) _ 1 [0; 1; 127] eq_refl eq_refl Hr
                         valid_field_1 HL Hok)) Hs).
Defined.

(** *** A packed field as a length-delimited record *)

(** X16.  The comment on [emitLen] says it "also matches packed repeated
    fields".  For the integer categories and [bool], on at most 214748364
    elements, the packed emission of a sequence is [emitLen] (and so
    [Builder::emitBytes]) on the payloads of its elements one after the
    other: the two calls do the same on every stream. *)
Theorem packed_is_emitLen (Host : Endianness) (C : Category) (Field : Z)
  (Value : list (ItemOf C)) (emit : Z -> list (ItemOf C) -> Emit unit)
  (Output : list Z) :
  valid_field Field ->
  In C integer_categories ->
  Z.of_nat (length Value) <= 214748364 ->
  emit_C_packed Host C = Some emit ->
  emit Field Value Output
  = Emitter.emitLen Field (concat (map (item_payload Host C) Value)) Output
  /\ emit Field Value Output
     = Builder.emitBytes Field (concat (map (item_payload Host C) Value)) Output.
Proof.
  intros Hf HC HL E.
  pose proof (concat_bounded_length (item_payload Host C) 1 10 Value
                (fun Item => item_payload_length Host C Item HC)) as HB.
  assert (H : emit Field Value Output
              = Emitter.emitLen Field
                  (concat (map (item_payload Host C) Value)) Output).
  { rewrite (appends_emit_C_packed_item_payload Host C Field Value emit
               Hf HC HL E Output).
    assert (HU : Z.of_nat
                   (length (concat (map (item_payload Host C) Value)))
                 <= Cpp.numeric_limits_max Cpp.UInt64)
      by (change (Cpp.numeric_limits_max Cpp.UInt64) with (2 ^ 64 - 1); lia).
    rewrite (appends_emitLen_length Field _ Hf HU Output).
    reflexivity. }
  split; [exact H | exact H].
Qed.

Lemma packed_is_emitLen_witness :
  valid_field 1
  /\ In CSInt32 integer_categories
  /\ Z.of_nat (length [0; -1; 65537]) <= 214748364
  /\ Builder.emitSInt32Packed 1 [0; -1; 65537] []
     = Builder.emitBytes 1 [0; 1; 130; 128; 8] []
  /\ Builder.emitBytes 1 [0; 1; 130; 128; 8] []
     = Some (tt, [10; 5; 0; 1; 130; 128; 8]).
Proof.
  assert (HC : In CSInt32 integer_categories)
    by (unfold integer_categories; cbn [In]; do 4 right; left; reflexivity).
  assert (HL : Z.of_nat (length [0; -1; 65537]) <= 214748364)
    by (apply Z.leb_le; reflexivity).
  split; [exact valid_field_1|]. split; [exact HC|]. split; [exact HL|].
  split; [|reflexivity].
  exact (proj2 (packed_is_emitLen LittleEndian CSInt32 1 [0; -1; 65537]
                  Builder.emitSInt32Packed [] valid_field_1 HC HL eq_refl)).
Defined.
